(** * Hash tables: direct addressing, open addressing, separate chaining

    A shallow embedding of [src/hash_functions.py], [src/hash_tables.py]
    and the three measuring functions of [src/benchmark.py], with the
    properties of the tables that the specification states and further
    properties of the code.

    Conventions of the embedding.
    - Python [int] is [Z]; [%] is floor modulo ([Z.modulo]) and raises
      [ZeroDivisionError] on a zero divisor.
    - A [str] is a [string] and [ord] gives the code of a character: the
      strings covered are those of characters with codes below 256.
    - A method is a function from the object ([self]) and its arguments to
      the outcome of the call and the object afterwards.  The outcome is
      [Ok v] for a normal return and [Raise e] for an exception; the object
      that comes with [Raise e] is the object as the exception left it.
    - A [while] loop is a function for one pass of its body and a fixpoint
      over the number of passes left.
    - [insert] and [_resize] call each other; [insert_rec] is [insert] with
      the depth of that recursion bounded, and [insert] takes a bound that
      is shown never to be reached.  The interpreter's own limits, on the
      depth of recursion and on memory, are not part of the model.
    - A list subscript follows Python: negative subscripts count from the
      end, anything else out of range is an [IndexError].
    - A Python float is a binary floating-point number of 53 significant
      bits and is modelled by the rational it denotes.  [py_float x] is the
      float nearest to [x], the one with an even last bit when two are
      equally near; [count / size] of two [int]s is the float nearest to
      the quotient.  [load_factor_threshold] is a finite float; a rational
      that is not a float is read as the float nearest to it, so [3 # 4]
      is [0.75] and [9 # 10] is the float that Python writes [0.9].  The
      range of the exponent is not limited: a quotient of [count] and
      [size] too large or too small for a float takes more than [2 ^ 1022]
      entries or slots, more than memory holds.
    - A state is reachable when method calls lead to it from a fresh table,
      whatever the outcome of each call.
    - [time.perf_counter()] reads a clock that the benchmark functions
      pass along; the clock, the floats it returns and their subtraction
      are parameters.
    - [multiplication_hash] (binary floating point) and [md5_hash]
      ([hashlib]) are named in the registry of [get_hash_function] and not
      embedded.

    The first part is the model, class by class, each followed by the
    invariants used later; the second part is lemmas and theorems. *)

From Stdlib Require Import ZArith QArith Qround Qpower Lqa Lia.
From stdpp Require Import base list strings gmap relations.

Open Scope Z_scope.

(** ** Python values, exceptions and sequences *)

Inductive Any : Type :=
  | PyNone
  | PyInt (z : Z)
  | PyStr (s : string).

Inductive exn : Type :=
  | ValueError
  | RuntimeError
  | ZeroDivisionError
  | IndexError
  | RecursionError.

Inductive result (A : Type) : Type :=
  | Ok (a : A)
  | Raise (e : exn).
Arguments Ok {A} a.
Arguments Raise {A} e.

(** [a % b] *)
Definition py_mod (a b : Z) : result Z :=
  if b =? 0 then Raise ZeroDivisionError else Ok (a mod b).

(** The position that subscript [i] denotes in a list: negative subscripts
    count from the end, anything outside [-len, len) is an [IndexError]. *)
Definition py_index {A} (l : list A) (i : Z) : option nat :=
  let n := Z.of_nat (length l) in
  if (0 <=? i) && (i <? n) then Some (Z.to_nat i)
  else if (- n <=? i) && (i <? 0) then Some (Z.to_nat (n + i))
  else None.

(** [l[i]] *)
Definition py_getitem {A} (l : list A) (i : Z) : result A :=
  match py_index l i with
  | Some j => match l !! j with Some x => Ok x | None => Raise IndexError end
  | None => Raise IndexError
  end.

(** [l[i] = x] *)
Definition py_setitem {A} (l : list A) (i : Z) (x : A) : result (list A) :=
  match py_index l i with
  | Some j => Ok (<[j:=x]> l)
  | None => Raise IndexError
  end.

(** [[x] * n] *)
Definition py_repeat {A} (x : A) (n : Z) : list A := replicate (Z.to_nat n) x.

(** ** Floats *)

(** The exponent [e] of a positive [x]: [2 ^ e <= x < 2 ^ (e + 1)]. *)
Definition exponent (x : Q) : Z :=
  let d := Z.log2 (Qnum x) - Z.log2 (Zpos (Qden x)) in
  if Qle_bool (2 ^ d) x then d else d - 1.

(** The integer nearest to [x], the even one of two equally near. *)
Definition round_half_even (x : Q) : Z :=
  let n := Qfloor x in
  match (x - inject_Z n ?= 1 # 2)%Q with
  | Lt => n
  | Eq => if Z.even n then n else n + 1
  | Gt => n + 1
  end.

(** The nearest multiple of [2 ^ (e - 52)], for [x] of exponent [e]: it
    is written with 53 bits. *)
Definition round_positive (x : Q) : Q :=
  let ulp := (2 ^ (exponent x - 52))%Q in
  (inject_Z (round_half_even (x / ulp)) * ulp)%Q.

(** The float nearest to [x]. *)
Definition py_float (x : Q) : Q :=
  match (x ?= 0)%Q with
  | Eq => 0%Q
  | Gt => round_positive x
  | Lt => (- round_positive (- x))%Q
  end.

(** [a / b] of two [int]s. *)
Definition py_truediv (a b : Z) : result Q :=
  if b =? 0 then Raise ZeroDivisionError
  else Ok (py_float (inject_Z a / inject_Z b)).

(** [c / s < thr] as Python evaluates it, for [int]s [c] and [s], [s] not
    zero, and the threshold [thr]. *)
Definition below (thr : Q) (c s : Z) : Prop :=
  (py_float (inject_Z c / inject_Z s) < py_float thr)%Q.

(** ** hash_functions.py *)

Definition division_hash (key table_size : Z) : result Z :=
  py_mod key table_size.

Definition universal_hash (key table_size a b p : Z) : result Z :=
  match py_mod (a * key + b) p with
  | Ok r => py_mod r table_size
  | Raise e => Raise e
  end.

Definition bad_hash_clustering (key table_size : Z) : result Z :=
  py_mod (key * table_size) table_size.

(** [ord(char)] *)
Definition ord (char : Ascii.ascii) : Z := Z.of_N (Ascii.N_of_ascii char).

(** [for char in key: hash_value += ord(char)] *)
Fixpoint string_hash_simple_loop (key : string) (hash_value : Z) : Z :=
  match key with
  | String.EmptyString => hash_value
  | String.String char key' => string_hash_simple_loop key' (hash_value + ord char)
  end.

Definition string_hash_simple (key : string) (table_size : Z) : result Z :=
  let hash_value := 0 in
  py_mod (string_hash_simple_loop key hash_value) table_size.

(** [for char in key: hash_value = (hash_value * base + ord(char)) % table_size] *)
Fixpoint string_hash_polynomial_loop (key : string) (table_size base : Z)
    (hash_value : Z) : result Z :=
  match key with
  | String.EmptyString => Ok hash_value
  | String.String char key' =>
      match py_mod (hash_value * base + ord char) table_size with
      | Ok hash_value' =>
          string_hash_polynomial_loop key' table_size base hash_value'
      | Raise e => Raise e
      end
  end.

(** [base=None] selects the default base 31. *)
Definition string_hash_polynomial (key : string) (table_size : Z)
    (base : option Z) : result Z :=
  let hash_value := 0 in
  string_hash_polynomial_loop key table_size (default 31 base) hash_value.

(** [for char in key: hash_value = ((hash_value << 5) + hash_value) + ord(char)] *)
Fixpoint string_hash_djb2_loop (key : string) (hash_value : Z) : Z :=
  match key with
  | String.EmptyString => hash_value
  | String.String char key' =>
      string_hash_djb2_loop key' ((Z.shiftl hash_value 5 + hash_value) + ord char)
  end.

Definition string_hash_djb2 (key : string) (table_size : Z) : result Z :=
  let hash_value := 5381 in
  py_mod (string_hash_djb2_loop key hash_value) table_size.

(** The character codes of a string, first character first. *)
Fixpoint codes (key : string) : list Z :=
  match key with
  | String.EmptyString => []
  | String.String char key' => ord char :: codes key'
  end.

(** [s[0]*b^(n-1) + s[1]*b^(n-2) + ... + s[n-1]], the polynomial of the
    docstring of [string_hash_polynomial], with no reduction. *)
Fixpoint polynomial (b : Z) (s : list Z) : Z :=
  match s with
  | [] => 0
  | c :: s' => c * b ^ Z.of_nat (length s') + polynomial b s'
  end.

(** The function objects of the module, by identity. *)
Inductive Callable : Type :=
  | Fn_division_hash
  | Fn_multiplication_hash
  | Fn_universal_hash
  | Fn_string_hash_simple
  | Fn_string_hash_polynomial
  | Fn_string_hash_djb2
  | Fn_md5_hash
  | Fn_bad_hash_clustering.

(** The dictionary literal inside [get_hash_function]. *)
Definition hash_functions : gmap string Callable :=
  <["division" := Fn_division_hash]> (
  <["multiplication" := Fn_multiplication_hash]> (
  <["string_simple" := Fn_string_hash_simple]> (
  <["string_polynomial" := Fn_string_hash_polynomial]> (
  <["string_djb2" := Fn_string_hash_djb2]> (
  <["md5" := Fn_md5_hash]> (
  <["bad_clustering" := Fn_bad_hash_clustering]> ∅)))))).

(** [hash_functions.get(hash_type, division_hash)] *)
Definition get_hash_function (hash_type : string) : Callable :=
  default Fn_division_hash (hash_functions !! hash_type).

(** A hash function that returns normally for every key and every table
    size [s > 0], with an index in [[0, s)]: the division method and
    [bad_hash_clustering] are of this kind. *)
Definition hash_in_range (hf : Z → Z → result Z) : Prop :=
  ∀ key s, 0 < s → ∃ h, hf key s = Ok h ∧ 0 ≤ h < s.

(** ** hash_tables.py: DirectAddressTable *)

Module DirectAddressTable.

Record t : Type := mk { size : Z; table : list Any }.

Definition init (size : Z) : t :=
  {| size := size; table := py_repeat PyNone size |}.

Definition insert (self : t) (key : Z) (value : Any) : result unit * t :=
  if negb ((0 <=? key) && (key <? size self)) then (Raise ValueError, self)
  else
    match py_setitem (table self) key value with
    | Ok tbl => (Ok tt, {| size := size self; table := tbl |})
    | Raise e => (Raise e, self)
    end.

Definition search (self : t) (key : Z) : result Any :=
  if negb ((0 <=? key) && (key <? size self)) then Ok PyNone
  else py_getitem (table self) key.

Definition delete (self : t) (key : Z) : result unit * t :=
  if (0 <=? key) && (key <? size self) then
    match py_setitem (table self) key PyNone with
    | Ok tbl => (Ok tt, {| size := size self; table := tbl |})
    | Raise e => (Raise e, self)
    end
  else (Ok tt, self).

(** One method call, whatever its outcome. *)
Inductive step : t → t → Prop :=
  | step_insert self key value r self' :
      insert self key value = (r, self') → step self self'
  | step_delete self key r self' :
      delete self key = (r, self') → step self self'.

(** The states of a table built by [DirectAddressTable(m)]. *)
Definition reachable (m : Z) (self : t) : Prop := rtc step (init m) self.

(** [insert] applied to each pair of a list in turn, stopping at the first
    exception. *)
Fixpoint insert_all (self : t) (kvs : list (Z * Any)) : result unit * t :=
  match kvs with
  | [] => (Ok tt, self)
  | (k, v) :: rest =>
      match insert self k v with
      | (Ok _, self') => insert_all self' rest
      | (Raise e, self') => (Raise e, self')
      end
  end.

(** Invariants and auxiliary notions used in the proofs. *)

(** The backing list has [size] elements. *)
Definition wf (m : Z) (self : t) : Prop :=
  size self = m ∧ length (table self) = Z.to_nat m.

End DirectAddressTable.

(** ** hash_tables.py: HashTableOpenAddressing *)

(** What one pass through the body of a [while] loop does next:
    [return a], or fall through to [i += 1]. *)
Inductive ctl (A : Type) : Type :=
  | Return (a : A)
  | Next.
Arguments Return {A} a.
Arguments Next {A}.

Module HashTableOpenAddressing.

(** An element of [self.table]: [None], the sentinel [DELETED], or a
    tuple [(key, value)]. *)
Inductive slot : Type :=
  | Empty
  | DELETED
  | Entry (key : Z) (value : Any).

Record t : Type := mk {
  size : Z;
  count : Z;
  table : list slot;
  hash_func : Z → Z → result Z;
  probe_type : string;
  load_factor_threshold : Q;
  _probe_count : Z;
  _comparison_count : Z
}.

Definition set_size (self : t) (n : Z) : t :=
  mk n (count self) (table self) (hash_func self) (probe_type self)
     (load_factor_threshold self) (_probe_count self) (_comparison_count self).
Definition set_count (self : t) (n : Z) : t :=
  mk (size self) n (table self) (hash_func self) (probe_type self)
     (load_factor_threshold self) (_probe_count self) (_comparison_count self).
Definition set_table (self : t) (tbl : list slot) : t :=
  mk (size self) (count self) tbl (hash_func self) (probe_type self)
     (load_factor_threshold self) (_probe_count self) (_comparison_count self).
Definition set_probe_count (self : t) (n : Z) : t :=
  mk (size self) (count self) (table self) (hash_func self) (probe_type self)
     (load_factor_threshold self) n (_comparison_count self).
Definition set_comparison_count (self : t) (n : Z) : t :=
  mk (size self) (count self) (table self) (hash_func self) (probe_type self)
     (load_factor_threshold self) (_probe_count self) n.

(** [__init__]; [hash_func=None] selects the division method. *)
Definition init (size : Z) (hash_func : option (Z → Z → result Z))
    (probe_type : string) (load_factor_threshold : Q) : t :=
  {| size := size;
     count := 0;
     table := py_repeat Empty size;
     hash_func := default (λ k s, division_hash k s) hash_func;
     probe_type := probe_type;
     load_factor_threshold := load_factor_threshold;
     _probe_count := 0;
     _comparison_count := 0 |}.

Definition _load_factor (self : t) : result Q :=
  py_truediv (count self) (size self).

Definition _linear_probe (self : t) (key i : Z) : result Z :=
  match hash_func self key (size self) with
  | Ok h1 => py_mod (h1 + i) (size self)
  | Raise e => Raise e
  end.

Definition _quadratic_probe (self : t) (key i : Z) : result Z :=
  match hash_func self key (size self) with
  | Ok h1 =>
      let c1 := 1 in
      let c2 := 1 in
      py_mod (h1 + c1 * i + c2 * i * i) (size self)
  | Raise e => Raise e
  end.

Definition _double_hash (self : t) (key i : Z) : result Z :=
  match hash_func self key (size self) with
  | Ok h1 =>
      match py_mod key (size self - 1) with
      | Ok r => let h2 := 1 + r in py_mod (h1 + i * h2) (size self)
      | Raise e => Raise e
      end
  | Raise e => Raise e
  end.

Definition _probe (self : t) (key i : Z) : result Z :=
  if String.eqb (probe_type self) "linear" then _linear_probe self key i
  else if String.eqb (probe_type self) "quadratic" then _quadratic_probe self key i
  else if String.eqb (probe_type self) "double" then _double_hash self key i
  else Raise ValueError.

(** The body of the [while] loop of [insert], at probe number [i]. *)
Definition insert_body (self : t) (key : Z) (value : Any) (i : Z)
    : result (ctl unit) * t :=
  match _probe self key i with
  | Raise e => (Raise e, self)
  | Ok index =>
      let self := set_probe_count self (_probe_count self + 1) in
      match py_getitem (table self) index with
      | Raise e => (Raise e, self)
      | Ok Empty | Ok DELETED =>
          match py_setitem (table self) index (Entry key value) with
          | Ok tbl =>
              (Ok (Return tt), set_count (set_table self tbl) (count self + 1))
          | Raise e => (Raise e, self)
          end
      | Ok (Entry k _) =>
          if k =? key then
            let self := set_comparison_count self (_comparison_count self + 1) in
            match py_setitem (table self) index (Entry key value) with
            | Ok tbl => (Ok (Return tt), set_table self tbl)
            | Raise e => (Raise e, self)
            end
          else
            (Ok Next, set_comparison_count self (_comparison_count self + 1))
      end
  end.

(** [while i < self.size: ...; i += 1] followed by the [raise]; [n] is the
    number of passes left, [self.size - i]. *)
Fixpoint insert_loop (n : nat) (self : t) (key : Z) (value : Any) (i : Z)
    : result unit * t :=
  match n with
  | O => (Raise RuntimeError, self)
  | S n' =>
      match insert_body self key value i with
      | (Ok (Return _), self') => (Ok tt, self')
      | (Ok Next, self') => insert_loop n' self' key value (i + 1)
      | (Raise e, self') => (Raise e, self')
      end
  end.

Section resize.
(** [_resize] calls [self.insert]; the call is a parameter here and
    [insert_rec] below ties the knot. *)
Variable insert : t → Z → Any → result unit * t.

(** [for entry in old_table: ...] *)
Fixpoint rehash (old_table : list slot) (self : t) : result unit * t :=
  match old_table with
  | [] => (Ok tt, self)
  | Entry key value :: rest =>
      match insert self key value with
      | (Ok _, self') => rehash rest self'
      | (Raise e, self') => (Raise e, self')
      end
  | _ :: rest => rehash rest self
  end.

Definition _resize (self : t) : result unit * t :=
  let old_table := table self in
  let self := set_size self (size self * 2) in
  let self := set_count self 0 in
  let self := set_table self (py_repeat Empty (size self)) in
  rehash old_table self.
End resize.

(** [insert] with the depth of the recursion through [_resize] bounded by
    [depth]; running out is Python's [RecursionError].  The threshold is a
    float, which [py_float] leaves as it is (lemma [py_float_idem]). *)
Fixpoint insert_rec (depth : nat) (self : t) (key : Z) (value : Any)
    : result unit * t :=
  match depth with
  | O => (Raise RecursionError, self)
  | S d =>
      match _load_factor self with
      | Raise e => (Raise e, self)
      | Ok lf =>
          match (if Qle_bool (py_float (load_factor_threshold self)) lf
                 then _resize (insert_rec d) self
                 else (Ok tt, self)) with
          | (Raise e, self') => (Raise e, self')
          | (Ok _, self') =>
              insert_loop (Z.to_nat (size self')) self' key value 0
          end
      end
  end.

Definition is_entry (s : slot) : bool :=
  match s with Entry _ _ => true | _ => false end.

(** Number of slots holding a tuple. *)
Definition live (tbl : list slot) : nat := length (filter is_entry tbl).

(** A nested [insert] runs on a table with fewer tuples than the table
    being rehashed, so this depth is never exhausted
    (lemma [oa_insert_rec_enough]). *)
Definition insert (self : t) (key : Z) (value : Any) : result unit * t :=
  insert_rec (S (live (table self))) self key value.

Definition search_body (self : t) (key : Z) (i : Z) : result (ctl Any) * t :=
  match _probe self key i with
  | Raise e => (Raise e, self)
  | Ok index =>
      let self := set_probe_count self (_probe_count self + 1) in
      match py_getitem (table self) index with
      | Raise e => (Raise e, self)
      | Ok Empty => (Ok (Return PyNone), self)
      | Ok DELETED =>
          (Ok Next, set_comparison_count self (_comparison_count self + 1))
      | Ok (Entry k v) =>
          if k =? key then
            (Ok (Return v),
             set_comparison_count self (_comparison_count self + 1))
          else
            (Ok Next, set_comparison_count self (_comparison_count self + 1))
      end
  end.

Fixpoint search_loop (n : nat) (self : t) (key : Z) (i : Z) : result Any * t :=
  match n with
  | O => (Ok PyNone, self)
  | S n' =>
      match search_body self key i with
      | (Ok (Return v), self') => (Ok v, self')
      | (Ok Next, self') => search_loop n' self' key (i + 1)
      | (Raise e, self') => (Raise e, self')
      end
  end.

Definition search (self : t) (key : Z) : result Any * t :=
  search_loop (Z.to_nat (size self)) self key 0.

Definition get_probe_count (self : t) : Z := _probe_count self.
Definition get_comparison_count (self : t) : Z := _comparison_count self.

Definition reset_counts (self : t) : t :=
  set_comparison_count (set_probe_count self 0) 0.

Definition delete_body (self : t) (key : Z) (i : Z) : result (ctl bool) * t :=
  match _probe self key i with
  | Raise e => (Raise e, self)
  | Ok index =>
      match py_getitem (table self) index with
      | Raise e => (Raise e, self)
      | Ok Empty => (Ok (Return false), self)
      | Ok DELETED => (Ok Next, self)
      | Ok (Entry k _) =>
          if k =? key then
            match py_setitem (table self) index DELETED with
            | Ok tbl =>
                (Ok (Return true),
                 set_count (set_table self tbl) (count self - 1))
            | Raise e => (Raise e, self)
            end
          else (Ok Next, self)
      end
  end.

Fixpoint delete_loop (n : nat) (self : t) (key : Z) (i : Z) : result bool * t :=
  match n with
  | O => (Ok false, self)
  | S n' =>
      match delete_body self key i with
      | (Ok (Return b), self') => (Ok b, self')
      | (Ok Next, self') => delete_loop n' self' key (i + 1)
      | (Raise e, self') => (Raise e, self')
      end
  end.

Definition delete (self : t) (key : Z) : result bool * t :=
  delete_loop (Z.to_nat (size self)) self key 0.

(** One method call, whatever its outcome. *)
Inductive step : t → t → Prop :=
  | step_insert self key value r self' :
      insert self key value = (r, self') → step self self'
  | step_search self key r self' :
      search self key = (r, self') → step self self'
  | step_delete self key r self' :
      delete self key = (r, self') → step self self'
  | step_reset_counts self :
      step self (reset_counts self).

Definition reachable (self0 self : t) : Prop := rtc step self0 self.

Fixpoint insert_all (self : t) (kvs : list (Z * Any)) : result unit * t :=
  match kvs with
  | [] => (Ok tt, self)
  | (k, v) :: rest =>
      match insert self k v with
      | (Ok _, self') => insert_all self' rest
      | (Raise e, self') => (Raise e, self')
      end
  end.

(** The tuple [(key, value)] is in some slot. *)
Definition holds (self : t) (key : Z) (value : Any) : Prop :=
  Entry key value ∈ table self.

(** Invariants and auxiliary notions used in the proofs. *)

(** There are [size] slots and [count] counts the tuples. *)
Record wf (self : t) : Prop := {
  wf_length : length (table self) = Z.to_nat (size self);
  wf_count : count self = Z.of_nat (live (table self))
}.

(** [self'] has the hash function, probe type and threshold of [self]. *)
Definition same_config (self self' : t) : Prop :=
  hash_func self' = hash_func self
  ∧ probe_type self' = probe_type self
  ∧ load_factor_threshold self' = load_factor_threshold self.

(** [self'] differs from [self] in the two counters at most. *)
Definition counts_only (self self' : t) : Prop :=
  reset_counts self' = reset_counts self.

(** What a call of [insert] guarantees whatever its outcome. *)
Definition insert_keeps (ins : t → Z → Any → result unit * t) : Prop :=
  ∀ self key value r self',
    wf self → ins self key value = (r, self') → wf self' ∧ same_config self self'.

(** The empty table of doubled size that [_resize] starts from. *)
Definition doubled (self : t) : t :=
  set_table (set_count (set_size self (size self * 2)) 0)
            (py_repeat Empty (size self * 2)).

(** One entry in twice as many slots is below the threshold, and so are
    all entries but one in the slots there are. *)
Definition lf_ok (self : t) : Prop :=
  0 < size self
  ∧ below (load_factor_threshold self) 1 (2 * size self)
  ∧ below (load_factor_threshold self) (count self - 1) (size self).

(** The slot that a pass of a loop examines. *)
Definition examined (self : t) (key i : Z) : option slot :=
  match _probe self key i with
  | Ok index =>
      match py_getitem (table self) index with
      | Ok entry => Some entry
      | Raise _ => None
      end
  | Raise _ => None
  end.

(** The same table with [p] more probes and [c] more comparisons counted. *)
Definition shift (p c : Z) (self : t) : t :=
  set_comparison_count (set_probe_count self (_probe_count self + p))
                       (_comparison_count self + c).

(** The slot that probe number [i] of [key] lands on. *)
Definition probe_slot (self : t) (key i : Z) : option nat :=
  match _probe self key i with
  | Ok index => py_index (table self) index
  | Raise _ => None
  end.

(** No slot holds the sentinel. *)
Definition clean (self : t) : Prop := ∀ j, table self !! j ≠ Some DELETED.

(** The first [m] probes of [key] land on tuples of other keys. *)
Definition blocked (self : t) (key : Z) (m : nat) : Prop :=
  ∀ i : nat, (i < m)%nat →
    ∃ j k v, probe_slot self key (Z.of_nat i) = Some j
      ∧ table self !! j = Some (Entry k v) ∧ k ≠ key.

(** Every tuple sits on the probe sequence of its key, behind tuples of
    other keys only. *)
Definition path_ok (self : t) : Prop :=
  ∀ j k v, table self !! j = Some (Entry k v) →
    ∃ m : nat, (m < Z.to_nat (size self))%nat
      ∧ probe_slot self k (Z.of_nat m) = Some j ∧ blocked self k m.

(** The invariant of a table that has seen no [delete]. *)
Record tidy (self : t) : Prop := {
  tidy_length : length (table self) = Z.to_nat (size self);
  tidy_clean : clean self;
  tidy_path : path_ok self
}.

(** What [insert] guarantees on a table without tombstones when it
    returns normally. *)
Definition insert_tidy (ins : t → Z → Any → result unit * t) : Prop :=
  ∀ self key value self',
    tidy self → ins self key value = (Ok tt, self') →
    tidy self' ∧ holds self' key value
    ∧ ∀ k' v', k' ≠ key → (holds self' k' v' ↔ holds self k' v').

(** Some slot holds a tuple of [key]. *)
Definition has_key (self : t) (key : Z) : Prop := ∃ v, holds self key v.


(** The keys of the tuples of a table, slot by slot. *)
Fixpoint keys (tbl : list slot) : list Z :=
  match tbl with
  | [] => []
  | Entry k _ :: rest => k :: keys rest
  | _ :: rest => keys rest
  end.

(** [delete] applied to each key of a list in turn. *)
Fixpoint delete_all (self : t) (ks : list Z) : t :=
  match ks with
  | [] => self
  | k :: rest => delete_all (delete self k).2 rest
  end.

(** The first [m] probes of [key] land on tombstones or on tuples of
    other keys. *)
Definition passed (self : t) (key : Z) (m : nat) : Prop :=
  ∀ i : nat, (i < m)%nat →
    ∃ j s, probe_slot self key (Z.of_nat i) = Some j
      ∧ table self !! j = Some s ∧ s ≠ Empty ∧ ∀ v, s ≠ Entry key v.

(** The invariant of a table whose inserts all came before its deletes:
    no key is in two slots, and every tuple sits on the probe sequence of
    its key with no empty slot and no tuple of its key before it. *)
Record settled (self : t) : Prop := {
  settled_length : length (table self) = Z.to_nat (size self);
  settled_unique : ∀ j1 j2 k v1 v2,
    table self !! j1 = Some (Entry k v1) →
    table self !! j2 = Some (Entry k v2) → j1 = j2;
  settled_path : ∀ j k v, table self !! j = Some (Entry k v) →
    ∃ m : nat, (m < Z.to_nat (size self))%nat
      ∧ probe_slot self k (Z.of_nat m) = Some j ∧ passed self k m
}.

(** A table with linear probing on which no call raises: it is well
    formed, has a slot, its hash function gives results in range, and its
    threshold is at most 1. *)
Definition linear_good (self : t) : Prop :=
  wf self ∧ 0 < size self ∧ probe_type self = "linear"
  ∧ hash_in_range (hash_func self)
  ∧ (load_factor_threshold self <= 1)%Q.

End HashTableOpenAddressing.

(** ** hash_tables.py: HashTableSeparateChaining *)

Module HashTableSeparateChaining.

(** A [Node] carries [key] and [value]; its [next] field is the tail of
    the list that stands for the chain, and [None] is the empty list. *)
Abbreviation Node := (Z * Any)%type.

Record t : Type := mk {
  size : Z;
  count : Z;
  buckets : list (list Node);
  hash_func : Z → Z → result Z;
  load_factor_threshold : Q;
  _comparison_count : Z
}.

Definition set_size (self : t) (n : Z) : t :=
  mk n (count self) (buckets self) (hash_func self)
     (load_factor_threshold self) (_comparison_count self).
Definition set_count (self : t) (n : Z) : t :=
  mk (size self) n (buckets self) (hash_func self)
     (load_factor_threshold self) (_comparison_count self).
Definition set_buckets (self : t) (b : list (list Node)) : t :=
  mk (size self) (count self) b (hash_func self)
     (load_factor_threshold self) (_comparison_count self).
Definition set_comparison_count (self : t) (n : Z) : t :=
  mk (size self) (count self) (buckets self) (hash_func self)
     (load_factor_threshold self) n.

Definition init (size : Z) (hash_func : option (Z → Z → result Z))
    (load_factor_threshold : Q) : t :=
  {| size := size;
     count := 0;
     buckets := py_repeat [] size;
     hash_func := default (λ k s, division_hash k s) hash_func;
     load_factor_threshold := load_factor_threshold;
     _comparison_count := 0 |}.

Definition _load_factor (self : t) : result Q :=
  py_truediv (count self) (size self).

(** The first [while] loop of [insert]: the number of comparisons made,
    and the chain with the value of [key] replaced when [key] is met. *)
Fixpoint insert_scan (current : list Node) (key : Z) (value : Any)
    : Z * option (list Node) :=
  match current with
  | [] => (0, None)
  | (k, v) :: next =>
      if k =? key then (1, Some ((k, value) :: next))
      else
        let (c, r) := insert_scan next key value in
        (1 + c, cons (k, v) <$> r)
  end.

(** [insert] after the load-factor check. *)
Definition insert_body (self : t) (key : Z) (value : Any) : result unit * t :=
  match hash_func self key (size self) with
  | Raise e => (Raise e, self)
  | Ok index =>
      match py_getitem (buckets self) index with
      | Raise e => (Raise e, self)
      | Ok head =>
          let (c, r) := insert_scan head key value in
          let self := set_comparison_count self (_comparison_count self + c) in
          match r with
          | Some chain =>
              match py_setitem (buckets self) index chain with
              | Ok b => (Ok tt, set_buckets self b)
              | Raise e => (Raise e, self)
              end
          | None =>
              match py_setitem (buckets self) index ((key, value) :: head) with
              | Ok b => (Ok tt, set_count (set_buckets self b) (count self + 1))
              | Raise e => (Raise e, self)
              end
          end
      end
  end.

Section resize.
Variable insert : t → Z → Any → result unit * t.

(** [while current is not None: self.insert(...); current = current.next] *)
Fixpoint rehash_chain (current : list Node) (self : t) : result unit * t :=
  match current with
  | [] => (Ok tt, self)
  | (k, v) :: next =>
      match insert self k v with
      | (Ok _, self') => rehash_chain next self'
      | (Raise e, self') => (Raise e, self')
      end
  end.

(** [for head in old_buckets: ...] *)
Fixpoint rehash (old_buckets : list (list Node)) (self : t) : result unit * t :=
  match old_buckets with
  | [] => (Ok tt, self)
  | head :: rest =>
      match rehash_chain head self with
      | (Ok _, self') => rehash rest self'
      | (Raise e, self') => (Raise e, self')
      end
  end.

Definition _resize (self : t) : result unit * t :=
  let old_buckets := buckets self in
  let self := set_size self (size self * 2) in
  let self := set_count self 0 in
  let self := set_buckets self (py_repeat [] (size self)) in
  rehash old_buckets self.
End resize.

(** [insert] with the depth of the recursion through [_resize] bounded by
    [depth]; the threshold is a float, which [py_float] leaves as it is. *)
Fixpoint insert_rec (depth : nat) (self : t) (key : Z) (value : Any)
    : result unit * t :=
  match depth with
  | O => (Raise RecursionError, self)
  | S d =>
      match _load_factor self with
      | Raise e => (Raise e, self)
      | Ok lf =>
          match (if Qle_bool (py_float (load_factor_threshold self)) lf
                 then _resize (insert_rec d) self
                 else (Ok tt, self)) with
          | (Raise e, self') => (Raise e, self')
          | (Ok _, self') => insert_body self' key value
          end
      end
  end.

(** All nodes of the table, bucket by bucket. *)
Definition nodes (self : t) : list Node := concat (buckets self).

(** A nested [insert] runs on a table with fewer nodes than the table
    being rehashed, so this depth is never exhausted
    (lemma [sc_insert_rec_enough]). *)
Definition insert (self : t) (key : Z) (value : Any) : result unit * t :=
  insert_rec (S (length (nodes self))) self key value.

(** The [while] loop of [search]: comparisons made and the value found. *)
Fixpoint search_scan (current : list Node) (key : Z) : Z * Any :=
  match current with
  | [] => (0, PyNone)
  | (k, v) :: next =>
      if k =? key then (1, v)
      else let (c, r) := search_scan next key in (1 + c, r)
  end.

Definition search (self : t) (key : Z) : result Any * t :=
  match hash_func self key (size self) with
  | Raise e => (Raise e, self)
  | Ok index =>
      match py_getitem (buckets self) index with
      | Raise e => (Raise e, self)
      | Ok current =>
          let (c, r) := search_scan current key in
          (Ok r, set_comparison_count self (_comparison_count self + c))
      end
  end.

Definition get_comparison_count (self : t) : Z := _comparison_count self.
Definition reset_counts (self : t) : t := set_comparison_count self 0.

(** The loop of [delete] behind the head: the rest of the chain with the
    first node of [key] unlinked, when there is one. *)
Fixpoint delete_walk (current : list Node) (key : Z) : option (list Node) :=
  match current with
  | [] => None
  | (k, v) :: next =>
      if k =? key then Some next
      else cons (k, v) <$> delete_walk next key
  end.

Definition delete (self : t) (key : Z) : result bool * t :=
  match hash_func self key (size self) with
  | Raise e => (Raise e, self)
  | Ok index =>
      match py_getitem (buckets self) index with
      | Raise e => (Raise e, self)
      | Ok [] => (Ok false, self)
      | Ok ((k, v) :: next) =>
          if k =? key then
            match py_setitem (buckets self) index next with
            | Ok b => (Ok true, set_count (set_buckets self b) (count self - 1))
            | Raise e => (Raise e, self)
            end
          else
            match delete_walk next key with
            | Some next' =>
                match py_setitem (buckets self) index ((k, v) :: next') with
                | Ok b =>
                    (Ok true, set_count (set_buckets self b) (count self - 1))
                | Raise e => (Raise e, self)
                end
            | None => (Ok false, self)
            end
      end
  end.

Fixpoint chain_length (current : list Node) : Z :=
  match current with
  | [] => 0
  | _ :: next => 1 + chain_length next
  end.

Definition get_chain_lengths (self : t) : list Z :=
  chain_length <$> buckets self.

(** [sum(l)] and [len(l)] *)
Definition py_sum (l : list Z) : Z := foldr Z.add 0 l.
Definition py_len {A} (l : list A) : Z := Z.of_nat (length l).

(** One method call, whatever its outcome. *)
Inductive step : t → t → Prop :=
  | step_insert self key value r self' :
      insert self key value = (r, self') → step self self'
  | step_search self key r self' :
      search self key = (r, self') → step self self'
  | step_delete self key r self' :
      delete self key = (r, self') → step self self'
  | step_reset_counts self :
      step self (reset_counts self).

Definition reachable (self0 self : t) : Prop := rtc step self0 self.

Fixpoint insert_all (self : t) (kvs : list (Z * Any)) : result unit * t :=
  match kvs with
  | [] => (Ok tt, self)
  | (k, v) :: rest =>
      match insert self k v with
      | (Ok _, self') => insert_all self' rest
      | (Raise e, self') => (Raise e, self')
      end
  end.

(** Invariants and auxiliary notions used in the proofs. *)

(** The bucket that [key] hashes to. *)
Definition home (self : t) (key : Z) : option nat :=
  match hash_func self key (size self) with
  | Ok index => py_index (buckets self) index
  | Raise _ => None
  end.

(** There are [size] buckets, [count] counts the nodes, no key is on two
    nodes, and every node is in the bucket its key hashes to. *)
Record wf (self : t) : Prop := {
  wf_length : length (buckets self) = Z.to_nat (size self);
  wf_count : count self = Z.of_nat (length (nodes self));
  wf_nodup : NoDup (nodes self).*1;
  wf_home : ∀ b chain n,
    buckets self !! b = Some chain → n ∈ chain → home self n.1 = Some b
}.

(** [self'] has the hash function and threshold of [self]. *)
Definition same_config (self self' : t) : Prop :=
  hash_func self' = hash_func self
  ∧ load_factor_threshold self' = load_factor_threshold self.

(** What a call of [insert] on a well-formed table guarantees: the
    invariant whatever the outcome, and on a normal return the new pair is
    in the table and the pairs of the other keys are as before. *)
Definition insert_post (self : t) (key : Z) (value : Any)
    (r : result unit) (self' : t) : Prop :=
  wf self' ∧ same_config self self'
  ∧ (0 ≤ size self → 0 ≤ size self')
  ∧ (r = Ok tt →
       (key, value) ∈ nodes self'
       ∧ ∀ n, n.1 ≠ key → (n ∈ nodes self' ↔ n ∈ nodes self)).

(** [ins] meets [insert_post] on every well-formed table. *)
Definition insert_ok (ins : t → Z → Any → result unit * t) : Prop :=
  ∀ self key value r self',
    wf self → ins self key value = (r, self') → insert_post self key value r self'.

(** The empty table of doubled size that [_resize] starts from. *)
Definition doubled (self : t) : t :=
  set_buckets (set_count (set_size self (size self * 2)) 0)
              (py_repeat [] (size self * 2)).

(** One entry in twice as many slots is below the threshold, and so are
    all entries but one in the slots there are. *)
Definition lf_ok (self : t) : Prop :=
  0 < size self
  ∧ below (load_factor_threshold self) 1 (2 * size self)
  ∧ below (load_factor_threshold self) (count self - 1) (size self).

(** A table on which no call raises: it is well formed, has a bucket, and
    its hash function gives results in range. *)
Definition good (self : t) : Prop :=
  wf self ∧ 0 < size self ∧ hash_in_range (hash_func self).

End HashTableSeparateChaining.

(** ** benchmark.py *)

(** The methods that the benchmarks call on their [hash_table] argument,
    whatever its class. *)
Class HashTable (T : Type) : Type := {
  ht_insert : T → Z → Any → result unit * T;
  ht_search : T → Z → result Any * T;
  ht_delete : T → Z → result bool * T
}.

#[export] Instance HashTableOpenAddressing_HashTable :
  HashTable HashTableOpenAddressing.t := {|
  ht_insert := HashTableOpenAddressing.insert;
  ht_search := HashTableOpenAddressing.search;
  ht_delete := HashTableOpenAddressing.delete
|}.

#[export] Instance HashTableSeparateChaining_HashTable :
  HashTable HashTableSeparateChaining.t := {|
  ht_insert := HashTableSeparateChaining.insert;
  ht_search := HashTableSeparateChaining.search;
  ht_delete := HashTableSeparateChaining.delete
|}.

(** [v is not None] *)
Definition is_not_None (v : Any) : bool :=
  match v with PyNone => false | _ => true end.

Section benchmark.
(** [time.perf_counter()] reads a clock, which the functions pass along;
    the floats it returns and their subtraction are left open. *)
Context {clock float : Type}.
Variable perf_counter : clock → float * clock.
Variable float_sub : float → float → float.
Context {T : Type} {HT : HashTable T}.

(** [for key, value in zip(keys, values): hash_table.insert(key, value)] *)
Fixpoint benchmark_insert_loop (hash_table : T) (pairs : list (Z * Any))
    : result unit * T :=
  match pairs with
  | [] => (Ok tt, hash_table)
  | (key, value) :: rest =>
      match ht_insert hash_table key value with
      | (Ok _, hash_table') => benchmark_insert_loop hash_table' rest
      | (Raise e, hash_table') => (Raise e, hash_table')
      end
  end.

(** [values=None] stands for the keys themselves. *)
Definition benchmark_insert (hash_table : T) (keys : list Z)
    (values : option (list Any)) (c : clock) : result float * T * clock :=
  let values := default (PyInt <$> keys) values in
  let (start, c) := perf_counter c in
  match benchmark_insert_loop hash_table (zip keys values) with
  | (Ok _, hash_table') =>
      let (end_, c) := perf_counter c in
      (Ok (float_sub end_ start), hash_table', c)
  | (Raise e, hash_table') => (Raise e, hash_table', c)
  end.

(** [for key in keys: if hash_table.search(key) is not None: found += 1] *)
Fixpoint benchmark_search_loop (hash_table : T) (keys : list Z) (found : Z)
    : result Z * T :=
  match keys with
  | [] => (Ok found, hash_table)
  | key :: rest =>
      match ht_search hash_table key with
      | (Ok v, hash_table') =>
          benchmark_search_loop hash_table' rest
            (if is_not_None v then found + 1 else found)
      | (Raise e, hash_table') => (Raise e, hash_table')
      end
  end.

Definition benchmark_search (hash_table : T) (keys : list Z) (c : clock)
    : result (float * Z) * T * clock :=
  let (start, c) := perf_counter c in
  let found := 0 in
  match benchmark_search_loop hash_table keys found with
  | (Ok found, hash_table') =>
      let (end_, c) := perf_counter c in
      (Ok (float_sub end_ start, found), hash_table', c)
  | (Raise e, hash_table') => (Raise e, hash_table', c)
  end.

(** [for key in keys: if hash_table.delete(key): deleted += 1] *)
Fixpoint benchmark_delete_loop (hash_table : T) (keys : list Z) (deleted : Z)
    : result Z * T :=
  match keys with
  | [] => (Ok deleted, hash_table)
  | key :: rest =>
      match ht_delete hash_table key with
      | (Ok b, hash_table') =>
          benchmark_delete_loop hash_table' rest
            (if b then deleted + 1 else deleted)
      | (Raise e, hash_table') => (Raise e, hash_table')
      end
  end.

Definition benchmark_delete (hash_table : T) (keys : list Z) (c : clock)
    : result (float * Z) * T * clock :=
  let (start, c) := perf_counter c in
  let deleted := 0 in
  match benchmark_delete_loop hash_table keys deleted with
  | (Ok deleted, hash_table') =>
      let (end_, c) := perf_counter c in
      (Ok (float_sub end_ start, deleted), hash_table', c)
  | (Raise e, hash_table') => (Raise e, hash_table', c)
  end.

End benchmark.

(** * Properties *)

(** ** Subscripts *)

Section subscripts.
Context {A : Type}.
Implicit Types (l : list A) (i : Z) (j : nat) (x : A).

Lemma py_index_lt l i j : py_index l i = Some j → (j < length l)%nat.
Proof.
  unfold py_index. intros H.
  destruct ((0 <=? i) && (i <? Z.of_nat (length l))) eqn:E1.
  - apply andb_true_iff in E1 as [?%Z.leb_le ?%Z.ltb_lt].
    injection H as <-. lia.
  - destruct ((- Z.of_nat (length l) <=? i) && (i <? 0)) eqn:E2; [|done].
    apply andb_true_iff in E2 as [?%Z.leb_le ?%Z.ltb_lt].
    injection H as <-. lia.
Qed.

Lemma py_index_nonneg l i :
  0 ≤ i < Z.of_nat (length l) → py_index l i = Some (Z.to_nat i).
Proof.
  intros [H1 H2]. unfold py_index.
  apply Z.leb_le in H1. apply Z.ltb_lt in H2. by rewrite H1, H2.
Qed.

Lemma py_index_length l l' i : length l = length l' → py_index l' i = py_index l i.
Proof. unfold py_index. by intros ->. Qed.

Lemma py_getitem_Ok l i x :
  py_getitem l i = Ok x ↔ ∃ j, py_index l i = Some j ∧ l !! j = Some x.
Proof.
  unfold py_getitem. split.
  - destruct (py_index l i) as [j|] eqn:E; [|done].
    destruct (l !! j) eqn:E'; [|done]. intros [= <-]. eauto.
  - intros (j & -> & ->). done.
Qed.

Lemma py_getitem_index l i j :
  py_index l i = Some j → ∃ x, py_getitem l i = Ok x ∧ l !! j = Some x.
Proof.
  intros H. unfold py_getitem. rewrite H.
  destruct (lookup_lt_is_Some_2 l j (py_index_lt _ _ _ H)) as [x Hx].
  rewrite Hx. eauto.
Qed.


Lemma py_setitem_index l i j x :
  py_index l i = Some j → py_setitem l i x = Ok (<[j:=x]> l).
Proof. unfold py_setitem. by intros ->. Qed.

Lemma py_repeat_length x n : length (py_repeat x n) = Z.to_nat n.
Proof. apply length_replicate. Qed.
End subscripts.

Lemma py_repeat_nonpos {A} (x : A) (n : Z) : n ≤ 0 → py_repeat x n = [].
Proof. intros Hn. unfold py_repeat. by replace (Z.to_nat n) with 0%nat by lia. Qed.


(** ** Hash functions *)

(** C9. For every integer key [k], negative ones included, and every table
    size [m > 0], [division_hash(k, m)] returns normally with a result [r]
    in [[0, m)], and [r] is the floor-mod remainder: [k = q * m + r] for
    some integer [q]. *)
Theorem division_hash_range (k m : Z) :
  0 < m →
  ∃ r, division_hash k m = Ok r ∧ 0 ≤ r < m ∧ ∃ q, k = q * m + r.
Proof.
  intros Hm. exists (k mod m). unfold division_hash, py_mod.
  destruct (Z.eqb_spec m 0) as [->|_]; [lia|].
  split; [done|]. split; [by apply Z.mod_pos_bound|].
  exists (k / m). pose proof (Z.div_mod k m). lia.
Qed.

Lemma division_hash_range_witness :
  0 < 3 ∧ ∃ r, division_hash (-7) 3 = Ok r ∧ 0 ≤ r < 3 ∧ ∃ q, -7 = q * 3 + r.
Proof. split; [lia | apply (division_hash_range (-7) 3); lia]. Defined.

(** [division_hash(-7, 3)] is [2], where a truncating remainder is [-1]. *)
Example division_hash_negative : division_hash (-7) 3 = Ok 2.
Proof. reflexivity. Qed.

(** C10. [get_hash_function('universal')] is [division_hash] and not
    [universal_hash]: the registry has exactly the seven names 'division',
    'multiplication', 'string_simple', 'string_polynomial', 'string_djb2',
    'md5' and 'bad_clustering', each bound to its own function, and every
    other name gets the division hash. *)
Theorem get_hash_function_universal :
  get_hash_function "universal" = Fn_division_hash
  ∧ Fn_division_hash ≠ Fn_universal_hash
  ∧ dom hash_functions =
      ({[ "division"; "multiplication"; "string_simple"; "string_polynomial";
          "string_djb2"; "md5"; "bad_clustering" ]} : gset string)
  ∧ map get_hash_function
      [ "division"; "multiplication"; "string_simple"; "string_polynomial";
        "string_djb2"; "md5"; "bad_clustering" ]
    = [ Fn_division_hash; Fn_multiplication_hash; Fn_string_hash_simple;
        Fn_string_hash_polynomial; Fn_string_hash_djb2; Fn_md5_hash;
        Fn_bad_hash_clustering ]
  ∧ ∀ name, name ∉ dom hash_functions → get_hash_function name = Fn_division_hash.
Proof.
  split; [by vm_compute|]. split; [done|]. split.
  { unfold hash_functions. rewrite !dom_insert_L, dom_empty_L. set_solver. }
  split; [by vm_compute|].
  intros name Hname. unfold get_hash_function.
  apply not_elem_of_dom in Hname. by rewrite Hname.
Qed.

Lemma get_hash_function_universal_witness :
  ("universal" ∉ dom hash_functions)
  ∧ get_hash_function "universal" = Fn_division_hash.
Proof.
  assert (H : "universal" ∉ dom hash_functions).
  { apply not_elem_of_dom. by vm_compute. }
  split; [exact H|].
  exact (proj2 (proj2 (proj2 (proj2 get_hash_function_universal))) "universal" H).
Defined.

(** ** Direct-address table *)

Module DirectAddressTableSpec.
Import DirectAddressTable.

Lemma dat_init_wf m : wf m (init m).
Proof. split; [done|]. apply py_repeat_length. Qed.

Lemma dat_in_range_true (key m : Z) :
  0 ≤ key < m → (0 <=? key) && (key <? m) = true.
Proof.
  intros [??]. apply andb_true_iff.
  split; [by apply Z.leb_le|by apply Z.ltb_lt].
Qed.

Lemma dat_in_range_false (key m : Z) :
  ¬ (0 ≤ key < m) → (0 <=? key) && (key <? m) = false.
Proof.
  intros H. apply andb_false_iff.
  destruct (Z.leb_spec 0 key); [|by left].
  right. apply Z.ltb_ge. lia.
Qed.

Lemma dat_insert_in_range m self key value :
  wf m self → 0 ≤ key < m →
  insert self key value =
    (Ok tt, {| size := m; table := <[Z.to_nat key:=value]> (table self) |}).
Proof.
  intros [Hs Hl] Hk. unfold insert. rewrite Hs, dat_in_range_true by done. simpl.
  rewrite (py_setitem_index _ _ (Z.to_nat key)); [done|].
  apply py_index_nonneg. lia.
Qed.

Lemma dat_insert_out_of_range self key value :
  ¬ (0 ≤ key < size self) → insert self key value = (Raise ValueError, self).
Proof. intros Hk. unfold insert. by rewrite dat_in_range_false. Qed.

Lemma dat_delete_in_range m self key :
  wf m self → 0 ≤ key < m →
  delete self key =
    (Ok tt, {| size := m; table := <[Z.to_nat key:=PyNone]> (table self) |}).
Proof.
  intros [Hs Hl] Hk. unfold delete. rewrite Hs, dat_in_range_true by done.
  rewrite (py_setitem_index _ _ (Z.to_nat key)); [done|].
  apply py_index_nonneg. lia.
Qed.

Lemma dat_search_in_range m self key :
  wf m self → 0 ≤ key < m →
  ∃ v, search self key = Ok v ∧ table self !! Z.to_nat key = Some v.
Proof.
  intros [Hs Hl] Hk. unfold search. rewrite Hs, dat_in_range_true by done. simpl.
  apply py_getitem_index, py_index_nonneg. lia.
Qed.

Lemma dat_step_wf m self self' : wf m self → step self self' → wf m self'.
Proof.
  intros Hwf Hstep. pose proof Hwf as [Hs Hl].
  destruct Hstep as [self key value r self' H | self key r self' H].
  - destruct (decide (0 ≤ key < m)) as [Hk|Hk].
    + rewrite (dat_insert_in_range m) in H by done. injection H as _ <-.
      split; [done|]. simpl. by rewrite length_insert.
    + rewrite dat_insert_out_of_range in H by (by rewrite Hs).
      by injection H as _ <-.
  - destruct (decide (0 ≤ key < m)) as [Hk|Hk].
    + rewrite (dat_delete_in_range m) in H by done. injection H as _ <-.
      split; [done|]. simpl. by rewrite length_insert.
    + unfold delete in H. rewrite Hs, dat_in_range_false in H by done.
      by injection H as _ <-.
Qed.

Lemma dat_reachable_wf m self : reachable m self → wf m self.
Proof.
  unfold reachable. intros H.
  apply (rtc_ind_r (R:=step) (wf m) (init m)); [apply dat_init_wf | | exact H].
  intros y z _ Hstep Hy. by eapply dat_step_wf.
Qed.

(** A run of [insert] calls with distinct in-range keys writes each value
    at its key and leaves the other slots alone. *)
Lemma dat_insert_all_table m kvs : ∀ self,
  wf m self →
  Forall (λ kv, 0 ≤ kv.1 < m) kvs →
  NoDup kvs.*1 →
  ∃ self', insert_all self kvs = (Ok tt, self') ∧ wf m self'
    ∧ (∀ k v, (k, v) ∈ kvs → table self' !! Z.to_nat k = Some v)
    ∧ (∀ j, (∀ k, k ∈ kvs.*1 → Z.to_nat k ≠ j) →
            table self' !! j = table self !! j).
Proof.
  induction kvs as [|[k v] kvs IH]; intros self Hwf Hr Hnd.
  - exists self. split; [done|]. split; [done|]. split; [|done].
    intros k v Hin. by apply elem_of_nil in Hin.
  - apply Forall_cons in Hr as [Hk Hr]. simpl in Hk.
    rewrite fmap_cons in Hnd. apply NoDup_cons in Hnd as [Hnk Hnd].
    simpl in Hnk. simpl. rewrite (dat_insert_in_range m) by done.
    set (self1 := {| size := m; table := <[Z.to_nat k:=v]> (table self) |}).
    assert (Hwf1 : wf m self1).
    { destruct Hwf as [? Hl]. split; [done|]. simpl. by rewrite length_insert. }
    destruct (IH self1 Hwf1 Hr Hnd) as (self' & Hrun & Hwf' & Hin & Hout).
    exists self'. split; [done|]. split; [done|]. split.
    + intros k' v' [[= -> ->]|Hmem]%elem_of_cons; [|by apply Hin].
      rewrite Hout.
      * simpl. apply list_lookup_insert_eq. destruct Hwf as [_ ->]. lia.
      * intros k2 Hk2 Heq.
        apply list_elem_of_fmap in Hk2 as ([k3 v3] & -> & Hk3). simpl in Heq.
        rewrite Forall_forall in Hr. specialize (Hr _ Hk3). simpl in Hr.
        assert (k3 = k) as -> by lia.
        apply Hnk. apply list_elem_of_fmap. by exists (k, v3).
    + intros j Hj. rewrite Hout.
      * simpl. apply list_lookup_insert_ne. apply Hj. apply list_elem_of_here.
      * intros k2 Hk2. apply Hj. by apply list_elem_of_further.
Qed.

End DirectAddressTableSpec.

(** C8. For a direct-address table of size [m]: [insert] with a key outside
    [[0, m)] raises the out-of-range error ([ValueError]) and leaves the
    table unchanged; [insert] with a key in [[0, m)] stores the value at
    index [key], where [search] then finds it; [search] with a key outside
    [[0, m)] returns "not found" ([None]) without an error; [delete] with a
    key outside [[0, m)] returns normally and changes nothing. *)
Theorem direct_address_out_of_range (m : Z) (self : DirectAddressTable.t)
    (key : Z) (value : Any) :
  DirectAddressTable.reachable m self →
  (¬ (0 ≤ key < m) →
     DirectAddressTable.insert self key value = (Raise ValueError, self)
     ∧ DirectAddressTable.search self key = Ok PyNone
     ∧ DirectAddressTable.delete self key = (Ok tt, self))
  ∧ (0 ≤ key < m →
     ∃ self', DirectAddressTable.insert self key value = (Ok tt, self')
       ∧ DirectAddressTable.size self' = m
       ∧ DirectAddressTable.table self'
           = (<[Z.to_nat key:=value]> (DirectAddressTable.table self))
       ∧ DirectAddressTable.table self' !! Z.to_nat key = Some value
       ∧ DirectAddressTable.search self' key = Ok value).
Proof.
  intros Hreach. apply DirectAddressTableSpec.dat_reachable_wf in Hreach as Hwf.
  pose proof Hwf as [Hs Hl]. split.
  - intros Hk. split; [|split].
    + apply DirectAddressTableSpec.dat_insert_out_of_range. by rewrite Hs.
    + unfold DirectAddressTable.search.
      by rewrite Hs, DirectAddressTableSpec.dat_in_range_false.
    + unfold DirectAddressTable.delete.
      by rewrite Hs, DirectAddressTableSpec.dat_in_range_false.
  - intros Hk. eexists. split.
    { by apply (DirectAddressTableSpec.dat_insert_in_range m). }
    simpl. split; [done|]. split; [done|].
    assert (<[Z.to_nat key:=value]> (DirectAddressTable.table self)
              !! Z.to_nat key = Some value) as Hlk.
    { apply list_lookup_insert_eq. lia. }
    split; [done|].
    unfold DirectAddressTable.search. simpl.
    rewrite DirectAddressTableSpec.dat_in_range_true by done. simpl.
    unfold py_getitem. rewrite py_index_nonneg by (rewrite length_insert; lia).
    by rewrite Hlk.
Qed.

Lemma direct_address_out_of_range_witness :
  DirectAddressTable.reachable 100 (DirectAddressTable.init 100)
  ∧ DirectAddressTable.insert (DirectAddressTable.init 100) 100 (PyStr "x")
    = (Raise ValueError, DirectAddressTable.init 100).
Proof.
  assert (H : DirectAddressTable.reachable 100 (DirectAddressTable.init 100))
    by apply rtc_refl.
  split; [exact H|].
  refine (proj1 (proj1 (direct_address_out_of_range 100 _ 100 (PyStr "x") H) _)).
  lia.
Defined.

(** ** Rounding to a float *)

Lemma two_pow_pos (e : Z) : (0 < 2 ^ e)%Q.
Proof. by apply Qpower_0_lt. Qed.

Lemma two_pow_succ (e : Z) : (2 ^ (e + 1) == 2 * 2 ^ e)%Q.
Proof. rewrite Qpower_plus by done. change (2 ^ 1)%Q with 2%Q. ring. Qed.

Lemma two_pow_pred (e : Z) : (2 * 2 ^ (e - 1) == 2 ^ e)%Q.
Proof. rewrite <- two_pow_succ. by replace (e - 1 + 1) with e by lia. Qed.

Lemma two_pow_log2 (a : Z) :
  0 < a → (2 ^ Z.log2 a <= inject_Z a)%Q ∧ (inject_Z a < 2 ^ (Z.log2 a + 1))%Q.
Proof.
  intros Ha. destruct (Z.log2_spec a Ha) as [H1 H2].
  pose proof (Z.log2_nonneg a) as H0.
  split.
  - rewrite <- (Zpower_Qpower 2) by done. by rewrite <- Zle_Qle.
  - rewrite <- (Zpower_Qpower 2) by lia. rewrite <- Zlt_Qlt.
    by rewrite <- Z.add_1_r in H2.
Qed.

(** [exponent x] is the exponent of [x]. *)
Lemma exponent_spec (x : Q) :
  (0 < x)%Q → (2 ^ exponent x <= x)%Q ∧ (x < 2 ^ (exponent x + 1))%Q.
Proof.
  intros Hx. unfold exponent.
  set (d := Z.log2 (Qnum x) - Z.log2 (Z.pos (Qden x))).
  assert (Hlo : (2 ^ (d - 1) < x)%Q ∧ (x < 2 ^ (d + 1))%Q).
  { destruct x as [a b]. simpl in d.
    assert (Ha : 0 < a) by (unfold Qlt in Hx; simpl in Hx; lia).
    destruct (two_pow_log2 a Ha) as [Ha1 Ha2].
    destruct (two_pow_log2 (Z.pos b) eq_refl) as [Hb1 Hb2].
    assert (Hx' : (a # b == inject_Z a / inject_Z (Z.pos b))%Q).
    { rewrite (Qmake_Qdiv a b). reflexivity. }
    assert (Hbpos : (0 < inject_Z (Z.pos b))%Q) by (by rewrite <- (Zlt_Qlt 0)).
    pose proof (two_pow_pos (Z.log2 a)) as Hpa.
    pose proof (two_pow_pos (Z.log2 (Z.pos b))) as Hpb.
    assert (Hd : (2 ^ d == 2 ^ Z.log2 a / 2 ^ Z.log2 (Z.pos b))%Q)
      by (unfold d; by rewrite Qpower_minus).
    rewrite two_pow_succ in Ha2, Hb2.
    rewrite two_pow_succ, <- (two_pow_pred d) in *.
    rewrite Hx'. revert Hd Ha1 Ha2 Hb1 Hb2 Hbpos Hpa Hpb.
    generalize (2 ^ d)%Q (2 ^ (d - 1))%Q (2 ^ Z.log2 a)%Q (2 ^ Z.log2 (Z.pos b))%Q
      (inject_Z a) (inject_Z (Z.pos b)).
    intros pd pd1 pa pb qa qb Hd Ha1 Ha2 Hb1 Hb2 Hbpos Hpa Hpb.
    assert (Hq : (qa / qb * qb == qa)%Q) by (field; lra).
    assert (Hp : (pa == 2 * pd1 * pb)%Q).
    { assert (pa / pb * pb == pa)%Q as <- by (field; lra). rewrite <- Hd. ring. }
    revert Hq. generalize (qa / qb)%Q. intros r Hq.
    assert (0 < pd1)%Q by nra.
    split; nra. }
  destruct (Qle_bool (2 ^ d) x) eqn:E.
  - apply Qle_bool_iff in E. tauto.
  - replace (d - 1 + 1) with d by lia. split; [apply Qlt_le_weak; tauto|].
    apply Qnot_le_lt. intros H. apply Qle_bool_iff in H. congruence.
Qed.

(** [round_half_even x] is within a half of [x], and even when [x] is
    half way between two integers. *)
Lemma round_half_even_spec (x : Q) :
  let m := round_half_even x in
  (inject_Z m - (1 # 2) <= x)%Q ∧ (x <= inject_Z m + (1 # 2))%Q
  ∧ ((x == inject_Z m + (1 # 2))%Q → Z.even m = true)
  ∧ ((x == inject_Z m - (1 # 2))%Q → Z.even m = true).
Proof.
  unfold round_half_even. pose proof (Qfloor_le x) as Hlo.
  pose proof (Qlt_floor x) as Hhi. rewrite inject_Z_plus in Hhi.
  change (inject_Z 1) with 1%Q in Hhi.
  generalize dependent (Qfloor x). intros n Hlo Hhi.
  destruct (x - inject_Z n ?= 1 # 2)%Q eqn:E.
  - apply Qeq_alt in E. destruct (Z.even n) eqn:Hev; simpl.
    + split; [lra|]. split; [lra|]. done.
    + rewrite inject_Z_plus. change (inject_Z 1) with 1%Q.
      assert (Z.even (n + 1) = true) by (by rewrite Z.even_add, Hev).
      split; [lra|]. split; [lra|]. done.
  - apply Qlt_alt in E. simpl. split; [lra|]. split; [lra|].
    split; intros H; exfalso; lra.
  - apply Qgt_alt in E. simpl. rewrite inject_Z_plus. change (inject_Z 1) with 1%Q.
    split; [lra|]. split; [lra|]. split; intros H; exfalso; lra.
Qed.

Lemma inject_Z_lt_succ (m n : Z) : m < n → (inject_Z m + 1 <= inject_Z n)%Q.
Proof.
  intros H. change 1%Q with (inject_Z 1). rewrite <- inject_Z_plus, <- Zle_Qle. lia.
Qed.

Lemma round_half_even_mono (x y : Q) :
  (x <= y)%Q → round_half_even x ≤ round_half_even y.
Proof.
  intros Hxy. destruct (round_half_even_spec x) as (Hx1 & Hx2 & Hx3 & Hx4).
  destruct (round_half_even_spec y) as (Hy1 & Hy2 & Hy3 & Hy4).
  simpl in *. destruct (Z.le_gt_cases (round_half_even x) (round_half_even y)) as [|Hgt];
    [done|exfalso].
  pose proof (inject_Z_lt_succ _ _ Hgt) as Hq.
  assert (Hm : round_half_even x = round_half_even y + 1).
  { destruct (Z.eq_dec (round_half_even x) (round_half_even y + 1)); [done|].
    assert (round_half_even y + 1 < round_half_even x) as Hgt2 by lia.
    apply inject_Z_lt_succ in Hgt2. rewrite inject_Z_plus in Hgt2.
    change (inject_Z 1) with 1%Q in Hgt2. lra. }
  rewrite Hm, inject_Z_plus in *. change (inject_Z 1) with 1%Q in *.
  assert (Z.even (round_half_even y + 1) = true) as H1 by (apply Hx4; lra).
  assert (Z.even (round_half_even y) = true) as H2 by (apply Hy3; lra).
  rewrite Z.even_add, H2 in H1. done.
Qed.

Lemma round_half_even_Z (n : Z) : round_half_even (inject_Z n) = n.
Proof.
  destruct (round_half_even_spec (inject_Z n)) as (H1 & H2 & _). simpl in *.
  destruct (Z.lt_trichotomy (round_half_even (inject_Z n)) n) as [H|[H|H]]; [|done|].
  - apply inject_Z_lt_succ in H. exfalso. lra.
  - apply inject_Z_lt_succ in H. exfalso. lra.
Qed.

Lemma two_pow_split (e : Z) : (inject_Z (2 ^ 52) * 2 ^ (e - 52) == 2 ^ e)%Q.
Proof.
  replace e with (52 + (e - 52)) at 2 by lia. rewrite Qpower_plus by done.
  reflexivity.
Qed.

(** Rounding stays between the powers of two around [x]. *)
Lemma round_positive_bounds (x : Q) :
  (0 < x)%Q →
  (2 ^ exponent x <= round_positive x)%Q
  ∧ (round_positive x <= 2 ^ (exponent x + 1))%Q.
Proof.
  intros Hx. destruct (exponent_spec x Hx) as [Hlo Hhi]. unfold round_positive.
  pose proof (two_pow_pos (exponent x - 52)) as Hu.
  pose proof (two_pow_split (exponent x)) as Hs.
  rewrite two_pow_succ in *.
  set (u := (2 ^ (exponent x - 52))%Q) in *.
  assert (Hq : (x / u * u == x)%Q) by (field; lra).
  assert (H1 : (inject_Z (2 ^ 52) <= x / u)%Q).
  { apply Qmult_le_r with u; [done|]. rewrite Hq, Hs. done. }
  assert (H2 : (x / u <= inject_Z (2 ^ 53))%Q).
  { apply Qmult_le_r with u; [done|]. rewrite Hq.
    change (2 ^ 53) with (2 * 2 ^ 52). rewrite inject_Z_mult.
    change (inject_Z 2) with 2%Q. lra. }
  apply round_half_even_mono in H1, H2. rewrite round_half_even_Z in H1, H2.
  rewrite Zle_Qle in H1, H2.
  change (2 ^ 53) with (2 * 2 ^ 52) in H2. rewrite inject_Z_mult in H2.
  change (inject_Z 2) with 2%Q in H2.
  revert H1 H2 Hs. generalize (inject_Z (round_half_even (x / u))) (inject_Z (2 ^ 52)).
  intros m c H1 H2 Hs. split; nra.
Qed.

(** [round_positive x] is within half a unit in the last place of [x]. *)
Lemma round_positive_near (x : Q) :
  (0 < x)%Q →
  (round_positive x - x <= 2 ^ (exponent x - 53))%Q
  ∧ (x - round_positive x <= 2 ^ (exponent x - 53))%Q.
Proof.
  intros Hx. unfold round_positive.
  pose proof (two_pow_pos (exponent x - 52)) as Hu.
  pose proof (two_pow_pred (exponent x - 52)) as Hh.
  replace (exponent x - 52 - 1) with (exponent x - 53) in Hh by lia.
  destruct (round_half_even_spec (x / 2 ^ (exponent x - 52))) as (H1 & H2 & _).
  simpl in H1, H2.
  set (u := (2 ^ (exponent x - 52))%Q) in *.
  assert (Hq : (x / u * u == x)%Q) by (field; lra).
  revert H1 H2 Hq. generalize (inject_Z (round_half_even (x / u))) (x / u)%Q.
  intros m q H1 H2 Hq. split; nra.
Qed.

Lemma exponent_mono (x y : Q) : (0 < x)%Q → (x <= y)%Q → exponent x ≤ exponent y.
Proof.
  intros Hx Hxy. destruct (exponent_spec x Hx) as [Hx1 Hx2].
  destruct (exponent_spec y) as [Hy1 Hy2]; [lra|].
  destruct (Z.le_gt_cases (exponent x) (exponent y)) as [|Hgt]; [done|exfalso].
  assert (2 ^ (exponent y + 1) <= 2 ^ exponent x)%Q
    by (apply Qpower_le_compat_l; [lia|done]).
  lra.
Qed.

Lemma round_positive_mono (x y : Q) :
  (0 < x)%Q → (x <= y)%Q → (round_positive x <= round_positive y)%Q.
Proof.
  intros Hx Hxy. pose proof (exponent_mono x y Hx Hxy) as He.
  destruct (Z.eq_dec (exponent x) (exponent y)) as [Heq|Hne].
  - unfold round_positive. rewrite Heq.
    pose proof (two_pow_pos (exponent y - 52)) as Hu.
    set (u := (2 ^ (exponent y - 52))%Q) in *.
    apply Qmult_le_compat_r; [|lra]. rewrite <- Zle_Qle.
    apply round_half_even_mono. apply Qmult_le_r with u; [done|].
    assert (x / u * u == x)%Q as -> by (field; lra).
    assert (y / u * u == y)%Q as -> by (field; lra). done.
  - destruct (round_positive_bounds x Hx) as [_ H1].
    destruct (round_positive_bounds y) as [H2 _]; [lra|].
    assert (2 ^ (exponent x + 1) <= 2 ^ exponent y)%Q
      by (apply Qpower_le_compat_l; [lia|done]).
    lra.
Qed.

Lemma round_positive_pos (x : Q) : (0 < x)%Q → (0 < round_positive x)%Q.
Proof.
  intros Hx. destruct (round_positive_bounds x Hx) as [H _].
  pose proof (two_pow_pos (exponent x)). lra.
Qed.

Lemma py_float_pos (x : Q) : (0 < x)%Q → (0 < py_float x)%Q.
Proof.
  intros Hx. unfold py_float.
  assert ((x ?= 0)%Q = Gt) as -> by (by apply Qgt_alt).
  by apply round_positive_pos.
Qed.

Lemma py_float_zero (x : Q) : (x == 0)%Q → py_float x = 0%Q.
Proof.
  intros Hx. unfold py_float. by assert ((x ?= 0)%Q = Eq) as -> by (by apply Qeq_alt).
Qed.

Lemma py_float_neg (x : Q) : (x < 0)%Q → (py_float x < 0)%Q.
Proof.
  intros Hx. unfold py_float.
  assert ((x ?= 0)%Q = Lt) as -> by (by apply Qlt_alt).
  assert (0 < round_positive (- x))%Q by (apply round_positive_pos; lra). lra.
Qed.

(** Rounding keeps the order. *)
Lemma py_float_mono (x y : Q) : (x <= y)%Q → (py_float x <= py_float y)%Q.
Proof.
  intros Hxy. destruct (Q_dec x 0) as [[Hx|Hx]|Hx], (Q_dec y 0) as [[Hy|Hy]|Hy];
    try (exfalso; lra).
  - unfold py_float.
    assert ((x ?= 0)%Q = Lt) as -> by (by apply Qlt_alt).
    assert ((y ?= 0)%Q = Lt) as -> by (by apply Qlt_alt).
    assert (round_positive (- y) <= round_positive (- x))%Q
      by (apply round_positive_mono; lra).
    lra.
  - pose proof (py_float_neg x Hx). pose proof (py_float_pos y Hy). lra.
  - pose proof (py_float_neg x Hx). rewrite (py_float_zero y Hy). lra.
  - unfold py_float.
    assert ((x ?= 0)%Q = Gt) as -> by (by apply Qgt_alt).
    assert ((y ?= 0)%Q = Gt) as -> by (by apply Qgt_alt).
    by apply round_positive_mono.
  - pose proof (py_float_pos y Hy). rewrite (py_float_zero x Hx). lra.
  - rewrite (py_float_zero x Hx), (py_float_zero y Hy). lra.
Qed.

Lemma py_float_comp (x y : Q) : (x == y)%Q → (py_float x == py_float y)%Q.
Proof.
  intros Hxy. apply Qle_antisym; apply py_float_mono; lra.
Qed.






(** The floats that Python writes [0.1], [0.9] and [0.75], the quotient
    [1 / 3], and two integers half way between two floats. *)
Example py_float_values :
  (py_float (1 # 10) == 3602879701896397 # 36028797018963968)%Q
  ∧ (py_float (9 # 10) == 8106479329266893 # 9007199254740992)%Q
  ∧ (py_float (3 # 4) == 3 # 4)%Q
  ∧ py_truediv 1 3 = Ok (6004799503160661 # 18014398509481984)%Q
  ∧ (py_float (inject_Z (2 ^ 53 + 1)) == inject_Z (2 ^ 53))%Q
  ∧ (py_float (inject_Z (2 ^ 53 + 3)) == inject_Z (2 ^ 53 + 4))%Q
  ∧ (py_float (- (1 # 10)) == - py_float (1 # 10))%Q.
Proof. repeat split; vm_compute; reflexivity. Qed.

(** ** Load factor arithmetic *)

Lemma quotient_le (c1 s1 c2 s2 : Z) :
  0 < s1 → 0 < s2 → c1 * s2 ≤ c2 * s1 →
  (inject_Z c1 / inject_Z s1 <= inject_Z c2 / inject_Z s2)%Q.
Proof.
  intros H1 H2 H. destruct s1 as [|p1|p1]; [lia| |lia].
  destruct s2 as [|p2|p2]; [lia| |lia].
  unfold Qle, Qdiv, Qmult, Qinv, inject_Z. simpl. lia.
Qed.


(** The test [self._load_factor() >= self.load_factor_threshold]. *)
Lemma load_test (thr : Q) (c s : Z) :
  s ≠ 0 →
  ∃ lf, py_truediv c s = Ok lf
    ∧ (Qle_bool (py_float thr) lf = false ↔ below thr c s).
Proof.
  intros Hs. unfold py_truediv. destruct (Z.eqb_spec s 0); [done|].
  eexists. split; [done|]. unfold below. split.
  - intros E. apply Qnot_le_lt. intros H. apply Qle_bool_iff in H. congruence.
  - intros H. apply not_true_is_false. intros E. apply Qle_bool_iff in E. lra.
Qed.


(** A quotient that has reached the threshold as a rational has reached
    it as a float. *)
Lemma reached_exact (thr : Q) (c s : Z) :
  (thr <= inject_Z c / inject_Z s)%Q → ¬ below thr c s.
Proof. unfold below. intros H%py_float_mono Hb. lra. Qed.

(** ** Separate chaining *)

Module HashTableSeparateChainingSpec.
Import HashTableSeparateChaining.
Implicit Types (self : t) (key : Z) (value : Any) (chain : list Node).

(** *** Buckets as one list of nodes *)

Lemma sc_concat_lookup_split {A} (ls : list (list A)) b (xs : list A) :
  ls !! b = Some xs →
  concat ls = concat (take b ls) ++ xs ++ concat (drop (S b) ls).
Proof.
  intros H. rewrite <- (take_drop_middle ls b xs H) at 1.
  by rewrite concat_app.
Qed.

Lemma sc_concat_insert_split {A} (ls : list (list A)) b (xs : list A) :
  (b < length ls)%nat →
  concat (<[b:=xs]> ls) = concat (take b ls) ++ xs ++ concat (drop (S b) ls).
Proof. intros H. rewrite insert_take_drop by done. by rewrite concat_app. Qed.

Lemma sc_elem_of_concat_lookup {A} (ls : list (list A)) (x : A) :
  x ∈ concat ls ↔ ∃ b (xs : list A), ls !! b = Some xs ∧ x ∈ xs.
Proof.
  induction ls as [|ys ls IH]; simpl.
  - split; [by intros ?%elem_of_nil|]. by intros (b & xs & Hb & _).
  - rewrite elem_of_app, IH. split.
    + intros [Hx|(b & xs & Hb & Hx)]; [by exists 0%nat, ys|].
      by exists (S b), xs.
    + intros ([|b] & xs & Hb & Hx); simpl in Hb.
      * injection Hb as ->. by left.
      * right. eauto.
Qed.

(** Putting a node in front of one xs puts it in front of the table. *)
Lemma sc_concat_insert_cons {A} (ls : list (list A)) b (xs : list A) (x : A) :
  ls !! b = Some xs →
  concat (<[b:=x :: xs]> ls) ≡ₚ x :: concat ls.
Proof.
  intros H. rewrite (sc_concat_lookup_split ls b xs H).
  rewrite sc_concat_insert_split by (by eapply lookup_lt_Some).
  simpl. by rewrite <- Permutation_middle.
Qed.

(** Taking a node out of one xs takes it out of the table. *)
Lemma sc_concat_insert_remove {A} (ls : list (list A)) b (xs xs' : list A) (x : A) :
  ls !! b = Some xs → xs ≡ₚ x :: xs' →
  concat ls ≡ₚ x :: concat (<[b:=xs']> ls).
Proof.
  intros H Hp. rewrite (sc_concat_lookup_split ls b xs H).
  rewrite sc_concat_insert_split by (by eapply lookup_lt_Some).
  rewrite Hp. simpl. by rewrite <- Permutation_middle.
Qed.

(** Replacing a chain by one with the same keys keeps the keys. *)
Lemma sc_concat_insert_keys (ls : list (list Node)) b chain chain' :
  ls !! b = Some chain → chain'.*1 = chain.*1 →
  (concat (<[b:=chain']> ls)).*1 = (concat ls).*1.
Proof.
  intros H Hk. rewrite (sc_concat_lookup_split ls b chain H).
  rewrite sc_concat_insert_split by (by eapply lookup_lt_Some).
  by rewrite !fmap_app, Hk.
Qed.

Lemma sc_elem_of_keys (l : list Node) k : k ∈ l.*1 ↔ ∃ v, (k, v) ∈ l.
Proof.
  rewrite list_elem_of_fmap. split.
  - intros ([k' v] & -> & H). by exists v.
  - intros [v H]. by exists (k, v).
Qed.

Lemma sc_NoDup_keys_functional (l : list Node) k v v' :
  NoDup l.*1 → (k, v) ∈ l → (k, v') ∈ l → v = v'.
Proof.
  induction l as [|[k0 v0] l IH]; intros Hnd H1 H2.
  - by apply elem_of_nil in H1.
  - rewrite fmap_cons in Hnd. apply NoDup_cons in Hnd as [Hk Hnd]. simpl in Hk.
    apply elem_of_cons in H1 as [?|H1];
      apply elem_of_cons in H2 as [?|H2]; simplify_eq.
    + done.
    + exfalso. apply Hk, sc_elem_of_keys. eauto.
    + exfalso. apply Hk, sc_elem_of_keys. eauto.
    + by apply IH.
Qed.

(** *** The loops over one chain *)

Lemma sc_insert_scan_None chain key value c :
  insert_scan chain key value = (c, None) → key ∉ chain.*1.
Proof.
  revert c. induction chain as [|[k v] next IH]; intros c H; simpl in *.
  - apply not_elem_of_nil.
  - destruct (Z.eqb_spec k key) as [->|Hne]; [done|].
    destruct (insert_scan next key value) as [c' [r|]] eqn:E; [done|].
    apply not_elem_of_cons. split; [done|]. by eapply IH.
Qed.

Lemma sc_insert_scan_Some chain key value c chain' :
  insert_scan chain key value = (c, Some chain') →
  chain'.*1 = chain.*1 ∧ key ∈ chain.*1 ∧ (key, value) ∈ chain'
  ∧ ∀ n, n.1 ≠ key → (n ∈ chain' ↔ n ∈ chain).
Proof.
  revert c chain'. induction chain as [|[k v] next IH]; intros c chain' H; simpl in *.
  - done.
  - destruct (Z.eqb_spec k key) as [->|Hne].
    + injection H as _ <-. split; [done|]. split; [apply list_elem_of_here|].
      split; [apply list_elem_of_here|]. intros n Hn.
      rewrite !elem_of_cons. split; (intros [->|?]; [done|by right]).
    + destruct (insert_scan next key value) as [c' [r|]] eqn:E; [|done].
      injection H as _ <-. destruct (IH _ _ eq_refl) as (Hk & Hin & Hv & Ho).
      split; [by rewrite !fmap_cons, Hk|].
      split; [by apply list_elem_of_further|].
      split; [by apply list_elem_of_further|].
      intros n Hn. rewrite !elem_of_cons. by rewrite (Ho n Hn).
Qed.

Lemma sc_search_scan_found chain key v :
  NoDup chain.*1 → (key, v) ∈ chain → (search_scan chain key).2 = v.
Proof.
  induction chain as [|[k w] next IH]; intros Hnd Hin; simpl.
  - by apply elem_of_nil in Hin.
  - rewrite fmap_cons in Hnd. apply NoDup_cons in Hnd as [Hk Hnd]. simpl in Hk.
    destruct (Z.eqb_spec k key) as [->|Hne].
    + apply elem_of_cons in Hin as [[= ->]|Hin]; [done|].
      exfalso. apply Hk. apply sc_elem_of_keys. eauto.
    + apply elem_of_cons in Hin as [[= -> ->]|Hin]; [done|].
      destruct (search_scan next key) as [c r] eqn:E. simpl. by apply IH.
Qed.

Lemma sc_search_scan_not_found chain key :
  key ∉ chain.*1 → (search_scan chain key).2 = PyNone.
Proof.
  induction chain as [|[k w] next IH]; intros Hk; simpl; [done|].
  rewrite fmap_cons in Hk. apply not_elem_of_cons in Hk as [Hne Hk]. simpl in Hne.
  destruct (Z.eqb_spec k key) as [->|_]; [done|].
  destruct (search_scan next key) as [c r] eqn:E. simpl. by apply IH.
Qed.

Lemma sc_search_scan_elem chain key :
  (key, (search_scan chain key).2) ∈ chain
  ∨ ((search_scan chain key).2 = PyNone ∧ key ∉ chain.*1).
Proof.
  induction chain as [|[k w] next IH]; simpl.
  - right. split; [done|apply not_elem_of_nil].
  - destruct (Z.eqb_spec k key) as [->|Hne].
    + left. apply list_elem_of_here.
    + destruct (search_scan next key) as [c r] eqn:E. simpl in *.
      destruct IH as [IH|[IH1 IH2]].
      * left. by apply list_elem_of_further.
      * right. split; [done|]. apply not_elem_of_cons. split; [congruence|done].
Qed.

Lemma sc_delete_walk_Some chain key chain' :
  delete_walk chain key = Some chain' → ∃ v, chain ≡ₚ (key, v) :: chain'.
Proof.
  revert chain'. induction chain as [|[k w] next IH]; intros chain' H; simpl in *.
  - done.
  - destruct (Z.eqb_spec k key) as [->|Hne].
    + injection H as <-. by exists w.
    + destruct (delete_walk next key) as [next'|] eqn:E; [|done].
      injection H as <-. destruct (IH _ eq_refl) as [v Hv].
      exists v. rewrite Hv. apply perm_swap.
Qed.

Lemma sc_delete_walk_None chain key :
  delete_walk chain key = None → key ∉ chain.*1.
Proof.
  induction chain as [|[k w] next IH]; intros H; simpl in *.
  - apply not_elem_of_nil.
  - destruct (Z.eqb_spec k key) as [->|Hne]; [done|].
    destruct (delete_walk next key) as [next'|] eqn:E; [done|].
    apply not_elem_of_cons. split; [done|]. by apply IH.
Qed.

Lemma sc_chain_length_length chain : chain_length chain = Z.of_nat (length chain).
Proof. induction chain as [|n next IH]; simpl; [done|]. rewrite IH. lia. Qed.

Lemma sc_py_sum_chain_lengths (ls : list (list Node)) :
  py_sum (chain_length <$> ls) = Z.of_nat (length (concat ls)).
Proof.
  unfold py_sum. induction ls as [|chain ls IH]; csimpl; [done|].
  rewrite IH, length_app, sc_chain_length_length. lia.
Qed.

(** *** The invariant of the table *)

Lemma sc_home_eq self self' key :
  hash_func self' = hash_func self → size self' = size self →
  length (buckets self') = length (buckets self) →
  home self' key = home self key.
Proof.
  intros Hh Hs Hl. unfold home. rewrite Hh, Hs.
  destruct (hash_func self key (size self)); [|done]. by apply py_index_length.
Qed.

Lemma sc_wf_set_comparison_count self c :
  wf self → wf (set_comparison_count self c).
Proof. intros [H1 H2 H3 H4]. by split. Qed.

Lemma sc_concat_replicate_nil {A} (m : nat) : concat (replicate m ([] : list A)) = [].
Proof. induction m as [|m IH]; [done|]. simpl. by rewrite IH. Qed.

Lemma sc_nodes_init n hf thr : nodes (init n hf thr) = [].
Proof. apply sc_concat_replicate_nil. Qed.

Lemma sc_init_wf n hf thr : wf (init n hf thr).
Proof.
  split.
  - apply py_repeat_length.
  - by rewrite sc_nodes_init.
  - rewrite sc_nodes_init. constructor.
  - intros b chain n' Hb Hn'. simpl in Hb. unfold py_repeat in Hb.
    apply lookup_replicate_1 in Hb as [-> _]. by apply elem_of_nil in Hn'.
Qed.

Lemma sc_wf_chain_nodup self b chain :
  wf self → buckets self !! b = Some chain → NoDup chain.*1.
Proof.
  intros Hwf Hb. pose proof (wf_nodup _ Hwf) as Hnd. unfold nodes in Hnd.
  rewrite (sc_concat_lookup_split _ _ _ Hb), !fmap_app in Hnd.
  apply NoDup_app in Hnd as (_ & _ & Hnd). by apply NoDup_app in Hnd as (Hnd & _).
Qed.

(** A key that is not in its home bucket is not in the table. *)
Lemma sc_key_not_in_nodes self key b chain :
  wf self → home self key = Some b → buckets self !! b = Some chain →
  key ∉ chain.*1 → key ∉ (nodes self).*1.
Proof.
  intros Hwf Hhome Hb Hk [v Hv]%sc_elem_of_keys.
  apply sc_elem_of_concat_lookup in Hv as (b' & chain' & Hb' & Hv).
  pose proof (wf_home _ Hwf _ _ _ Hb' Hv) as Hh. simpl in Hh.
  rewrite Hhome in Hh. injection Hh as <-. rewrite Hb in Hb'. injection Hb' as <-.
  apply Hk, sc_elem_of_keys. eauto.
Qed.

Lemma sc_key_in_home self key v :
  wf self → (key, v) ∈ nodes self →
  ∃ index b chain, hash_func self key (size self) = Ok index
    ∧ py_index (buckets self) index = Some b
    ∧ buckets self !! b = Some chain ∧ (key, v) ∈ chain.
Proof.
  intros Hwf (b & chain & Hb & Hv)%sc_elem_of_concat_lookup.
  pose proof (wf_home _ Hwf _ _ _ Hb Hv) as Hh. unfold home in Hh. simpl in Hh.
  destruct (hash_func self key (size self)) as [index|] eqn:E; [|done].
  by exists index, b, chain.
Qed.

(** *** [insert] after the load-factor check *)

Lemma sc_insert_body_spec self key value r self' :
  wf self → insert_body self key value = (r, self') →
  insert_post self key value r self' ∧ size self' = size self
  ∧ count self ≤ count self' ≤ count self + 1.
Proof.
  intros Hwf. unfold insert_body.
  destruct (hash_func self key (size self)) as [index|e] eqn:Hhash.
  2:{ intros [= <- <-]. repeat split; try apply Hwf; try done; lia. }
  destruct (py_getitem (buckets self) index) as [head|e] eqn:Hget.
  2:{ intros [= <- <-]. repeat split; try apply Hwf; try done; lia. }
  apply py_getitem_Ok in Hget as (b & Hidx & Hb).
  assert (Hhome : home self key = Some b) by (unfold home; by rewrite Hhash).
  destruct (insert_scan head key value) as [c [chain|]] eqn:Hscan; simpl;
    rewrite (py_setitem_index _ _ _ _ Hidx); intros [= <- <-].
  - (* the key is on a node of the chain: its value is replaced *)
    apply sc_insert_scan_Some in Hscan as (Hkeys & Hin & Hv & Hothers).
    assert (Hnodes : (concat (<[b:=chain]> (buckets self))).*1 = (nodes self).*1)
      by (by apply (sc_concat_insert_keys _ _ head)).
    split; [split; [split|split; [|split]]|]; simpl.
    + rewrite length_insert. apply Hwf.
    + unfold nodes. simpl. rewrite (wf_count _ Hwf). f_equal.
      rewrite <- (length_fmap fst (concat _)), Hnodes. by rewrite length_fmap.
    + unfold nodes. simpl. rewrite Hnodes. apply Hwf.
    + intros b' chain' n Hb' Hn.
      rewrite (sc_home_eq self); [|done|done|simpl; by rewrite length_insert].
      destruct (decide (b' = b)) as [->|Hne].
      * rewrite list_lookup_insert_eq in Hb' by (by eapply lookup_lt_Some).
        injection Hb' as <-.
        assert (n.1 ∈ head.*1) as [w Hw]%sc_elem_of_keys.
        { rewrite <- Hkeys. by apply list_elem_of_fmap_2. }
        apply (wf_home _ Hwf _ _ _ Hb Hw).
      * rewrite list_lookup_insert_ne in Hb' by done.
        apply (wf_home _ Hwf _ _ _ Hb' Hn).
    + done.
    + done.
    + intros _. unfold nodes. simpl. split.
      * apply sc_elem_of_concat_lookup. exists b, chain. split; [|done].
        apply list_lookup_insert_eq. by eapply lookup_lt_Some.
      * intros n Hn. rewrite !sc_elem_of_concat_lookup. split.
        -- intros (b' & chain' & Hb' & Hn').
           destruct (decide (b' = b)) as [->|Hne].
           ++ rewrite list_lookup_insert_eq in Hb' by (by eapply lookup_lt_Some).
              injection Hb' as <-. exists b, head. split; [done|]. by apply Hothers.
           ++ rewrite list_lookup_insert_ne in Hb' by done. eauto.
        -- intros (b' & chain' & Hb' & Hn').
           destruct (decide (b' = b)) as [->|Hne].
           ++ rewrite Hb in Hb'. injection Hb' as <-. exists b, chain.
              split; [|by apply Hothers].
              apply list_lookup_insert_eq. by eapply lookup_lt_Some.
           ++ exists b', chain'. split; [|done]. by rewrite list_lookup_insert_ne.
    + split; [done|]. lia.
  - (* the key is new: a node goes in front of the chain *)
    apply sc_insert_scan_None in Hscan.
    pose proof (sc_concat_insert_cons _ _ _ (key, value) Hb) as Hperm.
    pose proof (sc_key_not_in_nodes _ _ _ _ Hwf Hhome Hb Hscan) as Hfresh.
    split; [split; [split|split; [|split]]|]; simpl.
    + rewrite length_insert. apply Hwf.
    + unfold nodes. simpl. rewrite Hperm. simpl. rewrite (wf_count _ Hwf).
      unfold nodes. lia.
    + unfold nodes. simpl. rewrite Hperm. rewrite fmap_cons.
      apply NoDup_cons. split; [done|apply Hwf].
    + intros b' chain' n Hb' Hn.
      rewrite (sc_home_eq self); [|done|done|simpl; by rewrite length_insert].
      destruct (decide (b' = b)) as [->|Hne].
      * rewrite list_lookup_insert_eq in Hb' by (by eapply lookup_lt_Some).
        injection Hb' as <-. apply elem_of_cons in Hn as [->|Hn]; [done|].
        apply (wf_home _ Hwf _ _ _ Hb Hn).
      * rewrite list_lookup_insert_ne in Hb' by done.
        apply (wf_home _ Hwf _ _ _ Hb' Hn).
    + done.
    + done.
    + intros _. unfold nodes. simpl. split.
      * rewrite Hperm. apply list_elem_of_here.
      * intros n Hn. rewrite Hperm, elem_of_cons. split; [|by right].
        intros [->|?]; [done|done].
    + split; [done|]. lia.
Qed.

(** *** [search] and [delete] *)

Lemma sc_search_counts_only self key r self' :
  search self key = (r, self') → ∃ c, self' = set_comparison_count self c.
Proof.
  unfold search. intros H. exists (_comparison_count self').
  destruct (hash_func self key (size self)); [|injection H as _ <-; by destruct self].
  destruct (py_getitem (buckets self) a); [|injection H as _ <-; by destruct self].
  destruct (search_scan a0 key). by injection H as _ <-.
Qed.

Lemma sc_search_found self key v :
  wf self → (key, v) ∈ nodes self →
  ∃ c, search self key = (Ok v, set_comparison_count self c).
Proof.
  intros Hwf Hin.
  destruct (sc_key_in_home _ _ _ Hwf Hin) as (index & b & chain & Hhash & Hidx & Hb & Hv).
  unfold search, py_getitem. rewrite Hhash, Hidx, Hb.
  pose proof (sc_search_scan_found chain key v (sc_wf_chain_nodup _ _ _ Hwf Hb) Hv) as Hs.
  destruct (search_scan chain key) as [c w]. simpl in Hs. subst w. eauto.
Qed.

Lemma sc_search_absent self key b :
  home self key = Some b → key ∉ (nodes self).*1 →
  ∃ c, search self key = (Ok PyNone, set_comparison_count self c).
Proof.
  intros Hhome Hk. unfold home in Hhome. unfold search.
  destruct (hash_func self key (size self)) as [index|]; [|done].
  destruct (py_getitem_index _ _ _ Hhome) as (chain & -> & Hb).
  assert (key ∉ chain.*1) as Hc.
  { intros [v Hv]%sc_elem_of_keys. apply Hk, sc_elem_of_keys. exists v.
    apply sc_elem_of_concat_lookup. eauto. }
  pose proof (sc_search_scan_not_found chain key Hc) as Hs.
  destruct (search_scan chain key) as [c w]. simpl in Hs. subst w. eauto.
Qed.

(** Unlinking one node of [key] from bucket [b]. *)
Lemma sc_unlink_spec self key b chain chain' v :
  wf self → buckets self !! b = Some chain → chain ≡ₚ (key, v) :: chain' →
  let self' := set_count (set_buckets self (<[b:=chain']> (buckets self)))
                         (count self - 1) in
  wf self' ∧ (key ∉ (nodes self').*1)
  ∧ ∀ n, n.1 ≠ key → (n ∈ nodes self' ↔ n ∈ nodes self).
Proof.
  intros Hwf Hb Hp self'.
  pose proof (sc_concat_insert_remove _ _ _ _ _ Hb Hp) as Hperm.
  fold (nodes self) in Hperm.
  assert (Hn' : nodes self' = concat (<[b:=chain']> (buckets self))) by done.
  rewrite <- Hn' in Hperm.
  pose proof (wf_nodup _ Hwf) as Hnd. rewrite Hperm, fmap_cons in Hnd.
  apply NoDup_cons in Hnd as [Hfresh Hnd]. simpl in Hfresh.
  split; [split|split; [done|]].
  - simpl. rewrite length_insert. apply Hwf.
  - simpl. rewrite (wf_count _ Hwf), Hperm. simpl. lia.
  - done.
  - intros b' chain'' n Hb' Hn.
    rewrite (sc_home_eq self); [|done|done|simpl; by rewrite length_insert].
    simpl in Hb'. destruct (decide (b' = b)) as [->|Hne].
    + rewrite list_lookup_insert_eq in Hb' by (by eapply lookup_lt_Some).
      injection Hb' as <-. apply (wf_home _ Hwf _ _ _ Hb).
      rewrite Hp. by apply list_elem_of_further.
    + rewrite list_lookup_insert_ne in Hb' by done.
      apply (wf_home _ Hwf _ _ _ Hb' Hn).
  - intros n Hn. rewrite Hperm, elem_of_cons. split; [by right|].
    intros [->|?]; done.
Qed.

Lemma sc_delete_spec self key r self' :
  wf self → delete self key = (r, self') →
  (r = Ok true →
     wf self' ∧ same_config self self' ∧ size self' = size self
     ∧ count self' = count self - 1
     ∧ (key ∉ (nodes self').*1)
     ∧ (∃ b, home self' key = Some b)
     ∧ ∀ n, n.1 ≠ key → (n ∈ nodes self' ↔ n ∈ nodes self))
  ∧ (r ≠ Ok true → self' = self)
  ∧ (r = Ok false → key ∉ (nodes self).*1).
Proof.
  intros Hwf. unfold delete.
  destruct (hash_func self key (size self)) as [index|e] eqn:Hhash.
  2:{ intros [= <- <-]. done. }
  destruct (py_getitem (buckets self) index) as [head|e] eqn:Hget.
  2:{ intros [= <- <-]. done. }
  apply py_getitem_Ok in Hget as (b & Hidx & Hb).
  assert (Hhome : home self key = Some b) by (unfold home; by rewrite Hhash).
  assert (Hunlink : ∀ chain' v, head ≡ₚ (key, v) :: chain' →
    let s := set_count (set_buckets self (<[b:=chain']> (buckets self)))
                       (count self - 1) in
    wf s ∧ same_config self s ∧ size s = size self
     ∧ count s = count self - 1
     ∧ (key ∉ (nodes s).*1)
     ∧ (∃ b, home s key = Some b)
     ∧ ∀ n, n.1 ≠ key → (n ∈ nodes s ↔ n ∈ nodes self)).
  { intros chain' v Hp s.
    destruct (sc_unlink_spec self key b head chain' v Hwf Hb Hp) as (H1 & H2 & H3).
    split; [done|]. split; [done|]. split; [done|]. split; [done|].
    split; [done|]. split; [|done]. exists b.
    rewrite (sc_home_eq self); [done|done|done|simpl; by rewrite length_insert]. }
  destruct head as [|[k v] next].
  { intros [= <- <-]. split; [done|]. split; [done|]. intros _.
    eapply sc_key_not_in_nodes; [done..|]. apply not_elem_of_nil. }
  destruct (Z.eqb_spec k key) as [->|Hne].
  - rewrite (py_setitem_index _ _ _ _ Hidx). intros [= <- <-].
    split; [|done]. intros _. by apply (Hunlink next v).
  - destruct (delete_walk next key) as [next'|] eqn:Hwalk.
    + rewrite (py_setitem_index _ _ _ _ Hidx). intros [= <- <-].
      split; [|done]. intros _.
      apply sc_delete_walk_Some in Hwalk as [w Hw].
      apply (Hunlink ((k, v) :: next') w). rewrite Hw. apply perm_swap.
    + intros [= <- <-]. split; [done|]. split; [done|]. intros _.
      eapply sc_key_not_in_nodes; [done..|].
      apply sc_delete_walk_None in Hwalk. rewrite fmap_cons.
      apply not_elem_of_cons. split; [simpl; congruence|done].
Qed.

(** *** [_resize] and [insert] *)

Lemma sc_same_config_refl self : same_config self self.
Proof. done. Qed.

Lemma sc_same_config_trans self1 self2 self3 :
  same_config self1 self2 → same_config self2 self3 → same_config self1 self3.
Proof. intros [H1 H2] [H3 H4]. split; congruence. Qed.

Lemma sc_rehash_chain_app ins l1 l2 self :
  rehash_chain ins (l1 ++ l2) self =
    match rehash_chain ins l1 self with
    | (Ok _, self') => rehash_chain ins l2 self'
    | (Raise e, self') => (Raise e, self')
    end.
Proof.
  revert self. induction l1 as [|[k v] l1 IH]; intros self; simpl; [done|].
  destruct (ins self k v) as [[u|e] s1]; [apply IH|done].
Qed.

(** The two nested loops of [_resize] visit the nodes bucket by bucket. *)
Lemma sc_rehash_concat ins ls self :
  rehash ins ls self = rehash_chain ins (concat ls) self.
Proof.
  revert self. induction ls as [|head ls IH]; intros self; simpl; [done|].
  rewrite sc_rehash_chain_app.
  destruct (rehash_chain ins head self) as [[u|e] s1]; [apply IH|done].
Qed.

Lemma sc_rehash_chain_spec ins L :
  insert_ok ins → NoDup L.*1 → ∀ self r self',
  wf self → rehash_chain ins L self = (r, self') →
  wf self' ∧ same_config self self'
  ∧ (0 ≤ size self → 0 ≤ size self')
  ∧ (r = Ok tt →
       ∀ n, n ∈ nodes self' ↔ n ∈ L ∨ (n ∈ nodes self ∧ n.1 ∉ L.*1)).
Proof.
  intros Hins. induction L as [|[k v] L IH]; intros Hnd self r self' Hwf; simpl.
  - intros [= <- <-]. split; [done|]. split; [done|]. split; [done|].
    intros _ n. split.
    + intros Hn. right. split; [done|apply not_elem_of_nil].
    + intros [Hn|[Hn _]]; [by apply elem_of_nil in Hn|done].
  - rewrite fmap_cons in Hnd. apply NoDup_cons in Hnd as [Hk Hnd]. simpl in Hk.
    destruct (ins self k v) as [[u|e] s1] eqn:E.
    + destruct u.
      destruct (Hins _ _ _ _ _ Hwf E) as (Hwf1 & Hc1 & Hs1 & Hcontent).
      destruct (Hcontent eq_refl) as [Hkv Hothers].
      intros Hrest.
      destruct (IH Hnd _ _ _ Hwf1 Hrest) as (Hwf' & Hc' & Hs' & Hall).
      split; [done|]. split; [by eapply sc_same_config_trans|].
      split; [auto|]. intros Hr n. rewrite (Hall Hr), elem_of_cons.
      rewrite ?fmap_cons, not_elem_of_cons. split.
      * intros [Hn|[Hn Hnk]]; [by left; right|].
        destruct (decide (n.1 = k)) as [Heq|Hne].
        -- left. left. destruct n as [k' v']. simpl in Heq. subst k'.
           f_equal. eapply sc_NoDup_keys_functional; [apply (wf_nodup _ Hwf1)|done..].
        -- right. split; [by apply Hothers|done].
      * intros [[->|Hn]|[Hn [Hne Hnk]]].
        -- right. done.
        -- by left.
        -- right. split; [by apply Hothers|done].
    + intros [= <- <-].
      destruct (Hins _ _ _ _ _ Hwf E) as (Hwf1 & Hc1 & Hs1 & _). done.
Qed.

Lemma sc_resize_unfold ins self :
  _resize ins self = rehash_chain ins (nodes self) (doubled self).
Proof. unfold _resize. by rewrite sc_rehash_concat. Qed.

Lemma sc_nodes_doubled self : nodes (doubled self) = [].
Proof. apply sc_concat_replicate_nil. Qed.

Lemma sc_doubled_wf self : wf (doubled self).
Proof.
  split.
  - apply py_repeat_length.
  - by rewrite sc_nodes_doubled.
  - rewrite sc_nodes_doubled. constructor.
  - intros b chain n' Hb Hn'. simpl in Hb. unfold py_repeat in Hb.
    apply lookup_replicate_1 in Hb as [-> _]. by apply elem_of_nil in Hn'.
Qed.

Lemma sc_insert_rec_ok d : insert_ok (insert_rec d).
Proof.
  induction d as [|d IH]; intros self key value r self' Hwf; simpl.
  - intros [= <- <-]. done.
  - destruct (_load_factor self) as [lf|e]; [|intros [= <- <-]; done].
    destruct (Qle_bool (py_float (load_factor_threshold self)) lf).
    + rewrite sc_resize_unfold.
      destruct (rehash_chain (insert_rec d) (nodes self) (doubled self))
        as [[u|e] s1] eqn:E.
      * destruct u.
        destruct (sc_rehash_chain_spec _ _ IH (wf_nodup _ Hwf) _ _ _ (sc_doubled_wf self) E)
          as (Hwf1 & Hc1 & Hs1 & Hall).
        specialize (Hall eq_refl). intros Hbody.
        destruct (sc_insert_body_spec _ _ _ _ _ Hwf1 Hbody)
          as ((Hwf' & Hc' & Hs' & Hcontent) & Hsize & Hcount).
        split; [done|]. split; [by eapply sc_same_config_trans|].
        split; [intros; apply Hs', Hs1; simpl; lia|].
        intros Hr. destruct (Hcontent Hr) as [Hkv Hothers].
        split; [done|]. intros n Hn. rewrite (Hothers n Hn), Hall.
        rewrite sc_nodes_doubled. split; [|by left].
        intros [?|[[]%elem_of_nil _]]; done.
      * intros [= <- <-].
        destruct (sc_rehash_chain_spec _ _ IH (wf_nodup _ Hwf) _ _ _ (sc_doubled_wf self) E)
          as (Hwf1 & Hc1 & Hs1 & _).
        split; [done|]. split; [done|]. split; [|done].
        intros. apply Hs1. simpl. lia.
    + intros Hbody. by destruct (sc_insert_body_spec _ _ _ _ _ Hwf Hbody) as [? _].
Qed.

Lemma sc_insert_spec self key value r self' :
  wf self → insert self key value = (r, self') → insert_post self key value r self'.
Proof. apply sc_insert_rec_ok. Qed.

(** *** Reachable states *)

Lemma sc_step_wf self self' :
  wf self → step self self' →
  wf self' ∧ same_config self self' ∧ (0 ≤ size self → 0 ≤ size self').
Proof.
  intros Hwf Hstep.
  destruct Hstep as [self key value r self' H|self key r self' H
                    |self key r self' H|self].
  - by destruct (sc_insert_spec _ _ _ _ _ Hwf H) as (? & ? & ? & _).
  - apply sc_search_counts_only in H as [c ->].
    split; [by apply sc_wf_set_comparison_count|done].
  - destruct (sc_delete_spec _ _ _ _ Hwf H) as (Ht & Hf & _).
    destruct r as [[|]|e].
    + destruct (Ht eq_refl) as (? & ? & -> & _). done.
    + by rewrite Hf.
    + by rewrite Hf.
  - split; [by apply sc_wf_set_comparison_count|done].
Qed.

Lemma sc_reachable_wf self0 self :
  wf self0 → reachable self0 self →
  wf self ∧ same_config self0 self ∧ (0 ≤ size self0 → 0 ≤ size self).
Proof.
  intros Hwf H.
  apply (rtc_ind_r (R:=step)
           (λ s, wf s ∧ same_config self0 s ∧ (0 ≤ size self0 → 0 ≤ size s))
           self0); [done| |exact H].
  intros y z _ Hstep (Hy & Hc & Hs).
  destruct (sc_step_wf _ _ Hy Hstep) as (? & ? & ?).
  split; [done|]. split; [by eapply sc_same_config_trans|auto].
Qed.

(** *** Consequences for the operations *)

(** A run of [insert] calls with distinct keys leaves every pair in the
    table. *)
Lemma sc_insert_all_nodes kvs : ∀ self self',
  wf self → NoDup kvs.*1 → insert_all self kvs = (Ok tt, self') →
  wf self'
  ∧ (∀ k v, (k, v) ∈ kvs → (k, v) ∈ nodes self')
  ∧ (∀ n, n.1 ∉ kvs.*1 → (n ∈ nodes self' ↔ n ∈ nodes self)).
Proof.
  induction kvs as [|[k v] kvs IH]; intros self self' Hwf Hnd; simpl.
  - intros [= <-]. split; [done|]. split; [|done].
    intros k v Hin. by apply elem_of_nil in Hin.
  - rewrite fmap_cons in Hnd. apply NoDup_cons in Hnd as [Hk Hnd]. simpl in Hk.
    destruct (insert self k v) as [[[]|e] s1] eqn:E; [|done].
    destruct (sc_insert_spec _ _ _ _ _ Hwf E) as (Hwf1 & _ & _ & Hcontent).
    destruct (Hcontent eq_refl) as [Hkv Hothers]. intros Hrest.
    destruct (IH _ _ Hwf1 Hnd Hrest) as (Hwf' & Hin & Hout).
    split; [done|]. split.
    + intros k' v' [[= -> ->]|Hmem]%elem_of_cons; [|by apply Hin].
      by apply Hout.
    + intros n Hn. apply not_elem_of_cons in Hn as [Hne Hn].
      rewrite (Hout n Hn). by apply Hothers.
Qed.

(** Re-inserting a key that is in the table changes neither the set of
    keys nor [count]. *)
Lemma sc_insert_present self key value self' :
  wf self → key ∈ (nodes self).*1 → insert self key value = (Ok tt, self') →
  (nodes self').*1 ≡ₚ (nodes self).*1 ∧ count self' = count self.
Proof.
  intros Hwf Hk H.
  destruct (sc_insert_spec _ _ _ _ _ Hwf H) as (Hwf' & _ & _ & Hcontent).
  destruct (Hcontent eq_refl) as [Hkv Hothers].
  assert (Hperm : (nodes self').*1 ≡ₚ (nodes self).*1).
  { apply NoDup_Permutation; [apply Hwf'|apply Hwf|]. intros k.
    destruct (decide (k = key)) as [->|Hne].
    - split; [done|]. intros _. apply sc_elem_of_keys. eauto.
    - rewrite !sc_elem_of_keys. split; intros [v Hv]; exists v; by apply (Hothers (k, v)). }
  split; [done|].
  rewrite (wf_count _ Hwf), (wf_count _ Hwf').
  rewrite <- (length_fmap fst (nodes self')), Hperm. by rewrite length_fmap.
Qed.

(** Inserting a key that is not in the table adds one to [count]. *)
Lemma sc_insert_absent self key value self' :
  wf self → key ∉ (nodes self).*1 → insert self key value = (Ok tt, self') →
  count self' = count self + 1.
Proof.
  intros Hwf Hk H.
  destruct (sc_insert_spec _ _ _ _ _ Hwf H) as (Hwf' & _ & _ & Hcontent).
  destruct (Hcontent eq_refl) as [Hkv Hothers].
  assert (Hperm : (nodes self').*1 ≡ₚ key :: (nodes self).*1).
  { apply NoDup_Permutation; [apply Hwf'| |].
    - apply NoDup_cons. split; [done|apply Hwf].
    - intros k. rewrite elem_of_cons.
      destruct (decide (k = key)) as [->|Hne].
      + split; [by left|]. intros _. apply sc_elem_of_keys. eauto.
      + rewrite !sc_elem_of_keys. split.
        * intros [v Hv]. right. exists v. by apply (Hothers (k, v)).
        * intros [?|[v Hv]]; [done|]. exists v. by apply (Hothers (k, v)). }
  rewrite (wf_count _ Hwf), (wf_count _ Hwf').
  rewrite <- (length_fmap fst (nodes self')), Hperm. simpl. rewrite length_fmap. lia.
Qed.

(** *** The load factor *)








(** *** The recursion depth of [insert] *)

Lemma sc_insert_body_nodes self key value r self' :
  insert_body self key value = (r, self') →
  (length (nodes self') ≤ length (nodes self) + 1)%nat.
Proof.
  unfold insert_body.
  destruct (hash_func self key (size self)) as [index|e]; [|intros [= <- <-]; lia].
  destruct (py_getitem (buckets self) index) as [head|e] eqn:Hget;
    [|intros [= <- <-]; lia].
  apply py_getitem_Ok in Hget as (b & Hidx & Hb).
  destruct (insert_scan head key value) as [c [chain|]] eqn:Hscan; simpl;
    rewrite (py_setitem_index _ _ _ _ Hidx); intros [= <- <-]; unfold nodes; simpl.
  - apply sc_insert_scan_Some in Hscan as (Hkeys & _).
    rewrite <- (length_fmap fst (concat (<[b:=chain]> _))).
    rewrite (sc_concat_insert_keys _ _ head) by done. rewrite length_fmap. lia.
  - rewrite (sc_concat_insert_cons _ _ _ (key, value) Hb). simpl. lia.
Qed.

Lemma sc_rehash_chain_nodes ins L :
  (∀ self key value r self', ins self key value = (r, self') →
     (length (nodes self') ≤ length (nodes self) + 1)%nat) →
  ∀ self r self', rehash_chain ins L self = (r, self') →
  (length (nodes self') ≤ length (nodes self) + length L)%nat.
Proof.
  intros Hins. induction L as [|[k v] L IH]; intros self r self'; simpl.
  - intros [= <- <-]. lia.
  - destruct (ins self k v) as [[u|e] s1] eqn:E.
    + intros Hrest. apply IH in Hrest. apply Hins in E. lia.
    + intros [= <- <-]. apply Hins in E. lia.
Qed.

Lemma sc_insert_rec_nodes d : ∀ self key value r self',
  insert_rec d self key value = (r, self') →
  (length (nodes self') ≤ length (nodes self) + 1)%nat.
Proof.
  induction d as [|d IH]; intros self key value r self'; simpl.
  - intros [= <- <-]. lia.
  - destruct (_load_factor self) as [lf|e]; [|intros [= <- <-]; lia].
    destruct (Qle_bool (py_float (load_factor_threshold self)) lf).
    + rewrite sc_resize_unfold.
      destruct (rehash_chain (insert_rec d) (nodes self) (doubled self))
        as [[u|e] s1] eqn:E;
        apply (sc_rehash_chain_nodes _ _ IH) in E; rewrite sc_nodes_doubled in E.
      * intros Hbody%sc_insert_body_nodes. simpl in E. lia.
      * intros [= <- <-]. simpl in E. lia.
    + apply sc_insert_body_nodes.
Qed.

(** Two versions of [insert] that agree on small tables rehash alike. *)
Lemma sc_rehash_chain_ext ins1 ins2 (m : nat) L :
  (∀ self key value, (length (nodes self) < m)%nat →
     ins1 self key value = ins2 self key value) →
  (∀ self key value r self', ins1 self key value = (r, self') →
     (length (nodes self') ≤ length (nodes self) + 1)%nat) →
  ∀ self, (length (nodes self) + length L ≤ m)%nat →
  rehash_chain ins1 L self = rehash_chain ins2 L self.
Proof.
  intros Hagree Hgrow. induction L as [|[k v] L IH]; intros self Hlen; simpl; [done|].
  simpl in Hlen. rewrite <- Hagree by lia.
  destruct (ins1 self k v) as [[u|e] s1] eqn:E; [|done].
  apply IH. apply Hgrow in E. lia.
Qed.

(** Any depth above the number of nodes gives the same run: the bound in
    [insert] is never what ends the recursion. *)
Lemma sc_insert_rec_enough d : ∀ d' self key value,
  (length (nodes self) < d)%nat → (length (nodes self) < d')%nat →
  insert_rec d self key value = insert_rec d' self key value.
Proof.
  induction d as [|d IH]; intros d' self key value Hd Hd'; [lia|].
  destruct d' as [|d']; [lia|]. simpl.
  destruct (_load_factor self) as [lf|e]; [|done].
  destruct (Qle_bool (py_float (load_factor_threshold self)) lf); [|done].
  rewrite !sc_resize_unfold.
  rewrite (sc_rehash_chain_ext (insert_rec d) (insert_rec d') (length (nodes self))).
  - done.
  - intros s k v Hs. apply IH; lia.
  - apply sc_insert_rec_nodes.
  - rewrite sc_nodes_doubled. simpl. lia.
Qed.

Lemma sc_insert_depth d self key value :
  (length (nodes self) < d)%nat →
  insert_rec d self key value = insert self key value.
Proof. intros Hd. apply sc_insert_rec_enough; [done|lia]. Qed.

(** *** Tables without a bucket *)




End HashTableSeparateChainingSpec.

(** ** Open addressing *)

Module HashTableOpenAddressingSpec.
Import HashTableOpenAddressing.
Implicit Types (self : t) (key : Z) (value : Any) (tbl : list slot).

(** *** Counting the tuples *)

Lemma oa_live_app tbl1 tbl2 : live (tbl1 ++ tbl2) = (live tbl1 + live tbl2)%nat.
Proof. unfold live. by rewrite filter_app, length_app. Qed.

Lemma oa_live_cons s tbl :
  live (s :: tbl) = ((if is_entry s then 1 else 0) + live tbl)%nat.
Proof.
  unfold live. rewrite filter_cons. destruct s; simpl; try done;
    destruct (decide _) as [H|H]; simpl; done.
Qed.

Lemma oa_live_insert tbl j s s' :
  tbl !! j = Some s →
  (live (<[j:=s']> tbl) + (if is_entry s then 1 else 0)
   = live tbl + (if is_entry s' then 1 else 0))%nat.
Proof.
  intros Hj. rewrite insert_take_drop by (by eapply lookup_lt_Some).
  rewrite <- (take_drop_middle tbl j s Hj) at 3.
  rewrite !oa_live_app, !oa_live_cons. lia.
Qed.

Lemma oa_live_replicate_Empty n : live (replicate n Empty) = 0%nat.
Proof. induction n as [|n IH]; [done|]. simpl. by rewrite oa_live_cons, IH. Qed.

Lemma oa_live_le_length tbl : (live tbl ≤ length tbl)%nat.
Proof. apply length_filter. Qed.

(** *** The invariant of the table *)

Lemma oa_same_config_trans self1 self2 self3 :
  same_config self1 self2 → same_config self2 self3 → same_config self1 self3.
Proof. intros (? & ? & ?) (? & ? & ?). repeat split; congruence. Qed.

Lemma oa_counts_only_fields self self' :
  counts_only self self' ↔
    size self' = size self ∧ count self' = count self
    ∧ table self' = table self ∧ hash_func self' = hash_func self
    ∧ probe_type self' = probe_type self
    ∧ load_factor_threshold self' = load_factor_threshold self.
Proof.
  unfold counts_only, reset_counts. destruct self, self'. simpl. split.
  - intros [= -> -> -> -> -> ->]. done.
  - intros (-> & -> & -> & -> & -> & ->). done.
Qed.

Lemma oa_counts_only_refl self : counts_only self self.
Proof. done. Qed.

Lemma oa_counts_only_trans self1 self2 self3 :
  counts_only self1 self2 → counts_only self2 self3 → counts_only self1 self3.
Proof. unfold counts_only. congruence. Qed.

Lemma oa_counts_only_wf self self' : counts_only self self' → wf self → wf self'.
Proof.
  intros (Hs & Hc & Ht & _)%oa_counts_only_fields [H1 H2].
  split; by rewrite ?Hs, ?Hc, Ht.
Qed.

Lemma oa_counts_only_config self self' :
  counts_only self self' → same_config self self'.
Proof. intros (_ & _ & _ & ? & ? & ?)%oa_counts_only_fields. done. Qed.

Lemma oa_init_wf n hf pt thr : wf (init n hf pt thr).
Proof.
  split; simpl.
  - apply py_repeat_length.
  - unfold py_repeat. by rewrite oa_live_replicate_Empty.
Qed.

(** *** One pass of the [insert] loop *)

(** What a pass of the loop of [insert] does to the table: nothing, or one
    slot that held no tuple gets one ([count] goes up by one), or the
    tuple of a slot is replaced ([count] stays). *)
Lemma oa_insert_body_wf self key value i r self' :
  wf self → insert_body self key value i = (r, self') →
  wf self' ∧ same_config self self' ∧ size self' = size self
  ∧ count self ≤ count self' ≤ count self + 1
  ∧ (live (table self') ≤ live (table self) + 1)%nat.
Proof.
  intros Hwf. unfold insert_body.
  destruct (_probe self key i) as [index|e];
    [|intros [= <- <-]; split; [done|]; repeat split; lia].
  simpl.
  destruct (py_getitem (table self) index) as [entry|e] eqn:Hget.
  2:{ intros [= <- <-]. split; [by destruct Hwf|]. repeat split; simpl; lia. }
  apply py_getitem_Ok in Hget as (j & Hidx & Hj).
  pose proof (oa_live_insert _ _ _ (Entry key value) Hj) as Hlive. simpl in Hlive.
  destruct Hwf as [Hlen Hcnt].
  destruct entry as [| |k v]; simpl in Hlive.
  - rewrite (py_setitem_index _ _ _ _ Hidx). intros [= <- <-].
    split; [split|]; simpl; rewrite ?length_insert; try done; try lia.
    repeat split; lia.
  - rewrite (py_setitem_index _ _ _ _ Hidx). intros [= <- <-].
    split; [split|]; simpl; rewrite ?length_insert; try done; try lia.
    repeat split; lia.
  - destruct (k =? key).
    + simpl. rewrite (py_setitem_index _ _ _ _ Hidx). intros [= <- <-].
      split; [split|]; simpl; rewrite ?length_insert; try done; try lia.
      repeat split; lia.
    + intros [= <- <-]. split; [split|]; simpl; try done. repeat split; lia.
Qed.

Lemma oa_insert_loop_wf n : ∀ self key value i r self',
  wf self → insert_loop n self key value i = (r, self') →
  wf self' ∧ same_config self self' ∧ size self' = size self
  ∧ count self ≤ count self' ≤ count self + 1
  ∧ (live (table self') ≤ live (table self) + 1)%nat.
Proof.
  induction n as [|n IH]; intros self key value i r self' Hwf; simpl.
  - intros [= <- <-]. split; [done|]. repeat split; lia.
  - destruct (insert_body self key value i) as [[[u|]|e] s1] eqn:E;
      pose proof (oa_insert_body_wf _ _ _ _ _ _ Hwf E) as (Hwf1 & Hc1 & Hs1 & Hcnt1 & Hl1).
    + intros [= <- <-]. done.
    + (* the pass fell through: only the counters moved *)
      assert (count s1 = count self ∧ table s1 = table self) as [Hceq Hteq].
      { unfold insert_body in E.
        destruct (_probe self key i); [|done]. simpl in E.
        destruct (py_getitem (table self) a) as [[| |k v]|]; simpl in E;
          try (destruct (py_setitem (table self) a (Entry key value)); done);
          try done.
        destruct (k =? key); simpl in E.
        - destruct (py_setitem (table self) a (Entry key value)); done.
        - by injection E as <-. }
      intros Hrest. destruct (IH _ _ _ _ _ _ Hwf1 Hrest) as (Hwf' & Hc' & Hs' & Hcnt' & Hl').
      split; [done|]. split; [by eapply oa_same_config_trans|].
      split; [congruence|]. rewrite Hceq in Hcnt'. rewrite Hteq in Hl'. done.
    + intros [= <- <-]. done.
Qed.

(** *** [search] and [delete] *)

Lemma oa_search_body_counts self key i r self' :
  search_body self key i = (r, self') → counts_only self self'.
Proof.
  unfold search_body. intros H. apply oa_counts_only_fields.
  destruct (_probe self key i); [|by injection H as _ <-]. simpl in H.
  destruct (py_getitem (table self) a) as [[| |k v]|]; simpl in H;
    try (by injection H as _ <-).
  destruct (k =? key); by injection H as _ <-.
Qed.

Lemma oa_search_loop_counts n : ∀ self key i r self',
  search_loop n self key i = (r, self') → counts_only self self'.
Proof.
  induction n as [|n IH]; intros self key i r self'; simpl.
  - by intros [= <- <-].
  - destruct (search_body self key i) as [[[v|]|e] s1] eqn:E;
      apply oa_search_body_counts in E.
    + by intros [= <- <-].
    + intros Hrest%IH. by eapply oa_counts_only_trans.
    + by intros [= <- <-].
Qed.

Lemma oa_search_counts self key r self' :
  search self key = (r, self') → counts_only self self'.
Proof. apply oa_search_loop_counts. Qed.

(** A pass of the loop of [delete] changes nothing, unless it returns
    [True]: then one tuple became the sentinel and [count] went down by one. *)
Lemma oa_delete_body_spec self key i r self' :
  delete_body self key i = (r, self') →
  (r ≠ Ok (Return true) → self' = self)
  ∧ (r = Ok (Return true) → wf self →
       wf self' ∧ same_config self self' ∧ size self' = size self
       ∧ count self' = count self - 1).
Proof.
  unfold delete_body.
  destruct (_probe self key i) as [index|e]; [|by intros [= <- <-]].
  destruct (py_getitem (table self) index) as [entry|e] eqn:Hget;
    [|by intros [= <- <-]].
  apply py_getitem_Ok in Hget as (j & Hidx & Hj).
  destruct entry as [| |k v]; try by intros [= <- <-].
  destruct (k =? key); [|by intros [= <- <-]].
  rewrite (py_setitem_index _ _ _ _ Hidx). intros [= <- <-].
  split; [done|]. intros _ [Hlen Hcnt].
  pose proof (oa_live_insert _ _ _ DELETED Hj) as Hlive. simpl in Hlive.
  split; [split|]; simpl; rewrite ?length_insert; try done. lia.
Qed.

Lemma oa_delete_loop_spec n : ∀ self key i r self',
  delete_loop n self key i = (r, self') →
  (r ≠ Ok true → self' = self)
  ∧ (r = Ok true → wf self →
       wf self' ∧ same_config self self' ∧ size self' = size self
       ∧ count self' = count self - 1).
Proof.
  induction n as [|n IH]; intros self key i r self'; simpl.
  - by intros [= <- <-].
  - destruct (delete_body self key i) as [[[b|]|e] s1] eqn:E;
      apply oa_delete_body_spec in E as [Hsame Hdel].
    + intros [= <- <-]. split.
      * intros Hb. apply Hsame. congruence.
      * intros [= ->]. by apply Hdel.
    + rewrite (Hsame ltac:(done)). apply IH.
    + intros [= <- <-]. split; [intros _; by apply Hsame|done].
Qed.

Lemma oa_delete_spec self key r self' :
  delete self key = (r, self') →
  (r ≠ Ok true → self' = self)
  ∧ (r = Ok true → wf self →
       wf self' ∧ same_config self self' ∧ size self' = size self
       ∧ count self' = count self - 1).
Proof. apply oa_delete_loop_spec. Qed.

(** *** [_resize] and [insert] *)

Lemma oa_rehash_wf ins L :
  insert_keeps ins → ∀ self r self',
  wf self → rehash ins L self = (r, self') → wf self' ∧ same_config self self'.
Proof.
  intros Hins. induction L as [|[| |k v] L IH]; intros self r self' Hwf; simpl;
    try apply (IH _ _ _ Hwf).
  - by intros [= <- <-].
  - destruct (ins self k v) as [[u|e] s1] eqn:E;
      destruct (Hins _ _ _ _ _ Hwf E) as [Hwf1 Hc1].
    + intros Hrest. destruct (IH _ _ _ Hwf1 Hrest) as [Hwf' Hc'].
      split; [done|by eapply oa_same_config_trans].
    + by intros [= <- <-].
Qed.

Lemma oa_resize_unfold ins self :
  _resize ins self = rehash ins (table self) (doubled self).
Proof. done. Qed.

Lemma oa_doubled_wf self : wf (doubled self).
Proof.
  split; simpl.
  - apply py_repeat_length.
  - unfold py_repeat. by rewrite oa_live_replicate_Empty.
Qed.

Lemma oa_insert_rec_wf d : insert_keeps (insert_rec d).
Proof.
  induction d as [|d IH]; intros self key value r self' Hwf; simpl.
  - by intros [= <- <-].
  - destruct (_load_factor self) as [lf|e]; [|by intros [= <- <-]].
    destruct (Qle_bool (py_float (load_factor_threshold self)) lf).
    + rewrite oa_resize_unfold.
      destruct (rehash (insert_rec d) (table self) (doubled self))
        as [[u|e] s1] eqn:E;
        destruct (oa_rehash_wf _ _ IH _ _ _ (oa_doubled_wf self) E) as [Hwf1 Hc1].
      * intros Hloop.
        destruct (oa_insert_loop_wf _ _ _ _ _ _ _ Hwf1 Hloop) as (Hwf' & Hc' & _).
        split; [done|]. eapply oa_same_config_trans; [|done]. done.
      * by intros [= <- <-].
    + intros Hloop.
      by destruct (oa_insert_loop_wf _ _ _ _ _ _ _ Hwf Hloop) as (Hwf' & Hc' & _).
Qed.

Lemma oa_insert_wf self key value r self' :
  wf self → insert self key value = (r, self') → wf self' ∧ same_config self self'.
Proof. apply oa_insert_rec_wf. Qed.

(** *** The load factor *)

(** The test [self._load_factor() >= self.load_factor_threshold]. *)
Lemma oa_load_test self :
  size self ≠ 0 →
  ∃ lf, _load_factor self = Ok lf
    ∧ (Qle_bool (py_float (load_factor_threshold self)) lf = false
       ↔ below (load_factor_threshold self) (count self) (size self)).
Proof. apply load_test. Qed.

Lemma oa_insert_rec_no_resize d self key value :
  0 < size self →
  below (load_factor_threshold self) (count self) (size self) →
  insert_rec (S d) self key value
  = insert_loop (Z.to_nat (size self)) self key value 0.
Proof.
  intros Hs Hlt. simpl. destruct (oa_load_test self) as (lf & -> & Htest); [lia|].
  by rewrite (proj2 Htest Hlt).
Qed.




(** *** Reachable states *)

Lemma oa_step_wf self self' :
  wf self → step self self' → wf self' ∧ same_config self self'.
Proof.
  intros Hwf Hstep.
  destruct Hstep as [self key value r self' H|self key r self' H
                    |self key r self' H|self].
  - by eapply oa_insert_wf.
  - apply oa_search_counts in H.
    split; [by eapply oa_counts_only_wf|by apply oa_counts_only_config].
  - apply oa_delete_spec in H as [Hsame Hdel]. destruct r as [[|]|e].
    + by destruct (Hdel eq_refl Hwf) as (? & ? & _).
    + by rewrite Hsame.
    + by rewrite Hsame.
  - split; [|done]. by destruct Hwf.
Qed.

Lemma oa_reachable_wf self0 self :
  wf self0 → reachable self0 self → wf self ∧ same_config self0 self.
Proof.
  intros Hwf H.
  apply (rtc_ind_r (R:=step) (λ s, wf s ∧ same_config self0 s) self0);
    [done| |exact H].
  intros y z _ Hstep [Hy Hc]. destruct (oa_step_wf _ _ Hy Hstep).
  split; [done|by eapply oa_same_config_trans].
Qed.



(** *** The recursion depth of [insert] *)

Lemma oa_insert_body_live self key value i r self' :
  insert_body self key value i = (r, self') →
  (live (table self') ≤ live (table self) + 1)%nat
  ∧ (r = Ok Next → table self' = table self).
Proof.
  unfold insert_body.
  destruct (_probe self key i) as [index|e]; [|intros [= <- <-]; split; [lia|done]].
  simpl.
  destruct (py_getitem (table self) index) as [entry|e] eqn:Hget;
    [|intros [= <- <-]; split; [simpl; lia|done]].
  apply py_getitem_Ok in Hget as (j & Hidx & Hj).
  pose proof (oa_live_insert _ _ _ (Entry key value) Hj) as Hlive. simpl in Hlive.
  destruct entry as [| |k v]; simpl in Hlive.
  - rewrite (py_setitem_index _ _ _ _ Hidx). intros [= <- <-]. simpl. split; [lia|done].
  - rewrite (py_setitem_index _ _ _ _ Hidx). intros [= <- <-]. simpl. split; [lia|done].
  - destruct (k =? key).
    + simpl. rewrite (py_setitem_index _ _ _ _ Hidx). intros [= <- <-].
      simpl. split; [lia|done].
    + intros [= <- <-]. simpl. split; [lia|done].
Qed.

Lemma oa_insert_loop_live n : ∀ self key value i r self',
  insert_loop n self key value i = (r, self') →
  (live (table self') ≤ live (table self) + 1)%nat.
Proof.
  induction n as [|n IH]; intros self key value i r self'; simpl.
  - intros [= <- <-]. lia.
  - destruct (insert_body self key value i) as [[[u|]|e] s1] eqn:E;
      apply oa_insert_body_live in E as [Hl Ht].
    + by intros [= <- <-].
    + rewrite <- (Ht eq_refl). apply IH.
    + by intros [= <- <-].
Qed.

Lemma oa_rehash_live ins L :
  (∀ self key value r self', ins self key value = (r, self') →
     (live (table self') ≤ live (table self) + 1)%nat) →
  ∀ self r self', rehash ins L self = (r, self') →
  (live (table self') ≤ live (table self) + live L)%nat.
Proof.
  intros Hins. induction L as [|s L IH]; intros self r self'.
  { simpl. intros [= <- <-]. lia. }
  rewrite oa_live_cons. destruct s as [| |k v]; simpl.
  - intros H%IH. lia.
  - intros H%IH. lia.
  - destruct (ins self k v) as [[u|e] s1] eqn:E.
    + intros Hrest. apply IH in Hrest. apply Hins in E. lia.
    + intros [= <- <-]. apply Hins in E. lia.
Qed.

Lemma oa_live_doubled self : live (table (doubled self)) = 0%nat.
Proof. apply oa_live_replicate_Empty. Qed.

Lemma oa_insert_rec_live d : ∀ self key value r self',
  insert_rec d self key value = (r, self') →
  (live (table self') ≤ live (table self) + 1)%nat.
Proof.
  induction d as [|d IH]; intros self key value r self'; simpl.
  - intros [= <- <-]. lia.
  - destruct (_load_factor self) as [lf|e]; [|intros [= <- <-]; lia].
    destruct (Qle_bool (py_float (load_factor_threshold self)) lf).
    + rewrite oa_resize_unfold.
      destruct (rehash (insert_rec d) (table self) (doubled self))
        as [[u|e] s1] eqn:E;
        apply (oa_rehash_live _ _ IH) in E; rewrite oa_live_doubled in E.
      * intros Hloop%oa_insert_loop_live. lia.
      * intros [= <- <-]. lia.
    + apply oa_insert_loop_live.
Qed.

(** Two versions of [insert] that agree on small tables rehash alike. *)
Lemma oa_rehash_ext ins1 ins2 (m : nat) L :
  (∀ self key value, (live (table self) < m)%nat →
     ins1 self key value = ins2 self key value) →
  (∀ self key value r self', ins1 self key value = (r, self') →
     (live (table self') ≤ live (table self) + 1)%nat) →
  ∀ self, (live (table self) + live L ≤ m)%nat →
  rehash ins1 L self = rehash ins2 L self.
Proof.
  intros Hagree Hgrow. induction L as [|s L IH]; intros self Hlen; [done|].
  rewrite oa_live_cons in Hlen. destruct s as [| |k v]; simpl in *.
  - apply IH. lia.
  - apply IH. lia.
  - rewrite <- Hagree by lia.
    destruct (ins1 self k v) as [[u|e] s1] eqn:E; [|done].
    apply IH. apply Hgrow in E. lia.
Qed.

(** Any depth above the number of tuples gives the same run: the bound in
    [insert] is never what ends the recursion. *)
Lemma oa_insert_rec_enough d : ∀ d' self key value,
  (live (table self) < d)%nat → (live (table self) < d')%nat →
  insert_rec d self key value = insert_rec d' self key value.
Proof.
  induction d as [|d IH]; intros d' self key value Hd Hd'; [lia|].
  destruct d' as [|d']; [lia|]. simpl.
  destruct (_load_factor self) as [lf|e]; [|done].
  destruct (Qle_bool (py_float (load_factor_threshold self)) lf); [|done].
  rewrite !oa_resize_unfold.
  rewrite (oa_rehash_ext (insert_rec d) (insert_rec d') (live (table self))).
  - done.
  - intros s k v Hs. apply IH; lia.
  - apply oa_insert_rec_live.
  - rewrite oa_live_doubled. simpl. lia.
Qed.

Lemma oa_insert_depth d self key value :
  (live (table self) < d)%nat →
  insert_rec d self key value = insert self key value.
Proof. intros Hd. apply oa_insert_rec_enough; [done|lia]. Qed.

(** *** The counters *)

(** A pass of the loop of [insert] that gets its probe index adds one to
    the probe counter, and one to the comparison counter when the slot
    holds a tuple. *)
Lemma oa_insert_body_counters self key value i index r self' :
  _probe self key i = Ok index →
  insert_body self key value i = (r, self') →
  _probe_count self' = _probe_count self + 1
  ∧ (∀ entry, examined self key i = Some entry →
       _comparison_count self' =
         _comparison_count self + (if is_entry entry then 1 else 0)).
Proof.
  intros Hp. unfold insert_body, examined. rewrite Hp. simpl.
  destruct (py_getitem (table self) index) as [entry|e] eqn:Hget;
    [|intros [= <- <-]; split; [done|]; by intros ?].
  apply py_getitem_Ok in Hget as (j & Hidx & Hj).
  destruct entry as [| |k v].
  - rewrite (py_setitem_index _ _ _ _ Hidx). intros [= <- <-]. simpl.
    split; [done|]. intros ? [= <-]. simpl. lia.
  - rewrite (py_setitem_index _ _ _ _ Hidx). intros [= <- <-]. simpl.
    split; [done|]. intros ? [= <-]. simpl. lia.
  - destruct (k =? key); simpl.
    + rewrite (py_setitem_index _ _ _ _ Hidx). intros [= <- <-]. simpl.
      split; [done|]. intros ? [= <-]. done.
    + intros [= <- <-]. simpl. split; [done|]. intros ? [= <-]. done.
Qed.

(** A pass of the loop of [search] that gets its probe index adds one to
    the probe counter, and one to the comparison counter when the slot
    holds a tuple or the sentinel. *)
Lemma oa_search_body_counters self key i index r self' :
  _probe self key i = Ok index →
  search_body self key i = (r, self') →
  _probe_count self' = _probe_count self + 1
  ∧ (∀ entry, examined self key i = Some entry →
       _comparison_count self' =
         _comparison_count self
         + (match entry with Empty => 0 | _ => 1 end)).
Proof.
  intros Hp. unfold search_body, examined. rewrite Hp. simpl.
  destruct (py_getitem (table self) index) as [[| |k v]|e] eqn:Hget.
  - intros [= <- <-]. simpl. split; [done|]. intros ? [= <-]. lia.
  - intros [= <- <-]. simpl. split; [done|]. intros ? [= <-]. done.
  - destruct (k =? key); intros [= <- <-]; simpl;
      (split; [done|]; by intros ? [= <-]).
  - intros [= <- <-]. simpl. split; [done|]. by intros ?.
Qed.

(** [delete] leaves both counters alone, however many slots it examines. *)
Lemma oa_delete_counters self key r self' :
  delete self key = (r, self') →
  _probe_count self' = _probe_count self
  ∧ _comparison_count self' = _comparison_count self.
Proof.
  unfold delete. generalize (Z.to_nat (size self)) 0. intros n. revert self.
  induction n as [|n IH]; intros self i; simpl.
  - by intros [= <- <-].
  - unfold delete_body.
    destruct (_probe self key i) as [index|e]; [|by intros [= <- <-]].
    destruct (py_getitem (table self) index) as [[| |k v]|e];
      try (by intros [= <- <-]); try apply IH.
    destruct (k =? key); [|apply IH].
    destruct (py_setitem (table self) index DELETED); by intros [= <- <-].
Qed.

Lemma oa_shift_eq p c self (self' : t) :
  size self' = size self → count self' = count self →
  table self' = table self → hash_func self' = hash_func self →
  probe_type self' = probe_type self →
  load_factor_threshold self' = load_factor_threshold self →
  _probe_count self' = _probe_count self + p →
  _comparison_count self' = _comparison_count self + c →
  self' = shift p c self.
Proof.
  destruct self, self'. unfold shift. simpl. by intros -> -> -> -> -> -> -> ->.
Qed.

Ltac shift_fields :=
  unfold prod_map; simpl; try done; f_equal; apply oa_shift_eq; simpl; try done; lia.

(** The counters are write-only: started with other counter values, a pass
    of each loop returns the same result, reads and writes the same slots,
    and adds the same amounts to the counters. *)
Lemma oa_insert_body_shift p c self key value i :
  insert_body (shift p c self) key value i
  = prod_map id (shift p c) (insert_body self key value i).
Proof.
  unfold insert_body. change (_probe (shift p c self) key i) with (_probe self key i).
  destruct (_probe self key i) as [index|e]; [|done]. simpl.
  destruct (py_getitem (table self) index) as [[| |k v]|e]; simpl.
  - destruct (py_setitem (table self) index (Entry key value)); simpl;
      shift_fields.
  - destruct (py_setitem (table self) index (Entry key value)); simpl;
      shift_fields.
  - destruct (k =? key); simpl.
    + destruct (py_setitem (table self) index (Entry key value)); simpl;
        shift_fields.
    + shift_fields.
  - shift_fields.
Qed.

Lemma oa_insert_loop_shift p c n : ∀ self key value i,
  insert_loop n (shift p c self) key value i
  = prod_map id (shift p c) (insert_loop n self key value i).
Proof.
  induction n as [|n IH]; intros self key value i; simpl; [done|].
  rewrite oa_insert_body_shift.
  destruct (insert_body self key value i) as [[[u|]|e] s1]; simpl; [done| |done].
  apply IH.
Qed.

Lemma oa_search_body_shift p c self key i :
  search_body (shift p c self) key i
  = prod_map id (shift p c) (search_body self key i).
Proof.
  unfold search_body. change (_probe (shift p c self) key i) with (_probe self key i).
  destruct (_probe self key i) as [index|e]; [|done]. simpl.
  destruct (py_getitem (table self) index) as [[| |k v]|e]; simpl;
    try shift_fields.
  destruct (k =? key); shift_fields.
Qed.

Lemma oa_search_shift p c self key :
  search (shift p c self) key = prod_map id (shift p c) (search self key).
Proof.
  unfold search. change (size (shift p c self)) with (size self).
  generalize (Z.to_nat (size self)) 0. intros n. revert self.
  induction n as [|n IH]; intros self i; simpl; [done|].
  rewrite oa_search_body_shift.
  destruct (search_body self key i) as [[[v|]|e] s1]; simpl; [done| |done].
  apply IH.
Qed.

Lemma oa_delete_body_shift p c self key i :
  delete_body (shift p c self) key i
  = prod_map id (shift p c) (delete_body self key i).
Proof.
  unfold delete_body. change (_probe (shift p c self) key i) with (_probe self key i).
  destruct (_probe self key i) as [index|e]; [|done]. simpl.
  destruct (py_getitem (table self) index) as [[| |k v]|e]; simpl; try done.
  destruct (k =? key); [|done].
  destruct (py_setitem (table self) index DELETED); simpl; [|done].
  shift_fields.
Qed.

Lemma oa_delete_shift p c self key :
  delete (shift p c self) key = prod_map id (shift p c) (delete self key).
Proof.
  unfold delete. change (size (shift p c self)) with (size self).
  generalize (Z.to_nat (size self)) 0. intros n. revert self.
  induction n as [|n IH]; intros self i; simpl; [done|].
  rewrite oa_delete_body_shift.
  destruct (delete_body self key i) as [[[b|]|e] s1]; simpl; [done| |done].
  apply IH.
Qed.

Lemma oa_rehash_shift p c ins L :
  (∀ self key value,
     ins (shift p c self) key value = prod_map id (shift p c) (ins self key value)) →
  ∀ self, rehash ins L (shift p c self) = prod_map id (shift p c) (rehash ins L self).
Proof.
  intros Hins. induction L as [|[| |k v] L IH]; intros self; simpl; try done.
  rewrite Hins. destruct (ins self k v) as [[u|e] s1]; simpl; [apply IH|done].
Qed.

Lemma oa_insert_rec_shift p c d : ∀ self key value,
  insert_rec d (shift p c self) key value
  = prod_map id (shift p c) (insert_rec d self key value).
Proof.
  induction d as [|d IH]; intros self key value; simpl; [done|].
  change (_load_factor (shift p c self)) with (_load_factor self).
  destruct (_load_factor self) as [lf|e]; [|done].
  destruct (Qle_bool (py_float (load_factor_threshold self)) lf).
  - rewrite !oa_resize_unfold.
    change (table (shift p c self)) with (table self).
    change (doubled (shift p c self)) with (shift p c (doubled self)).
    rewrite (oa_rehash_shift p c _ _ (IH)).
    destruct (rehash (insert_rec d) (table self) (doubled self)) as [[u|e] s1];
      simpl; [|done].
    apply oa_insert_loop_shift.
  - apply oa_insert_loop_shift.
Qed.

Lemma oa_insert_shift p c self key value :
  insert (shift p c self) key value
  = prod_map id (shift p c) (insert self key value).
Proof. apply oa_insert_rec_shift. Qed.

Lemma oa_search_loop_shift p c n : ∀ self key i,
  search_loop n (shift p c self) key i
  = prod_map id (shift p c) (search_loop n self key i).
Proof.
  induction n as [|n IH]; intros self key i; simpl; [done|].
  rewrite oa_search_body_shift.
  destruct (search_body self key i) as [[[v|]|e] s1]; simpl; [done| |done].
  apply IH.
Qed.

(** *** Tables without tombstones *)

Lemma oa_tidy_shift p c self : tidy self → tidy (shift p c self).
Proof. intros [H1 H2 H3]. split; [exact H1|exact H2|exact H3]. Qed.

Lemma oa_holds_lookup self key value :
  holds self key value ↔ ∃ j, table self !! j = Some (Entry key value).
Proof. apply list_elem_of_lookup. Qed.

Lemma oa_probe_slot_eq self self' key i :
  size self' = size self → hash_func self' = hash_func self →
  probe_type self' = probe_type self →
  length (table self') = length (table self) →
  probe_slot self' key i = probe_slot self key i.
Proof.
  intros Hs Hh Hp Hl. unfold probe_slot.
  assert (_probe self' key i = _probe self key i) as ->.
  { unfold _probe, _linear_probe, _quadratic_probe, _double_hash.
    by rewrite Hs, Hh, Hp. }
  destruct (_probe self key i); [|done]. by apply py_index_length.
Qed.

(** One key, one slot. *)
Lemma oa_tidy_unique self k j1 v1 j2 v2 :
  tidy self →
  table self !! j1 = Some (Entry k v1) → table self !! j2 = Some (Entry k v2) →
  j1 = j2.
Proof.
  intros Ht H1 H2.
  destruct (tidy_path _ Ht _ _ _ H1) as (m1 & _ & Hp1 & Hb1).
  destruct (tidy_path _ Ht _ _ _ H2) as (m2 & _ & Hp2 & Hb2).
  destruct (Nat.lt_trichotomy m1 m2) as [Hlt|[->|Hlt]].
  - destruct (Hb2 _ Hlt) as (j & k' & v' & Hp & Hj & Hne).
    rewrite Hp1 in Hp. injection Hp as <-. rewrite H1 in Hj. congruence.
  - congruence.
  - destruct (Hb1 _ Hlt) as (j & k' & v' & Hp & Hj & Hne).
    rewrite Hp2 in Hp. injection Hp as <-. rewrite H2 in Hj. congruence.
Qed.

Lemma oa_tidy_functional self k v1 v2 :
  tidy self → holds self k v1 → holds self k v2 → v1 = v2.
Proof.
  intros Ht [j1 H1]%oa_holds_lookup [j2 H2]%oa_holds_lookup.
  assert (j1 = j2) as -> by (by eapply oa_tidy_unique). congruence.
Qed.

(** Writing the tuple of [key] at the first slot of its probe sequence
    that is empty or holds [key] already. *)
Lemma oa_install self self' key value (i : nat) j :
  tidy self →
  (i < Z.to_nat (size self))%nat →
  probe_slot self key (Z.of_nat i) = Some j →
  blocked self key i →
  (table self !! j = Some Empty ∨ ∃ v0, table self !! j = Some (Entry key v0)) →
  size self' = size self → hash_func self' = hash_func self →
  probe_type self' = probe_type self →
  table self' = <[j:=Entry key value]> (table self) →
  tidy self' ∧ holds self' key value
  ∧ ∀ k' v', k' ≠ key → (holds self' k' v' ↔ holds self k' v').
Proof.
  intros Ht Hi Hp Hb Hj Hs Hh Hpt Htbl.
  assert (Hlen : length (table self') = length (table self))
    by (by rewrite Htbl, length_insert).
  assert (Hps : ∀ k n, probe_slot self' k n = probe_slot self k n)
    by (intros; by apply oa_probe_slot_eq).
  assert (Hjlt : (j < length (table self))%nat).
  { destruct Hj as [Hj|[v0 Hj]]; by eapply lookup_lt_Some. }
  assert (Hother : ∀ j' k' v', k' ≠ key →
            table self !! j' = Some (Entry k' v') → j' ≠ j).
  { intros j' k' v' Hne Hj' ->. destruct Hj as [Hj|[v0 Hj]]; congruence. }
  split; [split|split].
  - rewrite Hlen, Hs. apply Ht.
  - intros j'. rewrite Htbl. destruct (decide (j' = j)) as [->|Hne].
    + by rewrite list_lookup_insert_eq.
    + rewrite list_lookup_insert_ne by done. apply (tidy_clean _ Ht).
  - intros j' k v. rewrite Htbl, Hs. destruct (decide (j' = j)) as [->|Hne].
    + rewrite list_lookup_insert_eq by done. intros [= <- <-].
      exists i. split; [done|]. split; [by rewrite Hps|].
      intros i' Hi'. destruct (Hb _ Hi') as (j2 & k2 & v2 & Hp2 & Hj2 & Hne2).
      exists j2, k2, v2. rewrite Hps, Htbl.
      rewrite list_lookup_insert_ne by (symmetry; by eapply Hother). done.
    + rewrite list_lookup_insert_ne by done. intros Hj'.
      destruct (tidy_path _ Ht _ _ _ Hj') as (m & Hm & Hpm & Hbm).
      exists m. split; [done|]. split; [by rewrite Hps|].
      intros i' Hi'. destruct (Hbm _ Hi') as (j2 & k2 & v2 & Hp2 & Hj2 & Hne2).
      rewrite Hps, Htbl. destruct (decide (j2 = j)) as [->|Hne'].
      * exists j, key, value. rewrite list_lookup_insert_eq by done.
        split; [done|]. split; [done|].
        destruct Hj as [Hj|[v0 Hj]]; congruence.
      * exists j2, k2, v2. by rewrite list_lookup_insert_ne.
  - apply oa_holds_lookup. exists j. rewrite Htbl. by apply list_lookup_insert_eq.
  - intros k' v' Hne. rewrite !oa_holds_lookup, Htbl. split; intros [j' Hj'].
    + destruct (decide (j' = j)) as [->|Hne'].
      * rewrite list_lookup_insert_eq in Hj' by done. congruence.
      * rewrite list_lookup_insert_ne in Hj' by done. eauto.
    + exists j'. rewrite list_lookup_insert_ne; [done|].
      symmetry. by eapply Hother.
Qed.

Lemma oa_probe_slot_body self key i j :
  probe_slot self key i = Some j →
  ∃ index entry, _probe self key i = Ok index
    ∧ py_index (table self) index = Some j
    ∧ py_getitem (table self) index = Ok entry
    ∧ table self !! j = Some entry.
Proof.
  unfold probe_slot. destruct (_probe self key i) as [index|]; [|done].
  intros Hidx. destruct (py_getitem_index _ _ _ Hidx) as (entry & Hget & Hj).
  by exists index, entry.
Qed.

(** The loop of [insert] on a table without tombstones. *)
Lemma oa_insert_loop_tidy key value n : ∀ self (i : nat) self',
  tidy self → (i + n = Z.to_nat (size self))%nat → blocked self key i →
  insert_loop n self key value (Z.of_nat i) = (Ok tt, self') →
  tidy self' ∧ holds self' key value
  ∧ ∀ k' v', k' ≠ key → (holds self' k' v' ↔ holds self k' v').
Proof.
  induction n as [|n IH]; intros self i self' Ht Hn Hb; simpl; [done|].
  unfold insert_body.
  destruct (_probe self key (Z.of_nat i)) as [index|e] eqn:Hprobe; [|done].
  simpl.
  destruct (py_getitem (table self) index) as [entry|e] eqn:Hget; [|done].
  apply py_getitem_Ok in Hget as (j & Hidx & Hj).
  assert (Hslot : probe_slot self key (Z.of_nat i) = Some j)
    by (unfold probe_slot; by rewrite Hprobe).
  destruct entry as [| |k v].
  - rewrite (py_setitem_index _ _ _ _ Hidx). intros [= <-].
    eapply (oa_install self _ key value i j); try done; [lia|by left].
  - by destruct (tidy_clean _ Ht j).
  - destruct (Z.eqb_spec k key) as [->|Hne]; simpl.
    + rewrite (py_setitem_index _ _ _ _ Hidx). intros [= <-].
      eapply (oa_install self _ key value i j); try done; [lia|right; eauto].
    + change (set_comparison_count _ _) with (shift 1 1 self).
      rewrite oa_insert_loop_shift.
      destruct (insert_loop n self key value (Z.of_nat i + 1)) as [r s1] eqn:E.
      simpl. intros [= -> <-].
      replace (Z.of_nat i + 1) with (Z.of_nat (S i)) in E by lia.
      destruct (IH self (S i) s1) as (Ht' & Hkv & Hothers); try done.
      * lia.
      * intros i' Hi'. destruct (decide (i' = i)) as [->|Hlt].
        -- by exists j, k, v.
        -- apply Hb. lia.
      * split; [by apply oa_tidy_shift|done].
Qed.

(** The loop of [search] finds a tuple at the end of a blocked stretch. *)
Lemma oa_search_loop_walk self key v j (m : nat) : ∀ n (i : nat),
  (m < n)%nat →
  (∀ i' : nat, (i ≤ i' < i + m)%nat →
     ∃ j' k' v', probe_slot self key (Z.of_nat i') = Some j'
       ∧ table self !! j' = Some (Entry k' v') ∧ k' ≠ key) →
  probe_slot self key (Z.of_nat (i + m)) = Some j →
  table self !! j = Some (Entry key v) →
  ∃ self', search_loop n self key (Z.of_nat i) = (Ok v, self').
Proof.
  induction m as [|m IH]; intros n i Hn Hb Hp Hj.
  - destruct n as [|n]; [lia|]. simpl. rewrite Nat.add_0_r in Hp.
    destruct (oa_probe_slot_body _ _ _ _ Hp) as (index & entry & Hprobe & Hidx & Hget & Hj').
    unfold search_body. rewrite Hprobe. simpl. rewrite Hget.
    rewrite Hj in Hj'. injection Hj' as <-. rewrite Z.eqb_refl. eauto.
  - destruct n as [|n]; [lia|]. simpl.
    destruct (Hb i ltac:(lia)) as (j' & k' & v' & Hp' & Hj' & Hne).
    destruct (oa_probe_slot_body _ _ _ _ Hp') as (index & entry & Hprobe & Hidx & Hget & Hj'').
    unfold search_body. rewrite Hprobe. simpl. rewrite Hget.
    rewrite Hj' in Hj''. injection Hj'' as <-.
    destruct (Z.eqb_spec k' key) as [|_]; [done|].
    change (set_comparison_count _ _) with (shift 1 1 self).
    rewrite oa_search_loop_shift.
    replace (Z.of_nat i + 1) with (Z.of_nat (S i)) by lia.
    destruct (IH n (S i)) as [s1 Hs1]; try done.
    + lia.
    + intros i' Hi'. apply Hb. lia.
    + by replace (S i + m)%nat with (i + S m)%nat by lia.
    + rewrite Hs1. simpl. eauto.
Qed.

(** On a table without tombstones [search] finds every tuple. *)
Lemma oa_search_tidy self key v :
  tidy self → holds self key v → ∃ self', search self key = (Ok v, self').
Proof.
  intros Ht [j Hj]%oa_holds_lookup.
  destruct (tidy_path _ Ht _ _ _ Hj) as (m & Hm & Hp & Hb).
  apply (oa_search_loop_walk self key v j m _ 0%nat); try done.
  intros i' Hi'. apply Hb. lia.
Qed.

Lemma oa_entry_dec (L : list slot) k :
  (∃ v, Entry k v ∈ L) ∨ (∀ v, Entry k v ∉ L).
Proof.
  induction L as [|s L [[v Hv]|IH]].
  - right. intros v. apply not_elem_of_nil.
  - left. exists v. by apply list_elem_of_further.
  - destruct s as [| |k0 v0].
    + right. intros v. apply not_elem_of_cons. split; [done|apply IH].
    + right. intros v. apply not_elem_of_cons. split; [done|apply IH].
    + destruct (decide (k0 = k)) as [->|Hne].
      * left. exists v0. apply list_elem_of_here.
      * right. intros v. apply not_elem_of_cons. split; [congruence|apply IH].
Qed.

Lemma oa_rehash_tidy ins L :
  insert_tidy ins →
  (∀ k v v', Entry k v ∈ L → Entry k v' ∈ L → v = v') →
  ∀ self self', tidy self → rehash ins L self = (Ok tt, self') →
  tidy self'
  ∧ ∀ k v, holds self' k v
      ↔ Entry k v ∈ L ∨ (holds self k v ∧ ∀ v', Entry k v' ∉ L).
Proof.
  intros Hins. induction L as [|s L IH]; intros Hfun self self' Ht.
  { simpl. intros [= <-]. split; [done|]. intros k v. split.
    - intros H. right. split; [done|]. intros v'. apply not_elem_of_nil.
    - intros [H|[H _]]; [by apply elem_of_nil in H|done]. }
  assert (Hfun' : ∀ k v v', Entry k v ∈ L → Entry k v' ∈ L → v = v').
  { intros k v v' H1 H2. apply (Hfun k); by apply list_elem_of_further. }
  destruct s as [| |k0 v0]; simpl.
  - intros Hrest. destruct (IH Hfun' _ _ Ht Hrest) as [Ht' Hall].
    split; [done|]. intros k v. rewrite Hall, elem_of_cons.
    split; (intros [H|[H1 H2]]; [left|right]).
    + by right.
    + split; [done|]. intros v'. rewrite elem_of_cons. intros [?|?]; [done|].
      by eapply H2.
    + by destruct H.
    + split; [done|]. intros v' ?. eapply H2. by apply list_elem_of_further.
  - intros Hrest. destruct (IH Hfun' _ _ Ht Hrest) as [Ht' Hall].
    split; [done|]. intros k v. rewrite Hall, elem_of_cons.
    split; (intros [H|[H1 H2]]; [left|right]).
    + by right.
    + split; [done|]. intros v'. rewrite elem_of_cons. intros [?|?]; [done|].
      by eapply H2.
    + by destruct H.
    + split; [done|]. intros v' ?. eapply H2. by apply list_elem_of_further.
  - destruct (ins self k0 v0) as [[[]|e] s1] eqn:E; [|done].
    destruct (Hins _ _ _ _ Ht E) as (Ht1 & Hkv & Hothers).
    intros Hrest. destruct (IH Hfun' _ _ Ht1 Hrest) as [Ht' Hall].
    split; [done|]. intros k v. rewrite Hall, elem_of_cons. split.
    + intros [H|[H1 H2]]; [by left; right|].
      destruct (decide (k = k0)) as [->|Hne].
      * left. left. f_equal. exact (oa_tidy_functional s1 k0 v v0 Ht1 H1 Hkv).
      * right. split; [by apply Hothers|].
        intros v'. rewrite elem_of_cons. intros [[= ? ?]|?]; [done|].
        by eapply H2.
    + intros [[[= -> ->]|H]|[H1 H2]].
      * destruct (oa_entry_dec L k0) as [[v' Hv']|Hno].
        -- left. rewrite (Hfun k0 v0 v'); [done|apply list_elem_of_here|].
           by apply list_elem_of_further.
        -- right. done.
      * by left.
      * right. assert (k ≠ k0) as Hne.
        { intros ->. eapply H2. apply list_elem_of_here. }
        split; [by apply Hothers|].
        intros v' ?. eapply H2. by apply list_elem_of_further.
Qed.

Lemma oa_doubled_tidy self : tidy (doubled self).
Proof.
  split.
  - apply py_repeat_length.
  - intros j. simpl. unfold py_repeat. intros [? _]%lookup_replicate_1. done.
  - intros j k v. simpl. unfold py_repeat. intros [? _]%lookup_replicate_1. done.
Qed.

Lemma oa_init_tidy n hf pt thr : tidy (init n hf pt thr).
Proof.
  split.
  - apply py_repeat_length.
  - intros j. simpl. unfold py_repeat. intros [? _]%lookup_replicate_1. done.
  - intros j k v. simpl. unfold py_repeat. intros [? _]%lookup_replicate_1. done.
Qed.

Lemma oa_holds_doubled self k v : ¬ holds (doubled self) k v.
Proof.
  intros [j Hj]%oa_holds_lookup. simpl in Hj. unfold py_repeat in Hj.
  by apply lookup_replicate_1 in Hj as [? _].
Qed.

Lemma oa_insert_rec_tidy d : insert_tidy (insert_rec d).
Proof.
  induction d as [|d IH]; intros self key value self' Ht; simpl; [done|].
  destruct (_load_factor self) as [lf|e]; [|done].
  assert (Hloop : ∀ s1, tidy s1 →
    insert_loop (Z.to_nat (size s1)) s1 key value 0 = (Ok tt, self') →
    tidy self' ∧ holds self' key value
    ∧ ∀ k' v', k' ≠ key → (holds self' k' v' ↔ holds s1 k' v')).
  { intros s1 Ht1 H.
    apply (oa_insert_loop_tidy key value (Z.to_nat (size s1)) s1 0%nat); try done.
    intros i' Hi'. lia. }
  destruct (Qle_bool (py_float (load_factor_threshold self)) lf); [|by apply Hloop].
  rewrite oa_resize_unfold.
  destruct (rehash (insert_rec d) (table self) (doubled self))
    as [[[]|e] s1] eqn:E; [|done].
  destruct (oa_rehash_tidy _ _ IH (λ k v v', oa_tidy_functional self k v v' Ht)
              _ _ (oa_doubled_tidy self) E) as [Ht1 Hall].
  intros H. destruct (Hloop s1 Ht1 H) as (Ht' & Hkv & Hothers).
  split; [done|]. split; [done|].
  intros k' v' Hne. rewrite (Hothers k' v' Hne), Hall. split.
  - intros [?|[[]%oa_holds_doubled _]]. done.
  - by left.
Qed.

(** A run of [insert] calls with distinct keys, all returning normally,
    leaves every pair in the table. *)
Lemma oa_insert_all_tidy kvs : ∀ self self',
  tidy self → NoDup kvs.*1 → insert_all self kvs = (Ok tt, self') →
  tidy self'
  ∧ (∀ k v, (k, v) ∈ kvs → holds self' k v)
  ∧ (∀ k v, k ∉ kvs.*1 → (holds self' k v ↔ holds self k v)).
Proof.
  induction kvs as [|[k v] kvs IH]; intros self self' Ht Hnd; simpl.
  - intros [= <-]. split; [done|]. split; [|done].
    intros k v Hin. by apply elem_of_nil in Hin.
  - rewrite fmap_cons in Hnd. apply NoDup_cons in Hnd as [Hk Hnd]. simpl in Hk.
    destruct (insert self k v) as [[[]|e] s1] eqn:E; [|done].
    destruct (oa_insert_rec_tidy _ _ _ _ _ Ht E) as (Ht1 & Hkv & Hothers).
    intros Hrest. destruct (IH _ _ Ht1 Hnd Hrest) as (Ht' & Hin & Hout).
    split; [done|]. split.
    + intros k' v' [[= -> ->]|Hmem]%elem_of_cons; [|by apply Hin].
      by apply Hout.
    + intros k' v' Hn. apply not_elem_of_cons in Hn as [Hne Hn].
      rewrite (Hout k' v' Hn). by apply Hothers.
Qed.

(** *** Keys survive [insert] and [_resize] *)





(** *** Tables without a slot *)




End HashTableOpenAddressingSpec.

(** ** The claims *)

Lemma oa_insert_all_reachable kvs : ∀ self,
  HashTableOpenAddressing.reachable self
    (HashTableOpenAddressing.insert_all self kvs).2.
Proof.
  induction kvs as [|[k v] kvs IH]; intros self; simpl; [apply rtc_refl|].
  destruct (HashTableOpenAddressing.insert self k v) as [[u|e] s1] eqn:E.
  - eapply rtc_l; [|apply IH]. by eapply HashTableOpenAddressing.step_insert.
  - apply rtc_once. by eapply HashTableOpenAddressing.step_insert.
Qed.

Lemma sc_insert_all_reachable kvs : ∀ self,
  HashTableSeparateChaining.reachable self
    (HashTableSeparateChaining.insert_all self kvs).2.
Proof.
  induction kvs as [|[k v] kvs IH]; intros self; simpl; [apply rtc_refl|].
  destruct (HashTableSeparateChaining.insert self k v) as [[u|e] s1] eqn:E.
  - eapply rtc_l; [|apply IH]. by eapply HashTableSeparateChaining.step_insert.
  - apply rtc_once. by eapply HashTableSeparateChaining.step_insert.
Qed.

(** *** C1: the load factor after [insert] *)


(** When one entry in [2 * size] slots is not below the threshold the load
    factor can stay further above it: threshold 0.1 on a chaining table of
    size 1 gives [size = 2] and [count = 2] after two inserts. *)
Example load_factor_small_threshold :
  let sc := (HashTableSeparateChaining.insert_all
               (HashTableSeparateChaining.init 1 None (1 # 10))
               [(0, PyInt 0); (1, PyInt 1)]).2 in
  ¬ below (1 # 10) 1 (2 * 1)
  ∧ HashTableSeparateChaining.size sc = 2 ∧ HashTableSeparateChaining.count sc = 2
  ∧ ¬ below (1 # 10) (HashTableSeparateChaining.count sc - 1)
        (HashTableSeparateChaining.size sc).
Proof.
  intros sc. split; [intros H; vm_compute in H; discriminate H|].
  split; [vm_compute; reflexivity|]. split; [vm_compute; reflexivity|].
  intros H; vm_compute in H; discriminate H.
Qed.

(** The test of [insert] compares floats.  With threshold 0.9 and nine
    entries in ten slots the quotient 9/10 is below the rational that the
    float 0.9 denotes, and the float nearest to 9/10 is 0.9 itself: the
    tenth [insert] resizes. *)
Example load_factor_float_test :
  let oa0 := HashTableOpenAddressing.init 10 None "linear" (9 # 10) in
  let oa := (HashTableOpenAddressing.insert_all oa0
               [(0, PyInt 0); (1, PyInt 1); (2, PyInt 2); (3, PyInt 3);
                (4, PyInt 4); (5, PyInt 5); (6, PyInt 6); (7, PyInt 7);
                (8, PyInt 8)]).2 in
  let oa' := (HashTableOpenAddressing.insert oa 9 (PyInt 9)).2 in
  HashTableOpenAddressing.size oa = 10
  ∧ HashTableOpenAddressing.count oa = 9
  ∧ (inject_Z 9 / inject_Z 10 < py_float (9 # 10))%Q
  ∧ ¬ below (9 # 10) 9 10
  ∧ HashTableOpenAddressing.insert oa 9 (PyInt 9) = (Ok tt, oa')
  ∧ HashTableOpenAddressing.size oa' = 20
  ∧ HashTableOpenAddressing.count oa' = 10.
Proof.
  intros oa0 oa oa'. split; [vm_compute; reflexivity|].
  split; [vm_compute; reflexivity|]. split; [vm_compute; reflexivity|].
  split; [intros H; vm_compute in H; discriminate H|].
  split; [vm_compute; reflexivity|]. split; vm_compute; reflexivity.
Qed.



(** *** C2: what was inserted is found *)

(** C2 (as stated, refuted).  The specification covers every sequence of [insert]
    calls with distinct keys on an open-addressing table with any probe
    type.  On [HashTableOpenAddressing(3, probe_type='quadratic')] the
    calls [insert(0, 'a')], [insert(6, 'b')], [insert(2, 'c')] return
    normally and [search(6)] finds ['b'].  The next call, [insert(9, 'd')],
    resizes to 6 slots, where the quadratic probes of key 6 only reach
    slots 0 and 2, both taken by then: it raises "Hash table is full" in
    the middle of the rehash, and afterwards [search(6)] returns [None]. *)
Lemma insert_failure_loses_key :
  let t0 := HashTableOpenAddressing.init 3 None "quadratic" (3 # 4) in
  let kvs := [(0, PyStr "a"); (6, PyStr "b"); (2, PyStr "c")] in
  let t3 := (HashTableOpenAddressing.insert_all t0 kvs).2 in
  NoDup [0; 6; 2; 9]
  ∧ HashTableOpenAddressing.insert_all t0 kvs = (Ok tt, t3)
  ∧ (HashTableOpenAddressing.search t3 6).1 = Ok (PyStr "b")
  ∧ ∃ t4, HashTableOpenAddressing.insert t3 9 (PyStr "d")
          = (Raise RuntimeError, t4)
      ∧ HashTableOpenAddressing.table t4
        = [HashTableOpenAddressing.Entry 0 (PyStr "a");
           HashTableOpenAddressing.Empty;
           HashTableOpenAddressing.Entry 2 (PyStr "c");
           HashTableOpenAddressing.Empty; HashTableOpenAddressing.Empty;
           HashTableOpenAddressing.Empty]
      ∧ (HashTableOpenAddressing.search t4 6).1 = Ok PyNone.
Proof.
  intros t0 kvs t3. split.
  { apply NoDup_ListNoDup. repeat constructor; vm_compute; intuition discriminate. }
  split; [vm_compute; reflexivity|]. split; [vm_compute; reflexivity|].
  eexists. split; [vm_compute; reflexivity|]. split; vm_compute; reflexivity.
Qed.

(** C2 (amended).  For every list of pairs with pairwise-distinct keys
    inserted one after the other into a freshly built table, if every call
    returns normally then [search(k)] afterwards returns the value inserted
    with [k], for each key [k] of the list: on a direct-address table with
    in-range keys (where the calls always return normally), on an
    open-addressing table with any probe type, hash function, size and
    threshold, and on a separate-chaining table. *)
Theorem insert_then_search :
  (∀ m kvs, Forall (λ kv, 0 ≤ kv.1 < m) kvs → NoDup kvs.*1 →
     ∃ self', DirectAddressTable.insert_all (DirectAddressTable.init m) kvs
              = (Ok tt, self')
       ∧ ∀ k v, (k, v) ∈ kvs → DirectAddressTable.search self' k = Ok v)
  ∧ (∀ n hf pt thr kvs self', NoDup kvs.*1 →
     HashTableOpenAddressing.insert_all
       (HashTableOpenAddressing.init n hf pt thr) kvs = (Ok tt, self') →
     ∀ k v, (k, v) ∈ kvs →
       ∃ self'', HashTableOpenAddressing.search self' k = (Ok v, self''))
  ∧ (∀ n hf thr kvs self', NoDup kvs.*1 →
     HashTableSeparateChaining.insert_all
       (HashTableSeparateChaining.init n hf thr) kvs = (Ok tt, self') →
     ∀ k v, (k, v) ∈ kvs →
       ∃ self'', HashTableSeparateChaining.search self' k = (Ok v, self'')).
Proof.
  split; [|split].
  - intros m kvs Hr Hnd.
    destruct (DirectAddressTableSpec.dat_insert_all_table m kvs _
                (DirectAddressTableSpec.dat_init_wf m) Hr Hnd)
      as (self' & Hrun & Hwf & Hin & _).
    exists self'. split; [done|]. intros k v Hkv.
    rewrite Forall_forall in Hr. specialize (Hr _ Hkv). simpl in Hr.
    destruct (DirectAddressTableSpec.dat_search_in_range m self' k Hwf Hr)
      as (w & -> & Hw).
    rewrite (Hin _ _ Hkv) in Hw. congruence.
  - intros n hf pt thr kvs self' Hnd Hrun k v Hkv.
    destruct (HashTableOpenAddressingSpec.oa_insert_all_tidy kvs _ _
                (HashTableOpenAddressingSpec.oa_init_tidy n hf pt thr) Hnd Hrun)
      as (Ht & Hin & _).
    apply HashTableOpenAddressingSpec.oa_search_tidy; [done|by apply Hin].
  - intros n hf thr kvs self' Hnd Hrun k v Hkv.
    destruct (HashTableSeparateChainingSpec.sc_insert_all_nodes kvs _ _
                (HashTableSeparateChainingSpec.sc_init_wf n hf thr) Hnd Hrun)
      as (Hwf & Hin & _).
    destruct (HashTableSeparateChainingSpec.sc_search_found self' k v Hwf (Hin _ _ Hkv))
      as [c Hc].
    eauto.
Qed.

Lemma insert_then_search_witness :
  let kvs := [(10, PyStr "v10"); (22, PyStr "v22"); (31, PyStr "v31");
              (4, PyStr "v4"); (15, PyStr "v15"); (28, PyStr "v28");
              (17, PyStr "v17"); (88, PyStr "v88"); (59, PyStr "v59")] in
  let oa0 := HashTableOpenAddressing.init 10 None "linear" (3 # 4) in
  let oa := (HashTableOpenAddressing.insert_all oa0 kvs).2 in
  (NoDup kvs.*1
   ∧ HashTableOpenAddressing.insert_all oa0 kvs = (Ok tt, oa)
   ∧ (88, PyStr "v88") ∈ kvs)
  ∧ ∃ self'', HashTableOpenAddressing.search oa 88 = (Ok (PyStr "v88"), self'').
Proof.
  intros kvs oa0 oa.
  assert (H1 : NoDup kvs.*1).
  { apply NoDup_ListNoDup. repeat constructor; vm_compute; intuition discriminate. }
  assert (H2 : HashTableOpenAddressing.insert_all oa0 kvs = (Ok tt, oa))
    by (vm_compute; reflexivity).
  assert (H3 : (88, PyStr "v88") ∈ kvs) by (apply list_elem_of_In; vm_compute; tauto).
  split; [exact (conj H1 (conj H2 H3))|].
  exact (proj1 (proj2 insert_then_search) 10 None "linear" (3 # 4) kvs oa
           H1 H2 88 (PyStr "v88") H3).
Defined.

(** *** C3, C4, C5: a key behind a tombstone *)

Lemma oa_reachable_insert self0 self key value :
  HashTableOpenAddressing.reachable self0 self →
  HashTableOpenAddressing.reachable self0
    (HashTableOpenAddressing.insert self key value).2.
Proof.
  intros H. eapply rtc_r; [exact H|].
  eapply HashTableOpenAddressing.step_insert. apply surjective_pairing.
Qed.

Lemma oa_reachable_delete self0 self key :
  HashTableOpenAddressing.reachable self0 self →
  HashTableOpenAddressing.reachable self0
    (HashTableOpenAddressing.delete self key).2.
Proof.
  intros H. eapply rtc_r; [exact H|].
  eapply HashTableOpenAddressing.step_delete. apply surjective_pairing.
Qed.

(** C3 (failing input, open addressing).  The specification has [insert] of
    a key that is present updates its value in place and leaves [count]
    unchanged.  On [HashTableOpenAddressing(10)] with linear probing, after
    [insert(0, 'a')], [insert(10, 'b')] and [delete(0)], key 10 is in slot
    1 behind the tombstone in slot 0 and [count] is 1.  [insert(10, 'c')]
    then stops at the tombstone: it writes a second tuple for key 10 into
    slot 0, leaves the tuple in slot 1 as it was, and raises [count] to 2. *)
Theorem reinsert_behind_tombstone :
  let t0 := HashTableOpenAddressing.init 10 None "linear" (3 # 4) in
  let t1 := (HashTableOpenAddressing.insert t0 0 (PyStr "a")).2 in
  let t2 := (HashTableOpenAddressing.insert t1 10 (PyStr "b")).2 in
  let t3 := (HashTableOpenAddressing.delete t2 0).2 in
  HashTableOpenAddressing.reachable t0 t3
  ∧ HashTableOpenAddressing.table t3
    = [HashTableOpenAddressing.DELETED;
       HashTableOpenAddressing.Entry 10 (PyStr "b")]
      ++ replicate 8 HashTableOpenAddressing.Empty
  ∧ HashTableOpenAddressing.count t3 = 1
  ∧ ∃ t4, HashTableOpenAddressing.insert t3 10 (PyStr "c") = (Ok tt, t4)
      ∧ HashTableOpenAddressing.table t4
        = [HashTableOpenAddressing.Entry 10 (PyStr "c");
           HashTableOpenAddressing.Entry 10 (PyStr "b")]
          ++ replicate 8 HashTableOpenAddressing.Empty
      ∧ HashTableOpenAddressing.count t4 = 2.
Proof.
  intros t0 t1 t2 t3. split.
  { unfold t3. apply oa_reachable_delete.
    unfold t2. apply oa_reachable_insert.
    unfold t1. apply oa_reachable_insert. apply rtc_refl. }
  split; [vm_compute; reflexivity|]. split; [vm_compute; reflexivity|].
  eexists. split; [vm_compute; reflexivity|]. split; reflexivity.
Qed.

(** C4 (failing input, open addressing).  The specification has it that no key
    occupies more than one slot in any reachable state, also after inserts
    that pass through tombstones.  After [insert(0, 'a')],
    [insert(10, 'b')], [delete(0)] and [insert(10, 'c')] on
    [HashTableOpenAddressing(10)] with linear probing, key 10 occupies
    slot 0 and slot 1. *)
Theorem duplicate_key_after_tombstone :
  let t0 := HashTableOpenAddressing.init 10 None "linear" (3 # 4) in
  let t1 := (HashTableOpenAddressing.insert t0 0 (PyStr "a")).2 in
  let t2 := (HashTableOpenAddressing.insert t1 10 (PyStr "b")).2 in
  let t3 := (HashTableOpenAddressing.delete t2 0).2 in
  let t4 := (HashTableOpenAddressing.insert t3 10 (PyStr "c")).2 in
  HashTableOpenAddressing.reachable t0 t4
  ∧ HashTableOpenAddressing.table t4 !! 0%nat
    = Some (HashTableOpenAddressing.Entry 10 (PyStr "c"))
  ∧ HashTableOpenAddressing.table t4 !! 1%nat
    = Some (HashTableOpenAddressing.Entry 10 (PyStr "b")).
Proof.
  intros t0 t1 t2 t3 t4. split.
  { unfold t4. apply oa_reachable_insert.
    unfold t3. apply oa_reachable_delete.
    unfold t2. apply oa_reachable_insert.
    unfold t1. apply oa_reachable_insert. apply rtc_refl. }
  split; vm_compute; reflexivity.
Qed.

(** C5 (failing input, open addressing).  The specification has it that after a
    [delete(k)] that returns success, [search(k)] returns "not found".  In
    the state above, where key 10 occupies two slots, [delete(10)] returns
    [True] and turns slot 0 into a tombstone; [search(10)] then walks past
    it and returns the stale value ['b'] from slot 1. *)
Theorem search_after_delete_finds_stale :
  let t0 := HashTableOpenAddressing.init 10 None "linear" (3 # 4) in
  let t1 := (HashTableOpenAddressing.insert t0 0 (PyStr "a")).2 in
  let t2 := (HashTableOpenAddressing.insert t1 10 (PyStr "b")).2 in
  let t3 := (HashTableOpenAddressing.delete t2 0).2 in
  let t4 := (HashTableOpenAddressing.insert t3 10 (PyStr "c")).2 in
  HashTableOpenAddressing.reachable t0 t4
  ∧ ∃ t5, HashTableOpenAddressing.delete t4 10 = (Ok true, t5)
      ∧ (HashTableOpenAddressing.search t5 10).1 = Ok (PyStr "b").
Proof.
  intros t0 t1 t2 t3 t4. split.
  { unfold t4. apply oa_reachable_insert.
    unfold t3. apply oa_reachable_delete.
    unfold t2. apply oa_reachable_insert.
    unfold t1. apply oa_reachable_insert. apply rtc_refl. }
  eexists. split; vm_compute; reflexivity.
Qed.

(** The parts of C3, C4 and C5 that the code does satisfy. *)

(** Separate chaining, C3: re-inserting a key that is in the table leaves
    [count] unchanged, and [search] then returns the new value. *)
Lemma sc_reinsert_updates n hf thr self key value self' :
  HashTableSeparateChaining.reachable
    (HashTableSeparateChaining.init n hf thr) self →
  key ∈ (HashTableSeparateChaining.nodes self).*1 →
  HashTableSeparateChaining.insert self key value = (Ok tt, self') →
  HashTableSeparateChaining.count self' = HashTableSeparateChaining.count self
  ∧ ∃ self'', HashTableSeparateChaining.search self' key = (Ok value, self'').
Proof.
  intros Hreach Hk Hins.
  destruct (HashTableSeparateChainingSpec.sc_reachable_wf _ _
              (HashTableSeparateChainingSpec.sc_init_wf n hf thr) Hreach)
    as (Hwf & _).
  destruct (HashTableSeparateChainingSpec.sc_insert_present _ _ _ _ Hwf Hk Hins)
    as [_ Hcount].
  split; [done|].
  destruct (HashTableSeparateChainingSpec.sc_insert_spec _ _ _ _ _ Hwf Hins)
    as (Hwf' & _ & _ & Hcontent).
  destruct (Hcontent eq_refl) as [Hkv _].
  destruct (HashTableSeparateChainingSpec.sc_search_found _ _ _ Hwf' Hkv) as [c Hc].
  eauto.
Qed.

(** Separate chaining, C4: in every reachable state no key is on two
    nodes, in one chain or in two. *)
Lemma sc_keys_unique n hf thr self :
  HashTableSeparateChaining.reachable
    (HashTableSeparateChaining.init n hf thr) self →
  NoDup (HashTableSeparateChaining.nodes self).*1
  ∧ ∀ b chain, HashTableSeparateChaining.buckets self !! b = Some chain →
      NoDup chain.*1.
Proof.
  intros Hreach.
  destruct (HashTableSeparateChainingSpec.sc_reachable_wf _ _
              (HashTableSeparateChainingSpec.sc_init_wf n hf thr) Hreach)
    as (Hwf & _).
  split; [apply Hwf|]. intros b chain Hb.
  by eapply HashTableSeparateChainingSpec.sc_wf_chain_nodup.
Qed.

(** Separate chaining, C5: after a [delete] that returns [True], [search]
    returns [None]; a [delete] that does not return [True] changes
    nothing, and when it returns [False] the key was absent. *)
Lemma sc_delete_then_search n hf thr self key r self' :
  HashTableSeparateChaining.reachable
    (HashTableSeparateChaining.init n hf thr) self →
  HashTableSeparateChaining.delete self key = (r, self') →
  (r = Ok true →
     ∃ self'', HashTableSeparateChaining.search self' key = (Ok PyNone, self''))
  ∧ (r ≠ Ok true → self' = self)
  ∧ (r = Ok false → key ∉ (HashTableSeparateChaining.nodes self).*1).
Proof.
  intros Hreach Hdel.
  destruct (HashTableSeparateChainingSpec.sc_reachable_wf _ _
              (HashTableSeparateChainingSpec.sc_init_wf n hf thr) Hreach)
    as (Hwf & _).
  destruct (HashTableSeparateChainingSpec.sc_delete_spec _ _ _ _ Hwf Hdel)
    as (Ht & Hf & Habs).
  split; [|done]. intros Hr.
  destruct (Ht Hr) as (_ & _ & _ & _ & Hgone & [b Hb] & _).
  destruct (HashTableSeparateChainingSpec.sc_search_absent _ _ _ Hb Hgone) as [c Hc].
  eauto.
Qed.

(** Open addressing, C5: a [delete] that does not return [True] changes
    nothing, counters included. *)
Lemma oa_delete_miss_unchanged self key r self' :
  HashTableOpenAddressing.delete self key = (r, self') →
  r ≠ Ok true → self' = self.
Proof.
  intros Hdel. by destruct (HashTableOpenAddressingSpec.oa_delete_spec _ _ _ _ Hdel).
Qed.

(** *** C6: the counters *)

(** C6 (as stated, refuted).  The specification has it that every probe step of
    [insert], [search] and [delete] adds one to the probe counter and
    every key comparison against an occupied slot adds one to the
    comparison counter.  [delete] has no counter code: on a table holding
    key 10 in slot 0, [delete(10)] probes slot 0, compares its key,
    returns [True], and leaves both counters where they were. *)
Lemma delete_does_not_count :
  let t0 := HashTableOpenAddressing.init 10 None "linear" (3 # 4) in
  let t1 := (HashTableOpenAddressing.insert t0 10 (PyStr "a")).2 in
  HashTableOpenAddressing.reachable t0 t1
  ∧ HashTableOpenAddressing._probe t1 10 0 = Ok 0
  ∧ HashTableOpenAddressing.table t1 !! 0%nat
    = Some (HashTableOpenAddressing.Entry 10 (PyStr "a"))
  ∧ ∃ t2, HashTableOpenAddressing.delete t1 10 = (Ok true, t2)
      ∧ HashTableOpenAddressing._probe_count t2
        = HashTableOpenAddressing._probe_count t1
      ∧ HashTableOpenAddressing._comparison_count t2
        = HashTableOpenAddressing._comparison_count t1.
Proof.
  intros t0 t1. split.
  { unfold t1. apply oa_reachable_insert, rtc_refl. }
  split; [vm_compute; reflexivity|]. split; [vm_compute; reflexivity|].
  eexists. split; [vm_compute; reflexivity|]. split; vm_compute; reflexivity.
Qed.

(** C6 (amended).  On the open-addressing table, every pass of the probe
    loop of [insert] and of [search] that gets its probe index adds
    exactly one to the probe counter; it adds exactly one to the comparison
    counter when the slot it examines holds a tuple ([insert], which takes
    an empty or tombstoned slot without comparing) or holds a tuple or a
    tombstone ([search]), and nothing otherwise.  [delete] changes neither
    counter.  The counter values never affect which slots are read or
    written or what an operation returns: started with [p] more probes and
    [c] more comparisons on the counters, [insert], [search] and [delete]
    return the same result and leave the same table, with [p] more probes
    and [c] more comparisons on the counters. *)
Theorem counters_write_only :
  (∀ self key value i index r self',
     HashTableOpenAddressing._probe self key i = Ok index →
     HashTableOpenAddressing.insert_body self key value i = (r, self') →
     HashTableOpenAddressing._probe_count self'
     = HashTableOpenAddressing._probe_count self + 1
     ∧ ∀ entry, HashTableOpenAddressing.examined self key i = Some entry →
         HashTableOpenAddressing._comparison_count self'
         = HashTableOpenAddressing._comparison_count self
           + (if HashTableOpenAddressing.is_entry entry then 1 else 0))
  ∧ (∀ self key i index r self',
     HashTableOpenAddressing._probe self key i = Ok index →
     HashTableOpenAddressing.search_body self key i = (r, self') →
     HashTableOpenAddressing._probe_count self'
     = HashTableOpenAddressing._probe_count self + 1
     ∧ ∀ entry, HashTableOpenAddressing.examined self key i = Some entry →
         HashTableOpenAddressing._comparison_count self'
         = HashTableOpenAddressing._comparison_count self
           + (match entry with HashTableOpenAddressing.Empty => 0 | _ => 1 end))
  ∧ (∀ self key r self',
     HashTableOpenAddressing.delete self key = (r, self') →
     HashTableOpenAddressing._probe_count self'
     = HashTableOpenAddressing._probe_count self
     ∧ HashTableOpenAddressing._comparison_count self'
       = HashTableOpenAddressing._comparison_count self)
  ∧ (∀ p c self key value,
     HashTableOpenAddressing.insert
       (HashTableOpenAddressing.shift p c self) key value
     = prod_map id (HashTableOpenAddressing.shift p c)
         (HashTableOpenAddressing.insert self key value))
  ∧ (∀ p c self key,
     HashTableOpenAddressing.search
       (HashTableOpenAddressing.shift p c self) key
     = prod_map id (HashTableOpenAddressing.shift p c)
         (HashTableOpenAddressing.search self key))
  ∧ (∀ p c self key,
     HashTableOpenAddressing.delete
       (HashTableOpenAddressing.shift p c self) key
     = prod_map id (HashTableOpenAddressing.shift p c)
         (HashTableOpenAddressing.delete self key)).
Proof.
  split; [exact HashTableOpenAddressingSpec.oa_insert_body_counters|].
  split; [exact HashTableOpenAddressingSpec.oa_search_body_counters|].
  split; [exact HashTableOpenAddressingSpec.oa_delete_counters|].
  split; [exact HashTableOpenAddressingSpec.oa_insert_shift|].
  split; [exact HashTableOpenAddressingSpec.oa_search_shift|].
  exact HashTableOpenAddressingSpec.oa_delete_shift.
Qed.

Lemma counters_write_only_witness :
  let t0 := HashTableOpenAddressing.init 10 None "linear" (3 # 4) in
  let t1 := (HashTableOpenAddressing.insert t0 10 (PyStr "a")).2 in
  let r := (HashTableOpenAddressing.insert_body t1 20 (PyStr "b") 0).1 in
  let t2 := (HashTableOpenAddressing.insert_body t1 20 (PyStr "b") 0).2 in
  (HashTableOpenAddressing._probe t1 20 0 = Ok 0
   ∧ HashTableOpenAddressing.insert_body t1 20 (PyStr "b") 0 = (r, t2))
  ∧ HashTableOpenAddressing._probe_count t2
    = HashTableOpenAddressing._probe_count t1 + 1.
Proof.
  intros t0 t1 r t2.
  assert (H1 : HashTableOpenAddressing._probe t1 20 0 = Ok 0)
    by (vm_compute; reflexivity).
  assert (H2 : HashTableOpenAddressing.insert_body t1 20 (PyStr "b") 0 = (r, t2))
    by apply surjective_pairing.
  split; [exact (conj H1 H2)|].
  exact (proj1 (proj1 counters_write_only t1 20 (PyStr "b") 0 0 r t2 H1 H2)).
Defined.

(** *** C7: chain lengths *)

(** C7 (as stated, refuted).  The specification covers every reachable state of a
    separate-chaining table.  The constructor takes any [size]:
    [HashTableSeparateChaining(-1)] has no bucket, [get_chain_lengths()]
    returns the empty list, of length 0, and [size] is -1; an [insert],
    which raises [IndexError], leaves it so. *)
Lemma chain_lengths_negative_size :
  let sc0 := HashTableSeparateChaining.init (-1) None 1 in
  let sc := (HashTableSeparateChaining.insert sc0 0 (PyInt 0)).2 in
  HashTableSeparateChaining.reachable sc0 sc
  ∧ (HashTableSeparateChaining.insert sc0 0 (PyInt 0)).1 = Raise IndexError
  ∧ HashTableSeparateChaining.get_chain_lengths sc0 = []
  ∧ HashTableSeparateChaining.get_chain_lengths sc = []
  ∧ HashTableSeparateChaining.size sc0 = -1
  ∧ HashTableSeparateChaining.size sc = -1
  ∧ HashTableSeparateChaining.py_len
      (HashTableSeparateChaining.get_chain_lengths sc0)
    ≠ HashTableSeparateChaining.size sc0
  ∧ HashTableSeparateChaining.py_len
      (HashTableSeparateChaining.get_chain_lengths sc)
    ≠ HashTableSeparateChaining.size sc.
Proof.
  intros sc0 sc. split.
  { apply rtc_once.
    apply (HashTableSeparateChaining.step_insert sc0 0 (PyInt 0)
             (HashTableSeparateChaining.insert sc0 0 (PyInt 0)).1 sc).
    by destruct (HashTableSeparateChaining.insert sc0 0 (PyInt 0)). }
  split; [vm_compute; reflexivity|]. split; [vm_compute; reflexivity|].
  split; [vm_compute; reflexivity|]. split; [vm_compute; reflexivity|].
  split; [vm_compute; reflexivity|].
  split; intros H; vm_compute in H; discriminate H.
Qed.

(** C7 (amended).  In every state of a separate-chaining table reachable
    from [HashTableSeparateChaining(n)] with [n >= 0], after any number of
    resizes, [get_chain_lengths()] has [size] elements and they add up to
    [count]. *)
Theorem chain_lengths_size_count n hf thr self :
  0 ≤ n →
  HashTableSeparateChaining.reachable
    (HashTableSeparateChaining.init n hf thr) self →
  HashTableSeparateChaining.py_len
    (HashTableSeparateChaining.get_chain_lengths self)
  = HashTableSeparateChaining.size self
  ∧ HashTableSeparateChaining.py_sum
      (HashTableSeparateChaining.get_chain_lengths self)
    = HashTableSeparateChaining.count self.
Proof.
  intros Hn Hreach.
  destruct (HashTableSeparateChainingSpec.sc_reachable_wf _ _
              (HashTableSeparateChainingSpec.sc_init_wf n hf thr) Hreach)
    as (Hwf & _ & Hsize).
  specialize (Hsize Hn).
  unfold HashTableSeparateChaining.py_len, HashTableSeparateChaining.get_chain_lengths.
  split.
  - rewrite length_fmap, (HashTableSeparateChaining.wf_length _ Hwf). lia.
  - rewrite HashTableSeparateChainingSpec.sc_py_sum_chain_lengths.
    symmetry. apply Hwf.
Qed.

Lemma chain_lengths_size_count_witness :
  let sc0 := HashTableSeparateChaining.init 5 None 1 in
  let sc := (HashTableSeparateChaining.insert_all sc0
               [(0, PyInt 0); (1, PyInt 1); (2, PyInt 2); (3, PyInt 3);
                (4, PyInt 4); (5, PyInt 5); (6, PyInt 6); (7, PyInt 7);
                (8, PyInt 8); (9, PyInt 9)]).2 in
  (0 ≤ 5 ∧ HashTableSeparateChaining.reachable sc0 sc)
  ∧ HashTableSeparateChaining.py_len
      (HashTableSeparateChaining.get_chain_lengths sc)
    = HashTableSeparateChaining.size sc
  ∧ HashTableSeparateChaining.py_sum
      (HashTableSeparateChaining.get_chain_lengths sc)
    = HashTableSeparateChaining.count sc.
Proof.
  intros sc0 sc.
  assert (H1 : 0 ≤ 5) by lia.
  assert (H2 : HashTableSeparateChaining.reachable sc0 sc)
    by apply sc_insert_all_reachable.
  split; [exact (conj H1 H2)|].
  exact (chain_lengths_size_count 5 None 1 sc H1 H2).
Defined.

(** The scenario of the specification: ten keys into a table of size 5
    leave [size = 10] and chain lengths that add up to 10. *)
Example chain_lengths_scenario :
  let sc := (HashTableSeparateChaining.insert_all
               (HashTableSeparateChaining.init 5 None 1)
               [(0, PyInt 0); (1, PyInt 1); (2, PyInt 2); (3, PyInt 3);
                (4, PyInt 4); (5, PyInt 5); (6, PyInt 6); (7, PyInt 7);
                (8, PyInt 8); (9, PyInt 9)]).2 in
  HashTableSeparateChaining.size sc = 10
  ∧ HashTableSeparateChaining.py_sum
      (HashTableSeparateChaining.get_chain_lengths sc) = 10.
Proof. vm_compute. by split. Qed.

(** * Further properties

    Properties of the hash functions and of the three tables beyond those
    above: results and errors at the edges, invariants, and how the
    operations compose. *)

(** ** Hash functions *)

Lemma py_mod_Ok (a b : Z) : b ≠ 0 → py_mod a b = Ok (a mod b).
Proof. intros Hb. unfold py_mod. by destruct (Z.eqb_spec b 0). Qed.

Lemma py_mod_zero (a : Z) : py_mod a 0 = Raise ZeroDivisionError.
Proof. done. Qed.

Lemma ord_nonneg (char : Ascii.ascii) : 0 ≤ ord char < 256.
Proof.
  unfold ord. pose proof (Ascii.N_ascii_bounded char). lia.
Qed.

Lemma string_hash_simple_loop_sum key : ∀ h,
  string_hash_simple_loop key h = h + foldr Z.add 0 (codes key).
Proof.
  induction key as [|c key IH]; intros h; simpl; [lia|]. rewrite IH. lia.
Qed.

Lemma foldr_add_perm (l1 l2 : list Z) :
  l1 ≡ₚ l2 → foldr Z.add 0 l1 = foldr Z.add 0 l2.
Proof. induction 1; simpl; lia. Qed.

Lemma polynomial_snoc (b : Z) (s : list Z) (c : Z) :
  polynomial b (s ++ [c]) = polynomial b s * b + c.
Proof.
  induction s as [|x s IH]; simpl; [lia|].
  rewrite IH, length_app. simpl.
  replace (Z.of_nat (length s + 1)) with (Z.succ (Z.of_nat (length s))) by lia.
  rewrite Z.pow_succ_r by lia. lia.
Qed.

Lemma mod_mul_add_idemp (x y z m : Z) :
  (x mod m * y + z) mod m = (x * y + z) mod m.
Proof. by rewrite <- Zplus_mod_idemp_l, Zmult_mod_idemp_l, Zplus_mod_idemp_l. Qed.

Lemma string_hash_polynomial_loop_value key m b : m ≠ 0 → ∀ (h : Z),
  string_hash_polynomial_loop key m b (h mod m)
  = Ok ((h * b ^ Z.of_nat (length (codes key)) + polynomial b (codes key)) mod m).
Proof.
  intros Hm. induction key as [|c key IH]; intros h.
  - cbn [string_hash_polynomial_loop codes polynomial length].
    do 2 f_equal. change (Z.of_nat 0) with 0. rewrite Z.pow_0_r. lia.
  - cbn [string_hash_polynomial_loop codes polynomial length].
    rewrite py_mod_Ok by done. rewrite IH. f_equal.
    replace (Z.of_nat (S (length (codes key))))
      with (Z.succ (Z.of_nat (length (codes key)))) by lia.
    rewrite Z.pow_succ_r by lia.
    set (n := b ^ Z.of_nat (length (codes key))).
    set (P := polynomial b (codes key)).
    replace ((h mod m * b + ord c) * n + P)
      with (h mod m * (b * n) + (ord c * n + P)) by lia.
    rewrite mod_mul_add_idemp. f_equal; lia.
Qed.

Lemma string_hash_djb2_loop_value key : ∀ h,
  string_hash_djb2_loop key h
  = h * 33 ^ Z.of_nat (length (codes key)) + polynomial 33 (codes key).
Proof.
  induction key as [|c key IH]; intros h; simpl; [lia|].
  rewrite IH, Z.shiftl_mul_pow2 by lia.
  replace (Z.of_nat (S (length (codes key))))
    with (Z.succ (Z.of_nat (length (codes key)))) by lia.
  rewrite Z.pow_succ_r by lia. lia.
Qed.

Lemma string_hash_polynomial_loop_zero key m b :
  m ≠ 0 →
  string_hash_polynomial_loop key m b 0 = Ok (polynomial b (codes key) mod m).
Proof.
  intros Hm. rewrite <- (Z.mod_0_l m) at 1 by done.
  rewrite string_hash_polynomial_loop_value by done.
  by rewrite Z.mul_0_l, Z.add_0_l.
Qed.

(** X1. For every key, every [a] and [b], every modulus [p] other than 0
    and every table size [m > 0], [universal_hash(key, m, a, b, p)] returns
    normally with a result in [[0, m)]; the parameters need not satisfy
    [1 <= a < p] or [0 <= b < p], and [p] need not be prime or positive. *)
Theorem universal_hash_range (key table_size a b p : Z) :
  0 < table_size → p ≠ 0 →
  ∃ r, universal_hash key table_size a b p = Ok r ∧ 0 ≤ r < table_size.
Proof.
  intros Hm Hp. unfold universal_hash.
  rewrite (py_mod_Ok _ p) by done. rewrite py_mod_Ok by lia.
  eexists. split; [reflexivity|]. by apply Z.mod_pos_bound.
Qed.

Lemma universal_hash_range_witness :
  (0 < 10 ∧ 101 ≠ 0)
  ∧ ∃ r, universal_hash (-42) 10 3 7 101 = Ok r ∧ 0 ≤ r < 10.
Proof.
  assert (H1 : 0 < 10) by lia.
  assert (H2 : 101 ≠ 0) by lia.
  split; [exact (conj H1 H2)|].
  exact (universal_hash_range (-42) 10 3 7 101 H1 H2).
Defined.

(** X2. [bad_hash_clustering] sends every key to 0, whatever the table
    size other than 0: all keys collide. *)
Theorem bad_hash_clustering_zero (key table_size : Z) :
  table_size ≠ 0 → bad_hash_clustering key table_size = Ok 0.
Proof.
  intros Hm. unfold bad_hash_clustering. rewrite py_mod_Ok by done.
  by rewrite Z.mod_mul.
Qed.

Lemma bad_hash_clustering_zero_witness :
  7 ≠ 0 ∧ bad_hash_clustering 12345 7 = Ok 0.
Proof.
  assert (H : 7 ≠ 0) by lia.
  split; [exact H|]. exact (bad_hash_clustering_zero 12345 7 H).
Defined.

(** X3. [string_hash_simple] does not depend on the order of the
    characters: two strings with the same characters in any order get the
    same result, a hash value or the [ZeroDivisionError], for every table
    size. *)
Theorem string_hash_simple_anagram (key1 key2 : string) (table_size : Z) :
  codes key1 ≡ₚ codes key2 →
  string_hash_simple key1 table_size = string_hash_simple key2 table_size.
Proof.
  intros Hperm. unfold string_hash_simple.
  rewrite !string_hash_simple_loop_sum.
  by rewrite (foldr_add_perm _ _ Hperm).
Qed.

Lemma string_hash_simple_anagram_witness :
  codes "listen" ≡ₚ codes "silent"
  ∧ string_hash_simple "listen" 11 = string_hash_simple "silent" 11.
Proof.
  assert (H : codes "listen" ≡ₚ codes "silent")
    by (apply (bool_decide_unpack _); vm_compute; reflexivity).
  split; [exact H|]. exact (string_hash_simple_anagram "listen" "silent" 11 H).
Defined.

(** X4. For a table size other than 0, [string_hash_polynomial] returns
    the polynomial of its docstring reduced once:
    [(s[0]*b^(n-1) + s[1]*b^(n-2) + ... + s[n-1]) mod m], although the loop
    reduces after every character. *)
Theorem string_hash_polynomial_value (key : string) (table_size : Z)
    (base : option Z) :
  table_size ≠ 0 →
  string_hash_polynomial key table_size base
  = Ok (polynomial (default 31 base) (codes key) mod table_size).
Proof.
  intros Hm. by apply string_hash_polynomial_loop_zero.
Qed.

Lemma string_hash_polynomial_value_witness :
  100 ≠ 0
  ∧ string_hash_polynomial "abc" 100 None
    = Ok (polynomial 31 (codes "abc") mod 100).
Proof.
  assert (H : 100 ≠ 0) by lia.
  split; [exact H|]. exact (string_hash_polynomial_value "abc" 100 None H).
Defined.

(** X5. [string_hash_djb2] of a string of [n] characters is
    [(5381 * 33^n + s[0]*33^(n-1) + ... + s[n-1]) mod m]: the shift and add
    of the loop is a multiplication by 33, and no intermediate value is
    truncated. *)
Theorem string_hash_djb2_value (key : string) (table_size : Z) :
  string_hash_djb2 key table_size
  = py_mod (5381 * 33 ^ Z.of_nat (length (codes key)) + polynomial 33 (codes key))
           table_size.
Proof. unfold string_hash_djb2. by rewrite string_hash_djb2_loop_value. Qed.

(** X6. For every string and every table size [m > 0] the three string
    hashes return normally with a result in [[0, m)]; for
    [string_hash_polynomial] this holds for every base. *)
Theorem string_hash_range (key : string) (table_size : Z) (base : option Z) :
  0 < table_size →
  (∃ r, string_hash_simple key table_size = Ok r ∧ 0 ≤ r < table_size)
  ∧ (∃ r, string_hash_polynomial key table_size base = Ok r
       ∧ 0 ≤ r < table_size)
  ∧ (∃ r, string_hash_djb2 key table_size = Ok r ∧ 0 ≤ r < table_size).
Proof.
  intros Hm. split; [|split].
  - unfold string_hash_simple. rewrite py_mod_Ok by lia.
    eexists. split; [reflexivity|]. by apply Z.mod_pos_bound.
  - unfold string_hash_polynomial.
    rewrite string_hash_polynomial_loop_zero by lia.
    eexists. split; [reflexivity|]. by apply Z.mod_pos_bound.
  - unfold string_hash_djb2. rewrite py_mod_Ok by lia.
    eexists. split; [reflexivity|]. by apply Z.mod_pos_bound.
Qed.

Lemma string_hash_range_witness :
  0 < 7
  ∧ ∃ r, string_hash_djb2 "hash" 7 = Ok r ∧ 0 ≤ r < 7.
Proof.
  assert (H : 0 < 7) by lia.
  split; [exact H|].
  exact (proj2 (proj2 (string_hash_range "hash" 7 None H))).
Defined.

(** X7. With table size 0 the hash functions raise [ZeroDivisionError]:
    [division_hash], [bad_hash_clustering], [string_hash_simple] and
    [string_hash_djb2] for every key, [universal_hash] also when only [p]
    is 0, and [string_hash_polynomial] for every key but the empty string,
    for which the loop body never runs and the result is 0. *)
Theorem hash_zero_table_size :
  (∀ key, division_hash key 0 = Raise ZeroDivisionError)
  ∧ (∀ key, bad_hash_clustering key 0 = Raise ZeroDivisionError)
  ∧ (∀ key table_size a b p, table_size = 0 ∨ p = 0 →
       universal_hash key table_size a b p = Raise ZeroDivisionError)
  ∧ (∀ key, string_hash_simple key 0 = Raise ZeroDivisionError)
  ∧ (∀ key, string_hash_djb2 key 0 = Raise ZeroDivisionError)
  ∧ (∀ key base, key ≠ String.EmptyString →
       string_hash_polynomial key 0 base = Raise ZeroDivisionError)
  ∧ (∀ base, string_hash_polynomial String.EmptyString 0 base = Ok 0).
Proof.
  split; [done|]. split; [done|]. split.
  { intros key m a b p [->| ->]; unfold universal_hash; [|done].
    unfold py_mod. by destruct (p =? 0). }
  split; [done|]. split; [done|]. split; [|done].
  intros [|c key] base Hne; [done|]. reflexivity.
Qed.

Lemma hash_zero_table_size_witness :
  ("a" ≠ String.EmptyString ∧ (10 = 0 ∨ 0 = 0))
  ∧ string_hash_polynomial "a" 0 None = Raise ZeroDivisionError
  ∧ universal_hash 5 10 1 0 0 = Raise ZeroDivisionError.
Proof.
  assert (H1 : "a" ≠ String.EmptyString) by discriminate.
  assert (H2 : 10 = 0 ∨ 0 = 0) by (right; reflexivity).
  split; [exact (conj H1 H2)|]. split.
  - exact (proj1 (proj2 (proj2 (proj2 (proj2 (proj2 hash_zero_table_size)))))
             "a" None H1).
  - exact (proj1 (proj2 (proj2 hash_zero_table_size)) 5 10 1 0 0 H2).
Defined.

(** ** Direct-address table *)

Lemma dat_search_total m self key :
  DirectAddressTable.wf m self →
  ∃ v, DirectAddressTable.search self key = Ok v.
Proof.
  intros Hwf. destruct (decide (0 ≤ key < m)) as [Hk|Hk].
  - destruct (DirectAddressTableSpec.dat_search_in_range m self key Hwf Hk)
      as (v & Hv & _).
    eauto.
  - exists PyNone. destruct Hwf as [Hs _]. unfold DirectAddressTable.search.
    by rewrite Hs, DirectAddressTableSpec.dat_in_range_false.
Qed.

Lemma dat_search_insert_ne m self k key value :
  DirectAddressTable.wf m self → 0 ≤ key < m → k ≠ key →
  DirectAddressTable.search
    {| DirectAddressTable.size := m;
       DirectAddressTable.table :=
         <[Z.to_nat key:=value]> (DirectAddressTable.table self) |} k
  = DirectAddressTable.search self k.
Proof.
  intros [Hs Hl] Hk Hne. unfold DirectAddressTable.search. simpl. rewrite Hs.
  destruct ((0 <=? k) && (k <? m)) eqn:E; [|done]. simpl.
  apply andb_true_iff in E as [E1%Z.leb_le E2%Z.ltb_lt].
  unfold py_getitem.
  rewrite !py_index_nonneg by (rewrite ?length_insert; lia).
  rewrite list_lookup_insert_ne by lia. done.
Qed.

(** X8. On every reachable direct-address table [delete] returns normally
    for every key, in range or not; [search] of that key then returns
    [None], and [search] of every other key returns what it returned
    before. *)
Theorem direct_address_delete_then_search (m : Z)
    (self : DirectAddressTable.t) (key : Z) :
  DirectAddressTable.reachable m self →
  ∃ self', DirectAddressTable.delete self key = (Ok tt, self')
    ∧ DirectAddressTable.search self' key = Ok PyNone
    ∧ ∀ k, k ≠ key →
        DirectAddressTable.search self' k = DirectAddressTable.search self k.
Proof.
  intros Hreach. apply DirectAddressTableSpec.dat_reachable_wf in Hreach as Hwf.
  pose proof Hwf as [Hs Hl].
  destruct (decide (0 ≤ key < m)) as [Hk|Hk].
  - eexists. split; [by apply (DirectAddressTableSpec.dat_delete_in_range m)|].
    split.
    + unfold DirectAddressTable.search. simpl.
      rewrite DirectAddressTableSpec.dat_in_range_true by done. simpl.
      unfold py_getitem. rewrite py_index_nonneg by (rewrite length_insert; lia).
      rewrite list_lookup_insert_eq by lia. done.
    + intros k Hne. by apply dat_search_insert_ne.
  - exists self. split; [|split; [|done]].
    + unfold DirectAddressTable.delete.
      by rewrite Hs, DirectAddressTableSpec.dat_in_range_false.
    + unfold DirectAddressTable.search.
      by rewrite Hs, DirectAddressTableSpec.dat_in_range_false.
Qed.

Lemma direct_address_delete_then_search_witness :
  let t0 := DirectAddressTable.init 100 in
  let t1 := (DirectAddressTable.insert t0 42 (PyStr "Bob")).2 in
  DirectAddressTable.reachable 100 t1
  ∧ ∃ self', DirectAddressTable.delete t1 42 = (Ok tt, self')
      ∧ DirectAddressTable.search self' 42 = Ok PyNone.
Proof.
  intros t0 t1.
  assert (H : DirectAddressTable.reachable 100 t1).
  { apply rtc_once. eapply DirectAddressTable.step_insert.
    apply surjective_pairing. }
  split; [exact H|].
  destruct (direct_address_delete_then_search 100 t1 42 H) as (self' & H1 & H2 & _).
  exists self'. exact (conj H1 H2).
Defined.

(** X9. On every reachable direct-address table [search] returns normally
    for every key, and a call of [insert], whether it stores its value or
    raises, leaves the result of [search] for every other key as it was. *)
Theorem direct_address_insert_frame (m : Z) (self : DirectAddressTable.t)
    (key : Z) (value : Any) (r : result unit) (self' : DirectAddressTable.t) :
  DirectAddressTable.reachable m self →
  DirectAddressTable.insert self key value = (r, self') →
  (∀ k, ∃ v, DirectAddressTable.search self k = Ok v)
  ∧ ∀ k, k ≠ key →
      DirectAddressTable.search self' k = DirectAddressTable.search self k.
Proof.
  intros Hreach Hins.
  apply DirectAddressTableSpec.dat_reachable_wf in Hreach as Hwf.
  pose proof Hwf as [Hs Hl].
  split; [intros k; by apply (dat_search_total m)|].
  intros k Hne. destruct (decide (0 ≤ key < m)) as [Hk|Hk].
  - rewrite (DirectAddressTableSpec.dat_insert_in_range m) in Hins by done.
    injection Hins as _ <-. by apply dat_search_insert_ne.
  - rewrite DirectAddressTableSpec.dat_insert_out_of_range in Hins
      by (by rewrite Hs).
    by injection Hins as _ <-.
Qed.

Lemma direct_address_insert_frame_witness :
  let t0 := DirectAddressTable.init 100 in
  let t1 := (DirectAddressTable.insert t0 5 (PyStr "Alice")).2 in
  let t2 := (DirectAddressTable.insert t1 42 (PyStr "Bob")).2 in
  (DirectAddressTable.reachable 100 t1
   ∧ DirectAddressTable.insert t1 42 (PyStr "Bob") = (Ok tt, t2))
  ∧ DirectAddressTable.search t2 5 = DirectAddressTable.search t1 5.
Proof.
  intros t0 t1 t2.
  assert (H1 : DirectAddressTable.reachable 100 t1).
  { apply rtc_once. eapply DirectAddressTable.step_insert.
    apply surjective_pairing. }
  assert (H2 : DirectAddressTable.insert t1 42 (PyStr "Bob") = (Ok tt, t2))
    by (vm_compute; reflexivity).
  split; [exact (conj H1 H2)|].
  refine (proj2 (direct_address_insert_frame 100 t1 42 (PyStr "Bob") (Ok tt) t2
                   H1 H2) 5 _).
  lia.
Defined.

(** ** Hash functions with results in range *)

Lemma division_hash_in_range : hash_in_range (λ k s, division_hash k s).
Proof.
  intros key s Hs. exists (key mod s). unfold division_hash.
  rewrite py_mod_Ok by lia. split; [done|]. by apply Z.mod_pos_bound.
Qed.

Lemma bad_hash_clustering_in_range : hash_in_range bad_hash_clustering.
Proof.
  intros key s Hs. exists 0. unfold bad_hash_clustering.
  rewrite py_mod_Ok by lia. rewrite Z.mod_mul by lia. split; [done|lia].
Qed.

(** ** Separate chaining *)

Section chaining_total.
Import HashTableSeparateChaining HashTableSeparateChainingSpec.
Implicit Types (self : t) (key : Z) (value : Any).

Lemma sc_good_home self key :
  good self →
  ∃ index b chain, hash_func self key (size self) = Ok index
    ∧ py_index (buckets self) index = Some b
    ∧ py_getitem (buckets self) index = Ok chain
    ∧ buckets self !! b = Some chain.
Proof.
  intros (Hwf & Hs & Hh). destruct (Hh key _ Hs) as (h & Hh1 & Hh2).
  assert (Hi : py_index (buckets self) h = Some (Z.to_nat h)).
  { apply py_index_nonneg. rewrite (wf_length _ Hwf). lia. }
  destruct (py_getitem_index _ _ _ Hi) as (chain & Hg & Hl).
  by exists h, (Z.to_nat h), chain.
Qed.

Lemma sc_insert_body_total self key value :
  good self → ∃ self', insert_body self key value = (Ok tt, self').
Proof.
  intros Hg. destruct (sc_good_home self key Hg) as (index & b & chain & H1 & H2 & H3 & H4).
  unfold insert_body. rewrite H1, H3.
  destruct (insert_scan chain key value) as [c [chain'|]]; simpl.
  - rewrite (py_setitem_index _ _ b) by done. eauto.
  - rewrite (py_setitem_index _ _ b) by done. eauto.
Qed.

Lemma sc_good_insert_body self key value self' :
  good self → insert_body self key value = (Ok tt, self') → good self'.
Proof.
  intros (Hwf & Hs & Hh) Hbody.
  destruct (sc_insert_body_spec _ _ _ _ _ Hwf Hbody)
    as ((Hwf' & [Hc _] & _) & Hsize & _).
  split; [done|]. split; [lia|]. by rewrite Hc.
Qed.

Lemma sc_good_doubled self : good self → good (doubled self).
Proof.
  intros (Hwf & Hs & Hh). split; [apply sc_doubled_wf|].
  split; [simpl; lia|done].
Qed.

Lemma sc_rehash_chain_total ins (m : nat) L :
  (∀ self key value, good self → (length (nodes self) < m)%nat →
     ∃ self', ins self key value = (Ok tt, self') ∧ good self'
       ∧ (length (nodes self') ≤ length (nodes self) + 1)%nat) →
  ∀ self, good self → (length (nodes self) + length L ≤ m)%nat →
  ∃ self', rehash_chain ins L self = (Ok tt, self') ∧ good self'.
Proof.
  intros Hins. induction L as [|[k v] L IH]; intros self Hg Hlen; simpl.
  - eauto.
  - simpl in Hlen.
    destruct (Hins self k v Hg) as (s1 & -> & Hg1 & Hn1); [lia|].
    apply IH; [done|lia].
Qed.

Lemma sc_insert_rec_total d : ∀ self key value,
  good self → (length (nodes self) < d)%nat →
  ∃ self', insert_rec d self key value = (Ok tt, self') ∧ good self'
    ∧ (length (nodes self') ≤ length (nodes self) + 1)%nat.
Proof.
  induction d as [|d IH]; intros self key value Hg Hd; [lia|].
  assert (Hnodes : ∀ self', insert_rec (S d) self key value = (Ok tt, self') →
            (length (nodes self') ≤ length (nodes self) + 1)%nat)
    by (intros; by eapply sc_insert_rec_nodes).
  revert Hnodes. simpl.
  pose proof Hg as (Hwf & Hs & Hh).
  unfold _load_factor, py_truediv. destruct (Z.eqb_spec (size self) 0) as [?|_]; [lia|].
  destruct (Qle_bool _ _).
  - rewrite sc_resize_unfold.
    destruct (sc_rehash_chain_total (insert_rec d) d (nodes self) IH
                (doubled self) (sc_good_doubled _ Hg)) as (s1 & -> & Hg1).
    { rewrite sc_nodes_doubled. simpl. lia. }
    destruct (sc_insert_body_total s1 key value Hg1) as (self' & Hbody).
    rewrite Hbody. intros Hnodes. exists self'. split; [done|].
    split; [by eapply sc_good_insert_body|by apply Hnodes].
  - destruct (sc_insert_body_total self key value Hg) as (self' & Hbody).
    rewrite Hbody. intros Hnodes. exists self'. split; [done|].
    split; [by eapply sc_good_insert_body|by apply Hnodes].
Qed.

Lemma sc_insert_total self key value :
  good self → ∃ self', insert self key value = (Ok tt, self') ∧ good self'.
Proof.
  intros Hg.
  destruct (sc_insert_rec_total (S (length (nodes self))) self key value Hg)
    as (self' & H1 & H2 & _); [lia|].
  eauto.
Qed.

Lemma sc_search_total self key :
  good self → ∃ v c, search self key = (Ok v, set_comparison_count self c).
Proof.
  intros Hg. destruct (sc_good_home self key Hg) as (index & b & chain & H1 & H2 & H3 & H4).
  unfold search. rewrite H1, H3.
  destruct (search_scan chain key) as [c v]. eauto.
Qed.

Lemma sc_delete_total self key :
  good self → ∃ b self', delete self key = (Ok b, self').
Proof.
  intros Hg. destruct (sc_good_home self key Hg) as (index & b & chain & H1 & H2 & H3 & H4).
  unfold delete. rewrite H1, H3.
  destruct chain as [|[k v] next]; [eauto|].
  destruct (k =? key).
  - rewrite (py_setitem_index _ _ b) by done. eauto.
  - destruct (delete_walk next key); [|eauto].
    rewrite (py_setitem_index _ _ b) by done. eauto.
Qed.

Lemma sc_good_counts self c : good self → good (set_comparison_count self c).
Proof.
  intros (Hwf & Hs & Hh). split; [by apply sc_wf_set_comparison_count|done].
Qed.

Lemma sc_step_good self self' : good self → step self self' → good self'.
Proof.
  intros Hg Hstep.
  destruct Hstep as [self key value r self' H|self key r self' H
                    |self key r self' H|self].
  - destruct (sc_insert_total self key value Hg) as (s1 & H1 & Hg1).
    rewrite H1 in H. by injection H as _ <-.
  - apply sc_search_counts_only in H as [c ->]. by apply sc_good_counts.
  - pose proof Hg as (Hwf & Hs & Hh).
    destruct (sc_delete_spec _ _ _ _ Hwf H) as (Ht & Hf & _).
    destruct r as [[|]|e].
    + destruct (Ht eq_refl) as (Hwf' & [Hc _] & Hsize & _).
      split; [done|]. split; [lia|]. by rewrite Hc.
    + by rewrite Hf.
    + by rewrite Hf.
  - by apply sc_good_counts.
Qed.

Lemma sc_reachable_good self0 self : good self0 → reachable self0 self → good self.
Proof.
  intros Hg H.
  apply (rtc_ind_r (R:=step) good self0); [exact Hg| |exact H].
  intros y z _ Hstep Hy. by eapply sc_step_good.
Qed.

Lemma sc_init_good n hf thr :
  0 < n → hash_in_range (default (λ k s, division_hash k s) hf) →
  good (init n hf thr).
Proof. intros Hn Hh. split; [apply sc_init_wf|]. split; [done|done]. Qed.

End chaining_total.

Section chaining_more.
Import HashTableSeparateChaining HashTableSeparateChainingSpec.
Implicit Types (self : t) (key : Z) (value : Any) (chain : list Node).

Lemma sc_reset_counts_set self c :
  reset_counts (set_comparison_count self c) = reset_counts self.
Proof. done. Qed.

Lemma sc_search_reset self key :
  reset_counts (search self key).2 = reset_counts self.
Proof.
  destruct (search self key) as [r self'] eqn:E.
  apply sc_search_counts_only in E as [c ->]. apply sc_reset_counts_set.
Qed.

Lemma sc_search_sound self key v self' :
  wf self → search self key = (Ok v, self') →
  (key, v) ∈ nodes self ∨ (v = PyNone ∧ key ∉ (nodes self).*1).
Proof.
  intros Hwf. unfold search.
  destruct (hash_func self key (size self)) as [index|e] eqn:Eh; [|done].
  destruct (py_getitem (buckets self) index) as [chain|e] eqn:Eg; [|done].
  apply py_getitem_Ok in Eg as (b & Hb & Hchain).
  destruct (search_scan chain key) as [c r] eqn:Es. intros [= <- _].
  pose proof (sc_search_scan_elem chain key) as Hscan. rewrite Es in Hscan.
  simpl in Hscan. destruct Hscan as [Hin|[-> Hout]].
  - left. apply sc_elem_of_concat_lookup. eauto.
  - right. split; [done|].
    eapply sc_key_not_in_nodes; [done| |done..].
    unfold home. by rewrite Eh.
Qed.

Lemma sc_delete_true_present self key self' :
  delete self key = (Ok true, self') → key ∈ (nodes self).*1.
Proof.
  unfold delete.
  destruct (hash_func self key (size self)) as [index|e]; [|done].
  destruct (py_getitem (buckets self) index) as [chain|e] eqn:Eg; [|done].
  apply py_getitem_Ok in Eg as (b & Hb & Hchain).
  assert (Hsub : ∀ n, n ∈ chain → n.1 ∈ (nodes self).*1).
  { intros n Hn. apply list_elem_of_fmap. exists n. split; [done|].
    apply sc_elem_of_concat_lookup. eauto. }
  destruct chain as [|[k v] next]; [done|].
  destruct (Z.eqb_spec k key) as [->|Hne].
  - intros _. apply (Hsub (key, v)), list_elem_of_here.
  - destruct (delete_walk next key) as [next'|] eqn:Ew; [|done].
    intros _. apply sc_delete_walk_Some in Ew as [v0 Hperm].
    apply (Hsub (key, v0)), list_elem_of_further. rewrite Hperm.
    apply list_elem_of_here.
Qed.

Lemma sc_search_scan_miss chain key :
  key ∉ chain.*1 → search_scan chain key = (Z.of_nat (length chain), PyNone).
Proof.
  induction chain as [|[k v] next IH]; [done|].
  rewrite fmap_cons, not_elem_of_cons. simpl. intros [Hne Hnext].
  destruct (Z.eqb_spec k key) as [->|_]; [done|].
  rewrite IH by done. f_equal. lia.
Qed.

Lemma sc_search_scan_hit (l1 l2 : list Node) key w :
  key ∉ l1.*1 →
  search_scan (l1 ++ (key, w) :: l2) key = (Z.of_nat (length l1) + 1, w).
Proof.
  induction l1 as [|[k v] l1 IH].
  - intros _. simpl. by rewrite Z.eqb_refl.
  - rewrite fmap_cons, not_elem_of_cons. simpl. intros [Hne Hnext].
    destruct (Z.eqb_spec k key) as [->|_]; [done|].
    rewrite IH by done. f_equal. lia.
Qed.

Lemma sc_delete_comparison_count self key :
  _comparison_count (delete self key).2 = _comparison_count self.
Proof.
  unfold delete.
  destruct (hash_func self key (size self)) as [index|e]; [|done].
  destruct (py_getitem (buckets self) index) as [[|[k v] next]|e]; [done| |done].
  destruct (k =? key).
  - by destruct (py_setitem (buckets self) index next).
  - destruct (delete_walk next key) as [next'|]; [|done].
    by destruct (py_setitem (buckets self) index ((k, v) :: next')).
Qed.

Lemma sc_all_nil_replicate {A} (ls : list (list A)) :
  (∀ b xs, ls !! b = Some xs → xs = []) → ls = replicate (length ls) [].
Proof.
  induction ls as [|xs ls IH]; intros H; [done|]. simpl. f_equal.
  - by apply (H 0%nat).
  - apply IH. intros b ys Hb. by apply (H (S b)).
Qed.

Lemma bad_hash_clustering_Ok (key table_size : Z) :
  table_size ≠ 0 → bad_hash_clustering key table_size = Ok 0.
Proof.
  intros Hm. unfold bad_hash_clustering. rewrite py_mod_Ok by done.
  by rewrite Z.mod_mul.
Qed.

Lemma sc_bad_hash_buckets self :
  good self → hash_func self = bad_hash_clustering →
  ∃ chain, buckets self = chain :: replicate (Z.to_nat (size self - 1)) []
    ∧ count self = Z.of_nat (length chain).
Proof.
  intros (Hwf & Hs & _) Hh.
  pose proof (wf_length _ Hwf) as Hlen.
  destruct (buckets self) as [|chain rest] eqn:Eb; [simpl in Hlen; lia|].
  assert (Hrest : ∀ b xs, rest !! b = Some xs → xs = []).
  { intros b [|n xs] Hb; [done|]. exfalso.
    assert (Hhome : home self n.1 = Some (S b)).
    { apply (wf_home _ Hwf (S b) (n :: xs)); [by rewrite Eb|apply list_elem_of_here]. }
    unfold home in Hhome. rewrite Hh, bad_hash_clustering_Ok in Hhome by lia.
    rewrite py_index_nonneg in Hhome by (rewrite Eb; simpl; lia). done. }
  apply sc_all_nil_replicate in Hrest.
  exists chain. split.
  - f_equal. rewrite Hrest. f_equal. simpl in Hlen. lia.
  - rewrite (wf_count _ Hwf). unfold nodes. rewrite Eb. simpl.
    rewrite Hrest, sc_concat_replicate_nil, app_nil_r. done.
Qed.

End chaining_more.

(** X10. On every reachable separate-chaining table [search] is exact: a
    key stored with value [v] is found with [v], and a [search] that
    returns normally returns the value stored with the key, or [None] when
    the key is not stored. *)
Theorem chaining_search_exact n hf thr self key :
  HashTableSeparateChaining.reachable
    (HashTableSeparateChaining.init n hf thr) self →
  (∀ v, (key, v) ∈ HashTableSeparateChaining.nodes self →
     ∃ self', HashTableSeparateChaining.search self key = (Ok v, self'))
  ∧ (∀ v self', HashTableSeparateChaining.search self key = (Ok v, self') →
       (key, v) ∈ HashTableSeparateChaining.nodes self
       ∨ (v = PyNone ∧ key ∉ (HashTableSeparateChaining.nodes self).*1)).
Proof.
  intros Hreach.
  destruct (HashTableSeparateChainingSpec.sc_reachable_wf _ _
              (HashTableSeparateChainingSpec.sc_init_wf n hf thr) Hreach)
    as (Hwf & _).
  split.
  - intros v Hv.
    destruct (HashTableSeparateChainingSpec.sc_search_found _ _ _ Hwf Hv) as [c Hc].
    eauto.
  - intros v self'. by apply sc_search_sound.
Qed.

Lemma chaining_search_exact_witness :
  let sc0 := HashTableSeparateChaining.init 10 None 1 in
  let sc := (HashTableSeparateChaining.insert_all sc0
               [(10, PyStr "a"); (22, PyStr "b"); (30, PyStr "c")]).2 in
  (HashTableSeparateChaining.reachable sc0 sc
   ∧ (30, PyStr "c") ∈ HashTableSeparateChaining.nodes sc)
  ∧ ∃ self', HashTableSeparateChaining.search sc 30 = (Ok (PyStr "c"), self').
Proof.
  intros sc0 sc.
  assert (H1 : HashTableSeparateChaining.reachable sc0 sc)
    by apply sc_insert_all_reachable.
  assert (H2 : (30, PyStr "c") ∈ HashTableSeparateChaining.nodes sc)
    by (apply list_elem_of_In; vm_compute; tauto).
  split; [exact (conj H1 H2)|].
  exact (proj1 (chaining_search_exact 10 None 1 sc 30 H1) (PyStr "c") H2).
Defined.

(** X11. On every reachable separate-chaining table an [insert] that
    returns normally leaves [count] as it was when the key was stored
    before and adds one when it was not; afterwards [search] returns the
    new value for the key, and every other key has the value it had, also
    when the call resized the table. *)
Theorem chaining_insert_effect n hf thr self key value self' :
  HashTableSeparateChaining.reachable
    (HashTableSeparateChaining.init n hf thr) self →
  HashTableSeparateChaining.insert self key value = (Ok tt, self') →
  (key ∈ (HashTableSeparateChaining.nodes self).*1 →
     HashTableSeparateChaining.count self' = HashTableSeparateChaining.count self)
  ∧ (key ∉ (HashTableSeparateChaining.nodes self).*1 →
     HashTableSeparateChaining.count self'
     = HashTableSeparateChaining.count self + 1)
  ∧ (∃ self'', HashTableSeparateChaining.search self' key = (Ok value, self''))
  ∧ (∀ k v, k ≠ key →
       (k, v) ∈ HashTableSeparateChaining.nodes self'
       ↔ (k, v) ∈ HashTableSeparateChaining.nodes self).
Proof.
  intros Hreach Hins.
  destruct (HashTableSeparateChainingSpec.sc_reachable_wf _ _
              (HashTableSeparateChainingSpec.sc_init_wf n hf thr) Hreach)
    as (Hwf & _).
  destruct (HashTableSeparateChainingSpec.sc_insert_spec _ _ _ _ _ Hwf Hins)
    as (Hwf' & _ & _ & Hcontent).
  destruct (Hcontent eq_refl) as [Hkv Hothers].
  split; [|split; [|split]].
  - intros Hk.
    by destruct (HashTableSeparateChainingSpec.sc_insert_present _ _ _ _ Hwf Hk Hins).
  - intros Hk.
    by apply (HashTableSeparateChainingSpec.sc_insert_absent _ _ _ _ Hwf Hk Hins).
  - destruct (HashTableSeparateChainingSpec.sc_search_found _ _ _ Hwf' Hkv) as [c Hc].
    eauto.
  - intros k v Hne. by apply (Hothers (k, v)).
Qed.

Lemma chaining_insert_effect_witness :
  let sc0 := HashTableSeparateChaining.init 10 None 1 in
  let sc := (HashTableSeparateChaining.insert_all sc0
               [(10, PyStr "a"); (22, PyStr "b"); (30, PyStr "c")]).2 in
  let sc' := (HashTableSeparateChaining.insert sc 10 (PyStr "z")).2 in
  (HashTableSeparateChaining.reachable sc0 sc
   ∧ HashTableSeparateChaining.insert sc 10 (PyStr "z") = (Ok tt, sc')
   ∧ 10 ∈ (HashTableSeparateChaining.nodes sc).*1)
  ∧ HashTableSeparateChaining.count sc' = HashTableSeparateChaining.count sc.
Proof.
  intros sc0 sc sc'.
  assert (H1 : HashTableSeparateChaining.reachable sc0 sc)
    by apply sc_insert_all_reachable.
  assert (H2 : HashTableSeparateChaining.insert sc 10 (PyStr "z") = (Ok tt, sc'))
    by (vm_compute; reflexivity).
  assert (H3 : 10 ∈ (HashTableSeparateChaining.nodes sc).*1)
    by (apply list_elem_of_In; vm_compute; tauto).
  split; [exact (conj H1 (conj H2 H3))|].
  exact (proj1 (chaining_insert_effect 10 None 1 sc 10 (PyStr "z") sc' H1 H2) H3).
Defined.

(** X12. On every reachable separate-chaining table [delete] returns
    [True] exactly for a stored key, among its normal returns: it then
    takes one off [count], keeps [size], [search] of the key returns
    [None] afterwards, and every other key keeps its value.  When [delete]
    returns [False] the key was not stored, and whenever it does not return
    [True] the table is unchanged. *)
Theorem chaining_delete_effect n hf thr self key r self' :
  HashTableSeparateChaining.reachable
    (HashTableSeparateChaining.init n hf thr) self →
  HashTableSeparateChaining.delete self key = (r, self') →
  (r = Ok true →
     key ∈ (HashTableSeparateChaining.nodes self).*1
     ∧ HashTableSeparateChaining.count self'
       = HashTableSeparateChaining.count self - 1
     ∧ HashTableSeparateChaining.size self' = HashTableSeparateChaining.size self
     ∧ (∃ self'', HashTableSeparateChaining.search self' key = (Ok PyNone, self''))
     ∧ (∀ k v, k ≠ key →
          (k, v) ∈ HashTableSeparateChaining.nodes self'
          ↔ (k, v) ∈ HashTableSeparateChaining.nodes self))
  ∧ (r = Ok false → key ∉ (HashTableSeparateChaining.nodes self).*1)
  ∧ (r ≠ Ok true → self' = self).
Proof.
  intros Hreach Hdel.
  destruct (HashTableSeparateChainingSpec.sc_reachable_wf _ _
              (HashTableSeparateChainingSpec.sc_init_wf n hf thr) Hreach)
    as (Hwf & _).
  destruct (HashTableSeparateChainingSpec.sc_delete_spec _ _ _ _ Hwf Hdel)
    as (Ht & Hf & Habs).
  split; [|by split]. intros ->.
  destruct (Ht eq_refl) as (_ & _ & Hsize & Hcount & Hgone & [b Hb] & Hothers).
  split; [by eapply sc_delete_true_present|].
  split; [done|]. split; [done|]. split.
  - destruct (HashTableSeparateChainingSpec.sc_search_absent _ _ _ Hb Hgone)
      as [c Hc].
    eauto.
  - intros k v Hne. by apply (Hothers (k, v)).
Qed.

Lemma chaining_delete_effect_witness :
  let sc0 := HashTableSeparateChaining.init 10 None 1 in
  let sc := (HashTableSeparateChaining.insert_all sc0
               [(10, PyStr "a"); (22, PyStr "b"); (30, PyStr "c")]).2 in
  let sc' := (HashTableSeparateChaining.delete sc 10).2 in
  (HashTableSeparateChaining.reachable sc0 sc
   ∧ HashTableSeparateChaining.delete sc 10 = (Ok true, sc'))
  ∧ HashTableSeparateChaining.count sc' = HashTableSeparateChaining.count sc - 1
  ∧ ∃ self'', HashTableSeparateChaining.search sc' 10 = (Ok PyNone, self'').
Proof.
  intros sc0 sc sc'.
  assert (H1 : HashTableSeparateChaining.reachable sc0 sc)
    by apply sc_insert_all_reachable.
  assert (H2 : HashTableSeparateChaining.delete sc 10 = (Ok true, sc'))
    by (vm_compute; reflexivity).
  split; [exact (conj H1 H2)|].
  destruct (proj1 (chaining_delete_effect 10 None 1 sc 10 (Ok true) sc' H1 H2)
              eq_refl) as (_ & Hc & _ & Hs & _).
  exact (conj Hc Hs).
Defined.

(** X13. A separate-chaining table built with [size > 0] and a hash
    function whose results are in range (the default division method is
    one) never raises: in every reachable state [insert], [search] and
    [delete] return normally for every key, through any number of
    resizes (the interpreter's recursion and memory limits apart). *)
Theorem chaining_never_raises n hf thr self key value :
  0 < n →
  hash_in_range (default (λ k s, division_hash k s) hf) →
  HashTableSeparateChaining.reachable
    (HashTableSeparateChaining.init n hf thr) self →
  (∃ self', HashTableSeparateChaining.insert self key value = (Ok tt, self'))
  ∧ (∃ v self', HashTableSeparateChaining.search self key = (Ok v, self'))
  ∧ (∃ b self', HashTableSeparateChaining.delete self key = (Ok b, self')).
Proof.
  intros Hn Hh Hreach.
  pose proof (sc_reachable_good _ _ (sc_init_good n hf thr Hn Hh) Hreach) as Hg.
  split; [|split].
  - destruct (sc_insert_total self key value Hg) as (self' & H & _). eauto.
  - destruct (sc_search_total self key Hg) as (v & c & H). eauto.
  - by apply sc_delete_total.
Qed.

Lemma chaining_never_raises_witness :
  let sc0 := HashTableSeparateChaining.init 2 None 1 in
  let sc := (HashTableSeparateChaining.insert_all sc0
               [(10, PyStr "a"); (22, PyStr "b"); (30, PyStr "c")]).2 in
  (0 < 2
   ∧ hash_in_range (default (λ k s, division_hash k s) None)
   ∧ HashTableSeparateChaining.reachable sc0 sc)
  ∧ ∃ self', HashTableSeparateChaining.insert sc (-7) PyNone = (Ok tt, self').
Proof.
  intros sc0 sc.
  assert (H1 : 0 < 2) by lia.
  assert (H2 : hash_in_range (default (λ k s, division_hash k s) None))
    by exact division_hash_in_range.
  assert (H3 : HashTableSeparateChaining.reachable sc0 sc)
    by apply sc_insert_all_reachable.
  split; [exact (conj H1 (conj H2 H3))|].
  exact (proj1 (chaining_never_raises 2 None 1 sc (-7) PyNone H1 H2 H3)).
Defined.

(** X14. With [bad_hash_clustering] as its hash function a
    separate-chaining table keeps every node in bucket 0: in every
    reachable state of a table built with [size > 0],
    [get_chain_lengths()] is [count] followed by [size - 1] zeros. *)
Theorem chaining_bad_hash_one_chain n thr self :
  0 < n →
  HashTableSeparateChaining.reachable
    (HashTableSeparateChaining.init n (Some bad_hash_clustering) thr) self →
  HashTableSeparateChaining.get_chain_lengths self
  = HashTableSeparateChaining.count self
    :: replicate (Z.to_nat (HashTableSeparateChaining.size self - 1)) 0.
Proof.
  intros Hn Hreach.
  pose proof (sc_reachable_good _ _
                (sc_init_good n (Some bad_hash_clustering) thr Hn
                   bad_hash_clustering_in_range) Hreach) as Hg.
  destruct (HashTableSeparateChainingSpec.sc_reachable_wf _ _
              (HashTableSeparateChainingSpec.sc_init_wf n _ thr) Hreach)
    as (_ & [Hh _] & _).
  destruct (sc_bad_hash_buckets self Hg Hh) as (chain & Hb & Hc).
  unfold HashTableSeparateChaining.get_chain_lengths. rewrite Hb, Hc.
  rewrite fmap_cons, fmap_replicate.
  by rewrite HashTableSeparateChainingSpec.sc_chain_length_length.
Qed.

Lemma chaining_bad_hash_one_chain_witness :
  let sc0 := HashTableSeparateChaining.init 4 (Some bad_hash_clustering) 1 in
  let sc := (HashTableSeparateChaining.insert_all sc0
               [(10, PyInt 10); (22, PyInt 22); (31, PyInt 31)]).2 in
  (0 < 4 ∧ HashTableSeparateChaining.reachable sc0 sc)
  ∧ HashTableSeparateChaining.get_chain_lengths sc = [3; 0; 0; 0].
Proof.
  intros sc0 sc.
  assert (H1 : 0 < 4) by lia.
  assert (H2 : HashTableSeparateChaining.reachable sc0 sc)
    by apply sc_insert_all_reachable.
  split; [exact (conj H1 H2)|].
  exact (chaining_bad_hash_one_chain 4 1 sc H1 H2).
Defined.

(** X15. [search] on a separate-chaining table compares the key with the
    nodes of its chain from the head up to the first node that has the
    key: the comparison counter goes up by the position of that node, or
    by the length of the chain when no node has the key and [None] is
    returned.  [delete] leaves the counter unchanged. *)
Theorem chaining_comparisons self key index chain :
  HashTableSeparateChaining.hash_func self key
    (HashTableSeparateChaining.size self) = Ok index →
  py_getitem (HashTableSeparateChaining.buckets self) index = Ok chain →
  (∃ v self', HashTableSeparateChaining.search self key = (Ok v, self')
     ∧ (key ∉ chain.*1 →
          v = PyNone
          ∧ HashTableSeparateChaining._comparison_count self'
            = HashTableSeparateChaining._comparison_count self
              + Z.of_nat (length chain))
     ∧ (∀ l1 w l2, chain = l1 ++ (key, w) :: l2 → key ∉ l1.*1 →
          v = w
          ∧ HashTableSeparateChaining._comparison_count self'
            = HashTableSeparateChaining._comparison_count self
              + Z.of_nat (length l1) + 1))
  ∧ HashTableSeparateChaining._comparison_count
      (HashTableSeparateChaining.delete self key).2
    = HashTableSeparateChaining._comparison_count self.
Proof.
  intros Hh Hg. split; [|apply sc_delete_comparison_count].
  unfold HashTableSeparateChaining.search. rewrite Hh, Hg.
  destruct (HashTableSeparateChaining.search_scan chain key) as [c v] eqn:Es.
  eexists _, _. split; [reflexivity|]. simpl. split.
  - intros Hk. rewrite sc_search_scan_miss in Es by done.
    injection Es as <- <-. done.
  - intros l1 w l2 -> Hk. rewrite sc_search_scan_hit in Es by done.
    injection Es as <- <-. split; [done|lia].
Qed.

Lemma chaining_comparisons_witness :
  let sc0 := HashTableSeparateChaining.init 10 None 1 in
  let sc := (HashTableSeparateChaining.insert_all sc0
               [(10, PyStr "a"); (20, PyStr "b"); (30, PyStr "c")]).2 in
  let chain := [(30, PyStr "c"); (20, PyStr "b"); (10, PyStr "a")] in
  (HashTableSeparateChaining.hash_func sc 20
     (HashTableSeparateChaining.size sc) = Ok 0
   ∧ py_getitem (HashTableSeparateChaining.buckets sc) 0 = Ok chain)
  ∧ HashTableSeparateChaining._comparison_count
      (HashTableSeparateChaining.delete sc 20).2
    = HashTableSeparateChaining._comparison_count sc.
Proof.
  intros sc0 sc chain.
  assert (H1 : HashTableSeparateChaining.hash_func sc 20
                 (HashTableSeparateChaining.size sc) = Ok 0)
    by (vm_compute; reflexivity).
  assert (H2 : py_getitem (HashTableSeparateChaining.buckets sc) 0 = Ok chain)
    by (vm_compute; reflexivity).
  split; [exact (conj H1 H2)|].
  exact (proj2 (chaining_comparisons sc 20 0 chain H1 H2)).
Defined.

(** X16. In every reachable state of a separate-chaining table every node
    is in the bucket that the hash function gives for its key at the
    current [size], also after resizes, and the hash function and the
    threshold are those the table was built with. *)
Theorem chaining_nodes_at_home n hf thr self :
  HashTableSeparateChaining.reachable
    (HashTableSeparateChaining.init n hf thr) self →
  (∀ b chain k v,
     HashTableSeparateChaining.buckets self !! b = Some chain →
     (k, v) ∈ chain →
     ∃ index,
       HashTableSeparateChaining.hash_func self k
         (HashTableSeparateChaining.size self) = Ok index
       ∧ py_index (HashTableSeparateChaining.buckets self) index = Some b)
  ∧ HashTableSeparateChaining.hash_func self
    = default (λ k s, division_hash k s) hf
  ∧ HashTableSeparateChaining.load_factor_threshold self = thr.
Proof.
  intros Hreach.
  destruct (HashTableSeparateChainingSpec.sc_reachable_wf _ _
              (HashTableSeparateChainingSpec.sc_init_wf n hf thr) Hreach)
    as (Hwf & [Hh Ht] & _).
  split; [|by split]. intros b chain k v Hb Hkv.
  pose proof (HashTableSeparateChaining.wf_home _ Hwf b chain (k, v) Hb Hkv)
    as Hhome.
  unfold HashTableSeparateChaining.home in Hhome. simpl in Hhome.
  destruct (HashTableSeparateChaining.hash_func self k
              (HashTableSeparateChaining.size self)) as [index|e]; [|done].
  eauto.
Qed.

Lemma chaining_nodes_at_home_witness :
  let sc0 := HashTableSeparateChaining.init 2 None 1 in
  let sc := (HashTableSeparateChaining.insert_all sc0
               [(10, PyStr "a"); (22, PyStr "b"); (31, PyStr "c")]).2 in
  HashTableSeparateChaining.reachable sc0 sc
  ∧ HashTableSeparateChaining.load_factor_threshold sc = 1%Q.
Proof.
  intros sc0 sc.
  assert (H1 : HashTableSeparateChaining.reachable sc0 sc)
    by apply sc_insert_all_reachable.
  split; [exact H1|].
  exact (proj2 (proj2 (chaining_nodes_at_home 2 None 1 sc H1))).
Defined.

(** ** Open addressing *)

Section open_addressing_more.
Import HashTableOpenAddressing HashTableOpenAddressingSpec.
Implicit Types (self : t) (key : Z) (value : Any) (tbl : list slot).

(** *** Tombstones and resizing *)







(** *** Tables that raise on every call *)

Lemma oa_rehash_no_entries ins L self :
  live L = 0%nat → rehash ins L self = (Ok tt, self).
Proof.
  induction L as [|s L IH]; [done|]. rewrite oa_live_cons.
  destruct s as [| |k v]; simpl; [apply IH|apply IH|lia].
Qed.

Lemma oa_probe_unknown self key i :
  probe_type self ≠ "linear" → probe_type self ≠ "quadratic" →
  probe_type self ≠ "double" → _probe self key i = Raise ValueError.
Proof.
  intros H1 H2 H3. unfold _probe.
  apply String.eqb_neq in H1, H2, H3. by rewrite H1, H2, H3.
Qed.

Lemma oa_unknown_calls self key value :
  probe_type self ≠ "linear" → probe_type self ≠ "quadratic" →
  probe_type self ≠ "double" →
  0 < size self → count self = 0 → live (table self) = 0%nat →
  search self key = (Raise ValueError, self)
  ∧ delete self key = (Raise ValueError, self)
  ∧ (insert self key value = (Raise ValueError, self)
     ∨ insert self key value = (Raise ValueError, doubled self)).
Proof.
  intros H1 H2 H3 Hs Hc Hl.
  destruct (Z.to_nat (size self)) as [|m] eqn:Em; [lia|].
  split; [|split].
  - unfold search. rewrite Em. simpl. unfold search_body.
    by rewrite oa_probe_unknown.
  - unfold delete. rewrite Em. simpl. unfold delete_body.
    by rewrite oa_probe_unknown.
  - unfold insert. rewrite Hl. simpl. unfold _load_factor, py_truediv.
    destruct (Z.eqb_spec (size self) 0) as [?|_]; [lia|].
    destruct (Qle_bool _ _).
    + right. rewrite oa_resize_unfold, oa_rehash_no_entries by done.
      destruct (Z.to_nat (size (doubled self))) as [|m'] eqn:Em';
        [simpl in Em'; lia|].
      simpl. unfold insert_body. by rewrite oa_probe_unknown.
    + left. rewrite Em. simpl. unfold insert_body. by rewrite oa_probe_unknown.
Qed.

Lemma oa_unknown_step pt self self' :
  pt ≠ "linear" → pt ≠ "quadratic" → pt ≠ "double" →
  (0 < size self ∧ probe_type self = pt ∧ count self = 0
   ∧ live (table self) = 0%nat) →
  step self self' →
  0 < size self' ∧ probe_type self' = pt ∧ count self' = 0
  ∧ live (table self') = 0%nat.
Proof.
  intros H1 H2 H3 (Hs & Hp & Hc & Hl) Hstep. subst pt.
  destruct Hstep as [self key value r self' H|self key r self' H
                    |self key r self' H|self].
  - destruct (oa_unknown_calls self key value H1 H2 H3 Hs Hc Hl)
      as (_ & _ & [Hi|Hi]); rewrite Hi in H; injection H as _ <-; [done|].
    split; [simpl; lia|]. split; [done|]. split; [done|apply oa_live_doubled].
  - destruct (oa_unknown_calls self key PyNone H1 H2 H3 Hs Hc Hl) as (Hi & _).
    rewrite Hi in H. by injection H as _ <-.
  - destruct (oa_unknown_calls self key PyNone H1 H2 H3 Hs Hc Hl) as (_ & Hi & _).
    rewrite Hi in H. by injection H as _ <-.
  - done.
Qed.

Lemma oa_unknown_reachable n hf pt thr self :
  pt ≠ "linear" → pt ≠ "quadratic" → pt ≠ "double" → 0 < n →
  reachable (init n hf pt thr) self →
  0 < size self ∧ probe_type self = pt ∧ count self = 0
  ∧ live (table self) = 0%nat.
Proof.
  intros H1 H2 H3 Hn H.
  apply (rtc_ind_r (R:=step)
           (λ s, 0 < size s ∧ probe_type s = pt ∧ count s = 0
                 ∧ live (table s) = 0%nat) (init n hf pt thr)); [| |exact H].
  - split; [done|]. split; [done|]. split; [done|]. apply oa_live_replicate_Empty.
  - intros y z _ Hstep Hy. by eapply oa_unknown_step.
Qed.

(** With one slot and double hashing the second hash divides by zero. *)
Lemma oa_double_one_calls hf thr key value :
  (0 < thr)%Q →
  let self := init 1 hf "double" thr in
  (∀ k, ∃ h, hash_func self k 1 = Ok h) →
  search self key = (Raise ZeroDivisionError, self)
  ∧ delete self key = (Raise ZeroDivisionError, self)
  ∧ insert self key value = (Raise ZeroDivisionError, self).
Proof.
  intros Hthr self Hh. destruct (Hh key) as [h Hk].
  assert (Hp : ∀ i, _probe self key i = Raise ZeroDivisionError).
  { intros i. unfold _probe, _double_hash. simpl.
    change (hash_func self key 1) with
      (default (λ k s, division_hash k s) hf key 1) in Hk.
    by rewrite Hk. }
  split; [|split].
  - unfold search. simpl. unfold search_body. by rewrite Hp.
  - unfold delete. simpl. unfold delete_body. by rewrite Hp.
  - unfold insert. rewrite oa_insert_rec_no_resize.
    + simpl. unfold insert_body. by rewrite Hp.
    + done.
    + unfold below. simpl.
      rewrite (py_float_zero (inject_Z 0 / inject_Z 1)) by reflexivity.
      by apply py_float_pos.
Qed.

Lemma oa_double_one_reachable hf thr self :
  (0 < thr)%Q →
  (∀ k, ∃ h, default (λ k s, division_hash k s) hf k 1 = Ok h) →
  reachable (init 1 hf "double" thr) self →
  self = init 1 hf "double" thr.
Proof.
  intros Hthr Hh H.
  apply (rtc_ind_r (R:=step) (λ s, s = init 1 hf "double" thr)
           (init 1 hf "double" thr)); [done| |exact H].
  intros y z _ Hstep Hy.
  destruct Hstep as [s key value r s' H'|s key r s' H'|s key r s' H'|s];
    subst s.
  - destruct (oa_double_one_calls hf thr key value Hthr Hh) as (_ & _ & Hi).
    rewrite Hi in H'. by injection H' as _ <-.
  - destruct (oa_double_one_calls hf thr key PyNone Hthr Hh) as (Hi & _).
    rewrite Hi in H'. by injection H' as _ <-.
  - destruct (oa_double_one_calls hf thr key PyNone Hthr Hh) as (_ & Hi & _).
    rewrite Hi in H'. by injection H' as _ <-.
  - done.
Qed.

End open_addressing_more.

(** [size] keeps its sign: it is doubled or left as it is. *)
Lemma oa_rehash_sign ins L :
  HashTableOpenAddressing.insert_keeps ins →
  (∀ self key value r self',
     HashTableOpenAddressing.wf self → ins self key value = (r, self') →
     (0 ≤ HashTableOpenAddressing.size self'
      ↔ 0 ≤ HashTableOpenAddressing.size self)) →
  ∀ self r self',
    HashTableOpenAddressing.wf self →
    HashTableOpenAddressing.rehash ins L self = (r, self') →
    (0 ≤ HashTableOpenAddressing.size self'
     ↔ 0 ≤ HashTableOpenAddressing.size self).
Proof.
  intros Hkeeps Hins.
  induction L as [|[| |k v] L IH]; intros self r self' Hwf; simpl;
    try apply (IH _ _ _ Hwf).
  - by intros [= <- <-].
  - destruct (ins self k v) as [[u|e] s1] eqn:E;
      destruct (Hkeeps _ _ _ _ _ Hwf E) as [Hwf1 _];
      pose proof (Hins _ _ _ _ _ Hwf E) as Hs1.
    + intros Hrest. rewrite <- Hs1. by apply (IH _ _ _ Hwf1 Hrest).
    + by intros [= <- <-].
Qed.

Lemma oa_insert_rec_sign d : ∀ self key value r self',
  HashTableOpenAddressing.wf self →
  HashTableOpenAddressing.insert_rec d self key value = (r, self') →
  (0 ≤ HashTableOpenAddressing.size self'
   ↔ 0 ≤ HashTableOpenAddressing.size self).
Proof.
  induction d as [|d IH]; intros self key value r self' Hwf; simpl.
  - by intros [= <- <-].
  - destruct (HashTableOpenAddressing._load_factor self) as [lf|e];
      [|by intros [= <- <-]].
    destruct (Qle_bool
                (py_float (HashTableOpenAddressing.load_factor_threshold self)) lf).
    + rewrite HashTableOpenAddressingSpec.oa_resize_unfold.
      destruct (HashTableOpenAddressing.rehash
                  (HashTableOpenAddressing.insert_rec d)
                  (HashTableOpenAddressing.table self)
                  (HashTableOpenAddressing.doubled self))
        as [[u|e] s1] eqn:E;
        destruct (HashTableOpenAddressingSpec.oa_rehash_wf _ _
                    (HashTableOpenAddressingSpec.oa_insert_rec_wf d) _ _ _
                    (HashTableOpenAddressingSpec.oa_doubled_wf self) E)
          as [Hwf1 _];
        pose proof (oa_rehash_sign _ _
                      (HashTableOpenAddressingSpec.oa_insert_rec_wf d) IH _ _ _
                      (HashTableOpenAddressingSpec.oa_doubled_wf self) E) as Hs1;
        change (HashTableOpenAddressing.size (HashTableOpenAddressing.doubled self))
          with (HashTableOpenAddressing.size self * 2) in Hs1.
      * intros Hloop.
        destruct (HashTableOpenAddressingSpec.oa_insert_loop_wf _ _ _ _ _ _ _
                    Hwf1 Hloop) as (_ & _ & Hsize & _).
        rewrite Hsize. lia.
      * intros [= <- <-]. lia.
    + intros Hloop.
      destruct (HashTableOpenAddressingSpec.oa_insert_loop_wf _ _ _ _ _ _ _
                  Hwf Hloop) as (_ & _ & Hsize & _).
      by rewrite Hsize.
Qed.

Lemma oa_reachable_sign self0 self :
  HashTableOpenAddressing.wf self0 →
  HashTableOpenAddressing.reachable self0 self →
  (0 ≤ HashTableOpenAddressing.size self
   ↔ 0 ≤ HashTableOpenAddressing.size self0).
Proof.
  intros Hwf0 H.
  apply (rtc_ind_r (R:=HashTableOpenAddressing.step)
           (λ s, HashTableOpenAddressing.wf s
                 ∧ (0 ≤ HashTableOpenAddressing.size s
                    ↔ 0 ≤ HashTableOpenAddressing.size self0)) self0);
    [done| |exact H].
  intros y z _ Hstep [Hwf Hs].
  split; [by destruct (HashTableOpenAddressingSpec.oa_step_wf _ _ Hwf Hstep)|].
  rewrite <- Hs.
  destruct Hstep as [s key value r s' Hc|s key r s' Hc|s key r s' Hc|s].
  - by apply (oa_insert_rec_sign _ _ _ _ _ _ Hwf Hc).
  - apply HashTableOpenAddressingSpec.oa_search_counts,
      HashTableOpenAddressingSpec.oa_counts_only_fields in Hc as (-> & _).
    done.
  - apply HashTableOpenAddressingSpec.oa_delete_spec in Hc as [Hsame Hdel].
    destruct r as [[|]|e].
    + destruct (Hdel eq_refl Hwf) as (_ & _ & -> & _). done.
    + by rewrite Hsame.
    + by rewrite Hsame.
  - done.
Qed.

(** X17. In every reachable state of an open-addressing table, after any
    calls whatever their outcome, [len(table)] is [max(size, 0)]: it is
    [size] when the table was built with [size >= 0], and the table has no
    slot and [size] is still negative when it was built with a negative
    [size].  [count] is the number of slots that hold a tuple, and the hash
    function, the probe type and the threshold are those the table was
    built with. *)
Theorem open_addressing_count_is_live n hf pt thr self :
  HashTableOpenAddressing.reachable
    (HashTableOpenAddressing.init n hf pt thr) self →
  Z.of_nat (length (HashTableOpenAddressing.table self))
  = Z.max (HashTableOpenAddressing.size self) 0
  ∧ (0 ≤ n →
     Z.of_nat (length (HashTableOpenAddressing.table self))
     = HashTableOpenAddressing.size self)
  ∧ (n < 0 →
     HashTableOpenAddressing.size self < 0
     ∧ HashTableOpenAddressing.table self = [])
  ∧ HashTableOpenAddressing.count self
    = Z.of_nat (HashTableOpenAddressing.live (HashTableOpenAddressing.table self))
  ∧ HashTableOpenAddressing.hash_func self
    = default (λ k s, division_hash k s) hf
  ∧ HashTableOpenAddressing.probe_type self = pt
  ∧ HashTableOpenAddressing.load_factor_threshold self = thr.
Proof.
  intros Hreach.
  pose proof (HashTableOpenAddressingSpec.oa_init_wf n hf pt thr) as Hwf0.
  destruct (HashTableOpenAddressingSpec.oa_reachable_wf _ _ Hwf0 Hreach)
    as ([Hlen Hcnt] & Hh & Hp & Ht).
  pose proof (oa_reachable_sign _ _ Hwf0 Hreach) as Hsign. simpl in Hsign.
  split; [lia|]. split; [lia|]. split; [|done].
  intros Hn. split; [lia|].
  apply length_zero_iff_nil. lia.
Qed.

Lemma open_addressing_count_is_live_witness :
  let t0 := HashTableOpenAddressing.init 10 None "linear" (3 # 4) in
  let t1 := (HashTableOpenAddressing.insert t0 0 (PyStr "a")).2 in
  let t2 := (HashTableOpenAddressing.insert t1 10 (PyStr "b")).2 in
  let t3 := (HashTableOpenAddressing.delete t2 0).2 in
  let t4 := (HashTableOpenAddressing.insert t3 10 (PyStr "c")).2 in
  HashTableOpenAddressing.reachable t0 t4
  ∧ Z.of_nat (length (HashTableOpenAddressing.table t4))
    = HashTableOpenAddressing.size t4
  ∧ HashTableOpenAddressing.count t4
    = Z.of_nat (HashTableOpenAddressing.live (HashTableOpenAddressing.table t4)).
Proof.
  intros t0 t1 t2 t3 t4.
  assert (H : HashTableOpenAddressing.reachable t0 t4).
  { unfold t4. apply oa_reachable_insert.
    unfold t3. apply oa_reachable_delete.
    unfold t2. apply oa_reachable_insert.
    unfold t1. apply oa_reachable_insert. apply rtc_refl. }
  split; [exact H|].
  destruct (open_addressing_count_is_live 10 None "linear" (3 # 4) t4 H)
    as (_ & Hlen & _ & Hcnt & _).
  split; [apply Hlen; lia|exact Hcnt].
Defined.

(** A table built with a negative [size]: after an [insert], which
    raises, there is still no slot. *)
Example open_addressing_negative_size :
  let t0 := HashTableOpenAddressing.init (-3) None "linear" (3 # 4) in
  let t1 := (HashTableOpenAddressing.insert t0 1 (PyStr "a")).2 in
  HashTableOpenAddressing.reachable t0 t1
  ∧ HashTableOpenAddressing.size t1 = -3
  ∧ HashTableOpenAddressing.table t1 = [].
Proof.
  intros t0 t1. split; [|split; vm_compute; reflexivity].
  unfold t1. apply oa_reachable_insert. apply rtc_refl.
Qed.



(** X19. [HashTableOpenAddressing] accepts any [probe_type]; with a name
    other than 'linear', 'quadratic' and 'double' and [size > 0] the table
    is built but can hold nothing: in every reachable state [insert],
    [search] and [delete] raise [ValueError] for every key, and [count]
    stays 0. *)
Theorem open_addressing_unknown_probe_type n hf pt thr self key value :
  pt ≠ "linear" → pt ≠ "quadratic" → pt ≠ "double" → 0 < n →
  HashTableOpenAddressing.reachable
    (HashTableOpenAddressing.init n hf pt thr) self →
  HashTableOpenAddressing.search self key = (Raise ValueError, self)
  ∧ HashTableOpenAddressing.delete self key = (Raise ValueError, self)
  ∧ (∃ self', HashTableOpenAddressing.insert self key value
              = (Raise ValueError, self'))
  ∧ HashTableOpenAddressing.count self = 0.
Proof.
  intros H1 H2 H3 Hn Hreach.
  destruct (oa_unknown_reachable n hf pt thr self H1 H2 H3 Hn Hreach)
    as (Hs & Hp & Hc & Hl).
  subst pt.
  destruct (oa_unknown_calls self key value H1 H2 H3 Hs Hc Hl)
    as (Hsearch & Hdelete & Hinsert).
  split; [done|]. split; [done|]. split; [|done].
  destruct Hinsert as [->| ->]; eauto.
Qed.

Lemma open_addressing_unknown_probe_type_witness :
  let t0 := HashTableOpenAddressing.init 10 None "cubic" (3 # 4) in
  ("cubic" ≠ "linear" ∧ "cubic" ≠ "quadratic" ∧ "cubic" ≠ "double" ∧ 0 < 10
   ∧ HashTableOpenAddressing.reachable t0 t0)
  ∧ HashTableOpenAddressing.search t0 5 = (Raise ValueError, t0).
Proof.
  intros t0.
  assert (H1 : "cubic" ≠ "linear") by discriminate.
  assert (H2 : "cubic" ≠ "quadratic") by discriminate.
  assert (H3 : "cubic" ≠ "double") by discriminate.
  assert (H4 : 0 < 10) by lia.
  assert (H5 : HashTableOpenAddressing.reachable t0 t0) by apply rtc_refl.
  split; [exact (conj H1 (conj H2 (conj H3 (conj H4 H5))))|].
  exact (proj1 (open_addressing_unknown_probe_type 10 None "cubic" (3 # 4) t0 5
                  PyNone H1 H2 H3 H4 H5)).
Defined.

(** X20. [HashTableOpenAddressing(1, probe_type='double')] with the
    default hash function and a positive threshold is unusable:
    [_double_hash] computes [key % (size - 1)], a division by zero, so in
    every reachable state [insert], [search] and [delete] raise
    [ZeroDivisionError] for every key and the table stays as it was
    built. *)
Theorem open_addressing_double_hash_one_slot thr self key value :
  (0 < thr)%Q →
  HashTableOpenAddressing.reachable
    (HashTableOpenAddressing.init 1 None "double" thr) self →
  self = HashTableOpenAddressing.init 1 None "double" thr
  ∧ HashTableOpenAddressing.insert self key value
    = (Raise ZeroDivisionError, self)
  ∧ HashTableOpenAddressing.search self key = (Raise ZeroDivisionError, self)
  ∧ HashTableOpenAddressing.delete self key = (Raise ZeroDivisionError, self).
Proof.
  intros Hthr Hreach.
  assert (Hh : ∀ k, ∃ h, default (λ k s, division_hash k s) None k 1 = Ok h)
    by (intros k; by eexists).
  rewrite (oa_double_one_reachable None thr self Hthr Hh Hreach).
  destruct (oa_double_one_calls None thr key value Hthr Hh) as (H1 & H2 & H3).
  done.
Qed.

Lemma open_addressing_double_hash_one_slot_witness :
  let t0 := HashTableOpenAddressing.init 1 None "double" (3 # 4) in
  ((0 < 3 # 4)%Q ∧ HashTableOpenAddressing.reachable t0 t0)
  ∧ HashTableOpenAddressing.insert t0 7 (PyStr "x")
    = (Raise ZeroDivisionError, t0).
Proof.
  intros t0.
  assert (H1 : (0 < 3 # 4)%Q) by reflexivity.
  assert (H2 : HashTableOpenAddressing.reachable t0 t0) by apply rtc_refl.
  split; [exact (conj H1 H2)|].
  exact (proj1 (proj2 (open_addressing_double_hash_one_slot (3 # 4) t0 7
                         (PyStr "x") H1 H2))).
Defined.

(** X21. Tables built with [size <= 0] have no slot.  On a fresh
    open-addressing table [search] returns [None] and [delete] returns
    [False] without a probe, and [insert] raises: [ZeroDivisionError] from
    the load factor when [size] is 0, "Hash table is full"
    ([RuntimeError]) when [size] is negative.  On a fresh
    separate-chaining table with the default hash function every call
    raises: [ZeroDivisionError] when [size] is 0, [IndexError] when [size]
    is negative. *)
Theorem empty_table_calls n pt thr key value :
  n ≤ 0 →
  let oa := HashTableOpenAddressing.init n None pt thr in
  let sc := HashTableSeparateChaining.init n None thr in
  HashTableOpenAddressing.search oa key = (Ok PyNone, oa)
  ∧ HashTableOpenAddressing.delete oa key = (Ok false, oa)
  ∧ (∃ oa', HashTableOpenAddressing.insert oa key value
            = (Raise (if n =? 0 then ZeroDivisionError else RuntimeError), oa'))
  ∧ (∃ sc', HashTableSeparateChaining.insert sc key value
            = (Raise (if n =? 0 then ZeroDivisionError else IndexError), sc'))
  ∧ HashTableSeparateChaining.search sc key
    = (Raise (if n =? 0 then ZeroDivisionError else IndexError), sc)
  ∧ HashTableSeparateChaining.delete sc key
    = (Raise (if n =? 0 then ZeroDivisionError else IndexError), sc).
Proof.
  intros Hn oa sc. subst oa sc.
  unfold HashTableOpenAddressing.init, HashTableSeparateChaining.init.
  rewrite !(py_repeat_nonpos _ n Hn).
  assert (Htn : Z.to_nat n = 0%nat) by lia.
  assert (Hidx : ∀ (A : Type) i, py_getitem ([] : list A) i = Raise IndexError).
  { intros A i. unfold py_getitem.
    destruct (py_index [] i) as [j|]; [|done]. by destruct j. }
  split; [|split; [|split; [|split; [|split]]]].
  - unfold HashTableOpenAddressing.search. simpl. by rewrite Htn.
  - unfold HashTableOpenAddressing.delete. simpl. by rewrite Htn.
  - unfold HashTableOpenAddressing.insert. simpl.
    unfold HashTableOpenAddressing._load_factor, py_truediv. simpl.
    destruct (Z.eqb_spec n 0) as [->|Hne]; [eauto|].
    destruct (Qle_bool _ _).
    + unfold HashTableOpenAddressing._resize. simpl.
      replace (Z.to_nat (n * 2)) with 0%nat by lia. eauto.
    + simpl. rewrite Htn. eauto.
  - unfold HashTableSeparateChaining.insert,
      HashTableSeparateChaining.nodes. simpl.
    unfold HashTableSeparateChaining._load_factor, py_truediv. simpl.
    destruct (Z.eqb_spec n 0) as [->|Hne]; [eauto|].
    destruct (Qle_bool _ _).
    + unfold HashTableSeparateChaining._resize. simpl.
      unfold HashTableSeparateChaining.insert_body. simpl.
      unfold division_hash. rewrite py_mod_Ok by lia.
      rewrite (py_repeat_nonpos _ (n * 2)) by lia.
      rewrite Hidx. eauto.
    + unfold HashTableSeparateChaining.insert_body. simpl.
      unfold division_hash. rewrite py_mod_Ok by lia.
      rewrite Hidx. eauto.
  - unfold HashTableSeparateChaining.search. simpl. unfold division_hash.
    destruct (Z.eqb_spec n 0) as [->|Hne]; [done|].
    rewrite py_mod_Ok by lia. by rewrite Hidx.
  - unfold HashTableSeparateChaining.delete. simpl. unfold division_hash.
    destruct (Z.eqb_spec n 0) as [->|Hne]; [done|].
    rewrite py_mod_Ok by lia. by rewrite Hidx.
Qed.

Lemma empty_table_calls_witness :
  0 ≤ 0
  ∧ HashTableOpenAddressing.search
      (HashTableOpenAddressing.init 0 None "linear" (3 # 4)) 5
    = (Ok PyNone, HashTableOpenAddressing.init 0 None "linear" (3 # 4))
  ∧ HashTableSeparateChaining.search
      (HashTableSeparateChaining.init 0 None 1) 5
    = (Raise ZeroDivisionError, HashTableSeparateChaining.init 0 None 1).
Proof.
  assert (H : 0 ≤ 0) by lia.
  split; [exact H|].
  pose proof (empty_table_calls 0 "linear" (3 # 4) 5 PyNone H) as (H1 & _).
  pose proof (empty_table_calls 0 "linear" 1 5 PyNone H)
    as (_ & _ & _ & _ & H2 & _).
  exact (conj H1 H2).
Defined.

Section open_addressing_inserts.
Import HashTableOpenAddressing HashTableOpenAddressingSpec.
Implicit Types (self : t) (key : Z) (value : Any) (tbl : list slot).

(** *** Tables that have seen no [delete] *)







(** A run of [insert] calls from a table without tombstones: every key
    ends up with the value of its last pair. *)
Lemma oa_insert_all_last kvs : ∀ self self',
  tidy self → insert_all self kvs = (Ok tt, self') →
  tidy self'
  ∧ (∀ l1 k v l2, kvs = l1 ++ (k, v) :: l2 → k ∉ l2.*1 → holds self' k v)
  ∧ (∀ k v, k ∉ kvs.*1 → (holds self' k v ↔ holds self k v)).
Proof.
  induction kvs as [|[k0 v0] kvs IH]; intros self self' Ht; simpl.
  - intros [= <-]. split; [done|]. split; [|done].
    intros l1 k v l2 H. by destruct l1.
  - destruct (insert self k0 v0) as [[[]|e] s1] eqn:E; [|done].
    intros Hrest.
    destruct (oa_insert_rec_tidy _ _ _ _ _ Ht E) as (Ht1 & Hkv1 & Hothers1).
    destruct (IH _ _ Ht1 Hrest) as (Ht' & Hlast & Hout).
    split; [done|]. split.
    + intros [|x l1] k v l2 Heq Hk.
      * assert (k = k0 ∧ v = v0 ∧ l2 = kvs) as (-> & -> & ->)
          by (simpl in Heq; by simplify_eq).
        by apply Hout.
      * assert (kvs = l1 ++ (k, v) :: l2) as Hkvs
          by (simpl in Heq; by simplify_eq).
        by eapply Hlast.
    + intros k v [Hne Hk]%not_elem_of_cons. rewrite (Hout k v Hk).
      by apply Hothers1.
Qed.

(** [search] returns a stored value of the key, or [None]. *)
Lemma oa_search_body_sound self key i v self' :
  search_body self key i = (Ok (Return v), self') →
  holds self key v ∨ v = PyNone.
Proof.
  unfold search_body.
  destruct (_probe self key i) as [index|e]; [|done]. simpl.
  destruct (py_getitem (table self) index) as [entry|e] eqn:Hget; [|done].
  apply py_getitem_Ok in Hget as (j & _ & Hj).
  destruct entry as [| |k w].
  - intros [= <- _]. by right.
  - done.
  - destruct (Z.eqb_spec k key) as [->|_]; [|done].
    intros [= <- _]. left. apply oa_holds_lookup. eauto.
Qed.

Lemma oa_search_loop_sound n : ∀ self key i v self',
  search_loop n self key i = (Ok v, self') → holds self key v ∨ v = PyNone.
Proof.
  induction n as [|n IH]; intros self key i v self'; simpl.
  - intros [= <- _]. by right.
  - destruct (search_body self key i) as [[[w|]|e] s1] eqn:E.
    + intros [= <- _]. by eapply oa_search_body_sound.
    + intros Hrest. apply IH in Hrest.
      apply oa_search_body_counts, oa_counts_only_fields in E
        as (_ & _ & Htbl & _).
      unfold holds in *. by rewrite <- Htbl.
    + done.
Qed.

Lemma oa_search_sound self key v self' :
  search self key = (Ok v, self') → holds self key v ∨ v = PyNone.
Proof. apply oa_search_loop_sound. Qed.

End open_addressing_inserts.

Lemma last_binding (kvs : list (Z * Any)) (k : Z) :
  k ∈ kvs.*1 → ∃ l1 v l2, kvs = l1 ++ (k, v) :: l2 ∧ k ∉ l2.*1.
Proof.
  induction kvs as [|[k0 v0] kvs IH]; [by intros ?%elem_of_nil|].
  rewrite fmap_cons, elem_of_cons. simpl. intros Hk.
  destruct (decide (k ∈ kvs.*1)) as [Hin|Hout].
  - destruct (IH Hin) as (l1 & v & l2 & -> & Hl2).
    by exists ((k0, v0) :: l1), v, l2.
  - destruct Hk as [->|Hin]; [|done]. by exists [], v0, kvs.
Qed.

Lemma oa_init_no_key n hf pt thr k v :
  ¬ HashTableOpenAddressing.holds (HashTableOpenAddressing.init n hf pt thr) k v.
Proof.
  unfold HashTableOpenAddressing.holds. simpl. unfold py_repeat.
  by intros [? _]%elem_of_replicate.
Qed.

(** X22. On an open-addressing table that has seen inserts only, with
    any probe type, the value inserted last for a key is the one found:
    after a list of pairs, keys repeated or not, has been inserted with
    every call returning normally, [search(k)] returns the value of the
    last pair with key [k], and a [search] that returns normally for a key
    that was never inserted returns [None]. *)
Theorem open_addressing_last_insert_wins n hf pt thr kvs self' :
  HashTableOpenAddressing.insert_all
    (HashTableOpenAddressing.init n hf pt thr) kvs = (Ok tt, self') →
  (∀ l1 k v l2, kvs = l1 ++ (k, v) :: l2 → k ∉ l2.*1 →
     ∃ self'', HashTableOpenAddressing.search self' k = (Ok v, self''))
  ∧ (∀ k v self'', k ∉ kvs.*1 →
       HashTableOpenAddressing.search self' k = (Ok v, self'') → v = PyNone).
Proof.
  intros Hrun.
  destruct (oa_insert_all_last kvs _ _
              (HashTableOpenAddressingSpec.oa_init_tidy n hf pt thr) Hrun)
    as (Ht & Hlast & Hout).
  split.
  - intros l1 k v l2 Heq Hk.
    apply HashTableOpenAddressingSpec.oa_search_tidy; [done|by eapply Hlast].
  - intros k v self'' Hk Hsearch.
    destruct (oa_search_sound _ _ _ _ Hsearch) as [Hh|Hv]; [|done].
    apply (Hout k v Hk) in Hh. by apply oa_init_no_key in Hh.
Qed.

Lemma open_addressing_last_insert_wins_witness :
  let kvs := [(10, PyStr "a"); (22, PyStr "b"); (10, PyStr "c");
              (4, PyStr "d"); (22, PyStr "e")] in
  let t0 := HashTableOpenAddressing.init 7 None "quadratic" (3 # 4) in
  let t := (HashTableOpenAddressing.insert_all t0 kvs).2 in
  (HashTableOpenAddressing.insert_all t0 kvs = (Ok tt, t)
   ∧ kvs = [(10, PyStr "a"); (22, PyStr "b")] ++ (10, PyStr "c")
           :: [(4, PyStr "d"); (22, PyStr "e")]
   ∧ 10 ∉ [(4, PyStr "d"); (22, PyStr "e")].*1)
  ∧ ∃ self'', HashTableOpenAddressing.search t 10 = (Ok (PyStr "c"), self'').
Proof.
  intros kvs t0 t.
  assert (H1 : HashTableOpenAddressing.insert_all t0 kvs = (Ok tt, t))
    by (vm_compute; reflexivity).
  assert (H2 : kvs = [(10, PyStr "a"); (22, PyStr "b")] ++ (10, PyStr "c")
                     :: [(4, PyStr "d"); (22, PyStr "e")]) by reflexivity.
  assert (H3 : 10 ∉ [(4, PyStr "d"); (22, PyStr "e")].*1).
  { intros H. apply list_elem_of_In in H. vm_compute in H.
    destruct H as [H|[H|[]]]; discriminate H. }
  split; [exact (conj H1 (conj H2 H3))|].
  exact (proj1 (open_addressing_last_insert_wins 7 None "quadratic" (3 # 4)
                  kvs t H1) _ 10 (PyStr "c") _ H2 H3).
Defined.



Section open_addressing_linear.
Import HashTableOpenAddressing HashTableOpenAddressingSpec.
Implicit Types (self : t) (key : Z) (value : Any) (tbl : list slot).

(** *** Linear probing reaches every slot *)

Lemma oa_free_slot tbl :
  (live tbl < length tbl)%nat → ∃ j s, tbl !! j = Some s ∧ is_entry s = false.
Proof.
  induction tbl as [|s tbl IH]; [simpl; lia|].
  rewrite oa_live_cons. destruct (is_entry s) eqn:E.
  - simpl. intros H. destruct IH as (j & s' & Hj & Hs'); [lia|].
    by exists (S j), s'.
  - intros _. by exists 0%nat, s.
Qed.

Lemma oa_linear_probe self key i :
  linear_good self →
  ∃ h entry, hash_func self key (size self) = Ok h
    ∧ _probe self key i = Ok ((h + i) mod size self)
    ∧ py_index (table self) ((h + i) mod size self)
      = Some (Z.to_nat ((h + i) mod size self))
    ∧ py_getitem (table self) ((h + i) mod size self) = Ok entry
    ∧ table self !! Z.to_nat ((h + i) mod size self) = Some entry.
Proof.
  intros (Hwf & Hs & Hp & Hh & _). destruct (Hh key _ Hs) as (h & Hh1 & _).
  pose proof (Z.mod_pos_bound (h + i) (size self) Hs) as Hb.
  assert (Hi : py_index (table self) ((h + i) mod size self)
               = Some (Z.to_nat ((h + i) mod size self))).
  { apply py_index_nonneg. rewrite (wf_length _ Hwf). lia. }
  destruct (py_getitem_index _ _ _ Hi) as (entry & Hg & Hl).
  exists h, entry. split; [done|]. split; [|done].
  unfold _probe, _linear_probe. rewrite Hp. simpl. rewrite Hh1.
  apply py_mod_Ok. lia.
Qed.

Lemma oa_linear_good_eq self self' :
  wf self' → size self' = size self → same_config self self' →
  linear_good self → linear_good self'.
Proof.
  intros Hwf' Hs (Hh & Hp & Ht) (_ & ? & ? & ? & ?).
  split; [done|]. by rewrite Hs, Hh, Hp, Ht.
Qed.

Lemma oa_linear_good_shift p c self : linear_good self → linear_good (shift p c self).
Proof. intros ([H1 H2] & ?). split; [by split|done]. Qed.

(** The loop of [insert] returns when a probe that is still to come lands
    on a slot without a tuple. *)
Lemma oa_insert_loop_linear key value n : ∀ self (i : nat),
  linear_good self →
  (∃ (i0 : nat) h s, (i ≤ i0 < i + n)%nat
     ∧ hash_func self key (size self) = Ok h
     ∧ table self !! Z.to_nat ((h + Z.of_nat i0) mod size self) = Some s
     ∧ is_entry s = false) →
  ∃ self', insert_loop n self key value (Z.of_nat i) = (Ok tt, self').
Proof.
  induction n as [|n IH]; intros self i Hg (i0 & h & s & Hi0 & Hh & Hs & Hfree);
    [lia|].
  simpl.
  destruct (oa_linear_probe self key (Z.of_nat i) Hg)
    as (h' & entry & Hh' & Hprobe & Hidx & Hget & Hj).
  assert (h' = h) as -> by congruence.
  unfold insert_body. rewrite Hprobe. simpl. rewrite Hget.
  destruct entry as [| |k v].
  - rewrite (py_setitem_index _ _ _ _ Hidx). eauto.
  - rewrite (py_setitem_index _ _ _ _ Hidx). eauto.
  - destruct (Z.eqb_spec k key) as [->|Hne]; simpl.
    + rewrite (py_setitem_index _ _ _ _ Hidx). eauto.
    + change (set_comparison_count _ _) with (shift 1 1 self).
      rewrite oa_insert_loop_shift.
      replace (Z.of_nat i + 1) with (Z.of_nat (S i)) by lia.
      destruct (IH self (S i) Hg) as [self' Hself'].
      * exists i0, h, s. split; [|done].
        destruct (decide (i0 = i)) as [->|?]; [|lia].
        rewrite Hj in Hs. by injection Hs as <-.
      * rewrite Hself'. simpl. eauto.
Qed.

Lemma oa_insert_loop_linear_room self key value :
  linear_good self → (live (table self) < Z.to_nat (size self))%nat →
  ∃ self', insert_loop (Z.to_nat (size self)) self key value 0 = (Ok tt, self')
    ∧ linear_good self' ∧ size self' = size self
    ∧ (live (table self') ≤ live (table self) + 1)%nat.
Proof.
  intros Hg Hroom. pose proof Hg as (Hwf & Hs & Hp & Hh & Ht).
  destruct (oa_free_slot (table self)) as (j & s & Hj & Hfree);
    [by rewrite (wf_length _ Hwf)|].
  destruct (Hh key _ Hs) as (h & Hh1 & _).
  assert (Hjlt : Z.of_nat j < size self).
  { apply lookup_lt_Some in Hj. rewrite (wf_length _ Hwf) in Hj. lia. }
  destruct (oa_insert_loop_linear key value (Z.to_nat (size self)) self 0 Hg)
    as [self' Hself'].
  { exists (Z.to_nat ((Z.of_nat j - h) mod size self)), h, s.
    pose proof (Z.mod_pos_bound (Z.of_nat j - h) (size self) Hs) as Hb.
    split; [lia|]. split; [done|]. split; [|done].
    rewrite Z2Nat.id by lia. rewrite Zplus_mod_idemp_r.
    replace (h + (Z.of_nat j - h)) with (Z.of_nat j) by lia.
    rewrite Z.mod_small by lia. by rewrite Nat2Z.id. }
  exists self'. split; [exact Hself'|].
  destruct (oa_insert_loop_wf _ _ _ _ _ _ _ Hwf Hself')
    as (Hwf' & Hc & Hsize & _ & Hlive).
  split; [by eapply oa_linear_good_eq|done].
Qed.

Lemma oa_linear_good_doubled self : linear_good self → linear_good (doubled self).
Proof.
  intros (Hwf & Hs & Hp & Hh & Ht). split; [apply oa_doubled_wf|].
  split; [simpl; lia|done].
Qed.

Lemma oa_rehash_linear ins (m : nat) L :
  (∀ self key value, linear_good self → (live (table self) < m)%nat →
     ∃ self', ins self key value = (Ok tt, self') ∧ linear_good self'
       ∧ size self ≤ size self'
       ∧ (live (table self') ≤ live (table self) + 1)%nat) →
  ∀ self, linear_good self → (live (table self) + live L ≤ m)%nat →
  ∃ self', rehash ins L self = (Ok tt, self') ∧ linear_good self'
    ∧ size self ≤ size self'
    ∧ (live (table self') ≤ live (table self) + live L)%nat.
Proof.
  intros Hins. induction L as [|s L IH]; intros self Hg Hlen.
  { exists self. simpl. split; [done|]. split; [done|]. split; lia. }
  rewrite oa_live_cons in Hlen |- *. destruct s as [| |k v]; simpl in *.
  - by apply IH.
  - by apply IH.
  - destruct (Hins self k v Hg) as (s1 & -> & Hg1 & Hs1 & Hl1); [lia|].
    destruct (IH s1 Hg1) as (self' & Hr & Hg' & Hs' & Hl'); [lia|].
    exists self'. split; [done|]. split; [done|]. split; lia.
Qed.

Lemma oa_load_below_room self :
  linear_good self →
  below (load_factor_threshold self) (count self) (size self) →
  (live (table self) < Z.to_nat (size self))%nat.
Proof.
  intros (Hwf & Hs & _ & _ & Ht) Hlt.
  assert (count self < size self).
  { destruct (Z.lt_ge_cases (count self) (size self)) as [|Hge]; [done|exfalso].
    apply (reached_exact _ _ _) in Hlt; [done|].
    pose proof (quotient_le 1 1 (count self) (size self)) as Hq.
    assert (1 <= inject_Z 1 / inject_Z 1)%Q by (unfold Qle; simpl; lia).
    assert (inject_Z 1 / inject_Z 1
            <= inject_Z (count self) / inject_Z (size self))%Q
      by (apply Hq; lia).
    lra. }
  rewrite (wf_count _ Hwf) in *. lia.
Qed.

Lemma oa_insert_rec_linear d : ∀ self key value,
  linear_good self → (live (table self) < d)%nat →
  ∃ self', insert_rec d self key value = (Ok tt, self') ∧ linear_good self'
    ∧ size self ≤ size self'
    ∧ (live (table self') ≤ live (table self) + 1)%nat.
Proof.
  induction d as [|d IH]; intros self key value Hg Hd; [lia|].
  pose proof Hg as (Hwf & Hs & Hp & Hh & Ht). simpl.
  destruct (oa_load_test self) as (lf & -> & Hlf); [lia|].
  destruct (Qle_bool (py_float (load_factor_threshold self)) lf) eqn:E.
  - rewrite oa_resize_unfold.
    destruct (oa_rehash_linear (insert_rec d) d (table self) IH (doubled self)
                (oa_linear_good_doubled _ Hg)) as (s1 & -> & Hg1 & Hs1 & Hl1).
    { rewrite oa_live_doubled. simpl. lia. }
    rewrite oa_live_doubled in Hl1. simpl in Hs1, Hl1.
    pose proof (oa_live_le_length (table self)) as Hle.
    rewrite (wf_length _ Hwf) in Hle.
    destruct (oa_insert_loop_linear_room s1 key value Hg1)
      as (self' & Hloop & Hg' & Hsize & Hlive); [lia|].
    exists self'. split; [done|]. split; [done|]. split; lia.
  - destruct (oa_insert_loop_linear_room self key value Hg)
      as (self' & Hloop & Hg' & Hsize & Hlive).
    { apply oa_load_below_room; [done|]. by apply Hlf. }
    exists self'. split; [done|]. split; [done|]. split; lia.
Qed.

Lemma oa_insert_linear self key value :
  linear_good self →
  ∃ self', insert self key value = (Ok tt, self') ∧ linear_good self'.
Proof.
  intros Hg.
  destruct (oa_insert_rec_linear (S (live (table self))) self key value Hg)
    as (self' & H1 & H2 & _); [lia|].
  eauto.
Qed.

Lemma oa_search_loop_linear key n : ∀ self i,
  linear_good self → ∃ v self', search_loop n self key i = (Ok v, self').
Proof.
  induction n as [|n IH]; intros self i Hg; simpl; [eauto|].
  destruct (oa_linear_probe self key i Hg)
    as (h & entry & Hh & Hprobe & Hidx & Hget & Hj).
  unfold search_body. rewrite Hprobe. simpl. rewrite Hget.
  destruct entry as [| |k v]; [eauto| |].
  - change (set_comparison_count _ _) with (shift 1 1 self).
    apply IH. by apply oa_linear_good_shift.
  - destruct (k =? key); [eauto|].
    change (set_comparison_count _ _) with (shift 1 1 self).
    apply IH. by apply oa_linear_good_shift.
Qed.

Lemma oa_delete_loop_linear key n : ∀ self i,
  linear_good self → ∃ b self', delete_loop n self key i = (Ok b, self').
Proof.
  induction n as [|n IH]; intros self i Hg; simpl; [eauto|].
  destruct (oa_linear_probe self key i Hg)
    as (h & entry & Hh & Hprobe & Hidx & Hget & Hj).
  unfold delete_body. rewrite Hprobe, Hget.
  destruct entry as [| |k v]; [eauto|by apply IH|].
  destruct (k =? key); [|by apply IH].
  rewrite (py_setitem_index _ _ _ _ Hidx). eauto.
Qed.

Lemma oa_step_linear self self' : linear_good self → step self self' → linear_good self'.
Proof.
  intros Hg Hstep. pose proof Hg as (Hwf & _).
  destruct Hstep as [self key value r self' H|self key r self' H
                    |self key r self' H|self].
  - destruct (oa_insert_linear self key value Hg) as (s1 & H1 & Hg1).
    rewrite H1 in H. by injection H as _ <-.
  - apply oa_search_counts in H.
    pose proof (oa_counts_only_wf _ _ H Hwf) as Hwf'.
    pose proof (oa_counts_only_config _ _ H) as Hc.
    apply oa_counts_only_fields in H as (Hs & _).
    by eapply oa_linear_good_eq.
  - destruct (oa_delete_spec _ _ _ _ H) as (Hf & Ht).
    destruct r as [[|]|e]; [|by rewrite Hf..].
    destruct (Ht eq_refl Hwf) as (Hwf' & Hc & Hs & _).
    by eapply oa_linear_good_eq.
  - apply (oa_linear_good_eq self); [|done|done|done].
    destruct Hwf as [H1 H2]. by split.
Qed.

Lemma oa_reachable_linear self0 self :
  linear_good self0 → reachable self0 self → linear_good self.
Proof.
  intros Hg H.
  apply (rtc_ind_r (R:=step) linear_good self0); [exact Hg| |exact H].
  intros y z _ Hstep Hy. by eapply oa_step_linear.
Qed.

Lemma oa_init_linear n hf thr :
  0 < n → (thr <= 1)%Q →
  hash_in_range (default (λ k s, division_hash k s) hf) →
  linear_good (init n hf "linear" thr).
Proof. intros Hn Ht Hh. split; [apply oa_init_wf|done]. Qed.

End open_addressing_linear.

(** X24. An open-addressing table with linear probing, built with
    [size > 0], a threshold of at most 1 and a hash function whose results
    are in range (the default is one), never raises: in every reachable
    state [insert] returns normally, "Hash table is full" included among
    the errors that cannot happen, and so do [search] and [delete], for
    every key (the interpreter's recursion and memory limits apart). *)
Theorem open_addressing_linear_never_raises n hf thr self key value :
  0 < n → (thr <= 1)%Q →
  hash_in_range (default (λ k s, division_hash k s) hf) →
  HashTableOpenAddressing.reachable
    (HashTableOpenAddressing.init n hf "linear" thr) self →
  (∃ self', HashTableOpenAddressing.insert self key value = (Ok tt, self'))
  ∧ (∃ v self', HashTableOpenAddressing.search self key = (Ok v, self'))
  ∧ (∃ b self', HashTableOpenAddressing.delete self key = (Ok b, self')).
Proof.
  intros Hn Ht Hh Hreach.
  pose proof (oa_reachable_linear _ _ (oa_init_linear n hf thr Hn Ht Hh) Hreach)
    as Hg.
  split; [|split].
  - destruct (oa_insert_linear self key value Hg) as (self' & H & _). eauto.
  - by apply oa_search_loop_linear.
  - by apply oa_delete_loop_linear.
Qed.

Lemma open_addressing_linear_never_raises_witness :
  let t0 := HashTableOpenAddressing.init 2 None "linear" 1 in
  let t := (HashTableOpenAddressing.insert_all t0
              [(0, PyInt 0); (2, PyInt 2)]).2 in
  (0 < 2 ∧ (1 <= 1)%Q
   ∧ hash_in_range (default (λ k s, division_hash k s) None)
   ∧ HashTableOpenAddressing.reachable t0 t)
  ∧ HashTableOpenAddressing.count t = HashTableOpenAddressing.size t
  ∧ ∃ self', HashTableOpenAddressing.insert t 4 (PyInt 4) = (Ok tt, self').
Proof.
  intros t0 t.
  assert (H1 : 0 < 2) by lia.
  assert (H2 : (1 <= 1)%Q) by (vm_compute; discriminate).
  assert (H3 : hash_in_range (default (λ k s, division_hash k s) None))
    by exact division_hash_in_range.
  assert (H4 : HashTableOpenAddressing.reachable t0 t)
    by apply oa_insert_all_reachable.
  split; [exact (conj H1 (conj H2 (conj H3 H4)))|].
  split; [vm_compute; reflexivity|].
  exact (proj1 (open_addressing_linear_never_raises 2 None 1 t 4 (PyInt 4)
                  H1 H2 H3 H4)).
Defined.

Section open_addressing_deletes.
Import HashTableOpenAddressing HashTableOpenAddressingSpec.
Implicit Types (self : t) (key : Z) (value : Any) (tbl : list slot).

(** *** Deletes after the inserts *)

(** The table with the tuple in slot [j] turned into a tombstone. *)
Lemma oa_delete_body_true self key i self' :
  delete_body self key i = (Ok (Return true), self') →
  ∃ j v, table self !! j = Some (Entry key v)
    ∧ self' = set_count (set_table self (<[j:=DELETED]> (table self)))
                        (count self - 1).
Proof.
  unfold delete_body.
  destruct (_probe self key i) as [index|e]; [|done].
  destruct (py_getitem (table self) index) as [entry|e] eqn:Hget; [|done].
  apply py_getitem_Ok in Hget as (j & Hidx & Hj).
  destruct entry as [| |k v]; [done..|].
  destruct (Z.eqb_spec k key) as [->|_]; [|done].
  rewrite (py_setitem_index _ _ _ _ Hidx). intros [= <-]. eauto.
Qed.

Lemma oa_delete_loop_true n : ∀ self key i self',
  delete_loop n self key i = (Ok true, self') →
  ∃ j v, table self !! j = Some (Entry key v)
    ∧ self' = set_count (set_table self (<[j:=DELETED]> (table self)))
                        (count self - 1).
Proof.
  induction n as [|n IH]; intros self key i self'; simpl; [done|].
  destruct (delete_body self key i) as [[[b|]|e] s1] eqn:E.
  - intros [= -> <-]. by eapply oa_delete_body_true.
  - destruct (oa_delete_body_spec _ _ _ _ _ E) as [Hsame _].
    rewrite Hsame by done. apply IH.
  - done.
Qed.

Lemma oa_tidy_settled self : tidy self → settled self.
Proof.
  intros Ht. split.
  - apply Ht.
  - intros j1 j2 k v1 v2 H1 H2. by eapply oa_tidy_unique.
  - intros j k v Hj.
    destruct (tidy_path _ Ht _ _ _ Hj) as (m & Hm & Hp & Hb).
    exists m. split; [done|]. split; [done|].
    intros i Hi. destruct (Hb i Hi) as (j' & k' & v' & Hp' & Hj' & Hne).
    exists j', (Entry k' v'). split; [done|]. split; [done|].
    split; [done|]. intros v0 [= ? _]. done.
Qed.

(** Turning a tuple into a tombstone keeps the invariant and takes the
    key out. *)
Lemma oa_settled_tombstone self j key v c :
  settled self → table self !! j = Some (Entry key v) →
  let self' := set_count (set_table self (<[j:=DELETED]> (table self))) c in
  settled self'
  ∧ (∀ k w, holds self' k w ↔ holds self k w ∧ k ≠ key).
Proof.
  intros Hs Hj self'.
  assert (Hjlt : (j < length (table self))%nat) by (by eapply lookup_lt_Some).
  assert (Hps : ∀ k n, probe_slot self' k n = probe_slot self k n).
  { intros. apply oa_probe_slot_eq; try done. simpl. by rewrite length_insert. }
  assert (Hent : ∀ j' k w, table self' !! j' = Some (Entry k w) →
            j' ≠ j ∧ table self !! j' = Some (Entry k w)).
  { intros j' k w. simpl. destruct (decide (j' = j)) as [->|Hne].
    - by rewrite list_lookup_insert_eq.
    - by rewrite list_lookup_insert_ne. }
  split; [split|].
  - simpl. rewrite length_insert. apply Hs.
  - intros j1 j2 k v1 v2 [_ H1]%Hent [_ H2]%Hent.
    by eapply (settled_unique _ Hs).
  - intros j' k w [Hne Hj']%Hent.
    destruct (settled_path _ Hs _ _ _ Hj') as (m & Hm & Hp & Hpass).
    exists m. split; [done|]. split; [by rewrite Hps|].
    intros i Hi. destruct (Hpass i Hi) as (j2 & s & Hp2 & Hj2 & Hs1 & Hs2).
    rewrite Hps. simpl. destruct (decide (j2 = j)) as [->|Hne2].
    + exists j, DELETED. rewrite list_lookup_insert_eq by done. done.
    + exists j2, s. by rewrite list_lookup_insert_ne.
  - intros k w. rewrite !oa_holds_lookup. split.
    + intros [j' [Hne Hj']%Hent]. split; [eauto|]. intros ->.
      apply Hne. by eapply (settled_unique _ Hs).
    + intros [[j' Hj'] Hne]. exists j'. simpl.
      rewrite list_lookup_insert_ne; [done|]. intros ->. congruence.
Qed.

(** The loop of [search] walks over tombstones and tuples of other keys. *)
Lemma oa_search_loop_pass self key v j (m : nat) : ∀ n (i : nat),
  (m < n)%nat →
  (∀ i' : nat, (i ≤ i' < i + m)%nat →
     ∃ j' s, probe_slot self key (Z.of_nat i') = Some j'
       ∧ table self !! j' = Some s ∧ s ≠ Empty ∧ ∀ w, s ≠ Entry key w) →
  probe_slot self key (Z.of_nat (i + m)) = Some j →
  table self !! j = Some (Entry key v) →
  ∃ self', search_loop n self key (Z.of_nat i) = (Ok v, self').
Proof.
  induction m as [|m IH]; intros n i Hn Hb Hp Hj.
  - destruct n as [|n]; [lia|]. simpl. rewrite Nat.add_0_r in Hp.
    destruct (oa_probe_slot_body _ _ _ _ Hp)
      as (index & entry & Hprobe & Hidx & Hget & Hj').
    unfold search_body. rewrite Hprobe. simpl. rewrite Hget.
    rewrite Hj in Hj'. injection Hj' as <-. rewrite Z.eqb_refl. eauto.
  - destruct n as [|n]; [lia|]. simpl.
    destruct (Hb i ltac:(lia)) as (j' & s & Hp' & Hj' & Hs1 & Hs2).
    destruct (oa_probe_slot_body _ _ _ _ Hp')
      as (index & entry & Hprobe & Hidx & Hget & Hj'').
    unfold search_body. rewrite Hprobe. simpl. rewrite Hget.
    rewrite Hj' in Hj''. injection Hj'' as <-.
    assert (Hnext : ∃ self', search_loop n (shift 1 1 self) key (Z.of_nat i + 1)
                             = (Ok v, self')).
    { rewrite oa_search_loop_shift.
      replace (Z.of_nat i + 1) with (Z.of_nat (S i)) by lia.
      destruct (IH n (S i)) as [s1 Hs1']; try done.
      - lia.
      - intros i' Hi'. apply Hb. lia.
      - by replace (S i + m)%nat with (i + S m)%nat by lia.
      - rewrite Hs1'. simpl. eauto. }
    destruct s as [| |k' v']; [done|exact Hnext|].
    destruct (Z.eqb_spec k' key) as [->|_]; [by destruct (Hs2 v')|].
    exact Hnext.
Qed.

Lemma oa_search_settled self key v :
  settled self → holds self key v → ∃ self', search self key = (Ok v, self').
Proof.
  intros Hs [j Hj]%oa_holds_lookup.
  destruct (settled_path _ Hs _ _ _ Hj) as (m & Hm & Hp & Hb).
  apply (oa_search_loop_pass self key v j m _ 0%nat); try done.
  intros i' Hi'. apply Hb. lia.
Qed.

(** The loop of [delete] does the same walk. *)
Lemma oa_delete_loop_pass self key v j (m : nat) : ∀ n (i : nat),
  (m < n)%nat →
  (∀ i' : nat, (i ≤ i' < i + m)%nat →
     ∃ j' s, probe_slot self key (Z.of_nat i') = Some j'
       ∧ table self !! j' = Some s ∧ s ≠ Empty ∧ ∀ w, s ≠ Entry key w) →
  probe_slot self key (Z.of_nat (i + m)) = Some j →
  table self !! j = Some (Entry key v) →
  ∃ self', delete_loop n self key (Z.of_nat i) = (Ok true, self').
Proof.
  induction m as [|m IH]; intros n i Hn Hb Hp Hj.
  - destruct n as [|n]; [lia|]. simpl. rewrite Nat.add_0_r in Hp.
    destruct (oa_probe_slot_body _ _ _ _ Hp)
      as (index & entry & Hprobe & Hidx & Hget & Hj').
    unfold delete_body. rewrite Hprobe, Hget.
    rewrite Hj in Hj'. injection Hj' as <-. rewrite Z.eqb_refl.
    rewrite (py_setitem_index _ _ _ _ Hidx). eauto.
  - destruct n as [|n]; [lia|]. simpl.
    destruct (Hb i ltac:(lia)) as (j' & s & Hp' & Hj' & Hs1 & Hs2).
    destruct (oa_probe_slot_body _ _ _ _ Hp')
      as (index & entry & Hprobe & Hidx & Hget & Hj'').
    unfold delete_body. rewrite Hprobe, Hget.
    rewrite Hj' in Hj''. injection Hj'' as <-.
    assert (Hnext : ∃ self', delete_loop n self key (Z.of_nat i + 1)
                             = (Ok true, self')).
    { replace (Z.of_nat i + 1) with (Z.of_nat (S i)) by lia.
      apply (IH n (S i)); try done.
      - lia.
      - intros i' Hi'. apply Hb. lia.
      - by replace (S i + m)%nat with (i + S m)%nat by lia. }
    destruct s as [| |k' v']; [done|exact Hnext|].
    destruct (Z.eqb_spec k' key) as [->|_]; [by destruct (Hs2 v')|].
    exact Hnext.
Qed.

Lemma oa_delete_settled self key v :
  settled self → holds self key v → ∃ self', delete self key = (Ok true, self').
Proof.
  intros Hs [j Hj]%oa_holds_lookup.
  destruct (settled_path _ Hs _ _ _ Hj) as (m & Hm & Hp & Hb).
  apply (oa_delete_loop_pass self key v j m _ 0%nat); try done.
  intros i' Hi'. apply Hb. lia.
Qed.

(** Whether [_probe] returns normally does not depend on the probe
    number, and on a table with slots the index is in range. *)
Lemma oa_probe_any self key i index :
  0 < size self → length (table self) = Z.to_nat (size self) →
  _probe self key i = Ok index →
  ∀ i', ∃ j s, probe_slot self key i' = Some j ∧ table self !! j = Some s.
Proof.
  intros Hs Hlen Hprobe i'.
  assert (Hmod : ∀ x, ∃ j s, py_mod x (size self) = Ok (x mod size self)
            ∧ py_index (table self) (x mod size self) = Some j
            ∧ table self !! j = Some s).
  { intros x. pose proof (Z.mod_pos_bound x (size self) Hs) as Hb.
    assert (Hi : py_index (table self) (x mod size self)
                 = Some (Z.to_nat (x mod size self))).
    { apply py_index_nonneg. rewrite Hlen. lia. }
    destruct (py_getitem_index _ _ _ Hi) as (s & _ & Hl).
    exists (Z.to_nat (x mod size self)), s. split; [|done].
    apply py_mod_Ok. lia. }
  unfold probe_slot. revert Hprobe.
  unfold _probe, _linear_probe, _quadratic_probe, _double_hash.
  destruct (String.eqb (probe_type self) "linear").
  { destruct (hash_func self key (size self)) as [h|e]; [|done]. intros _.
    destruct (Hmod (h + i')) as (j & s & -> & ? & ?). eauto. }
  destruct (String.eqb (probe_type self) "quadratic").
  { destruct (hash_func self key (size self)) as [h|e]; [|done]. intros _.
    destruct (Hmod (h + 1 * i' + 1 * i' * i')) as (j & s & -> & ? & ?). eauto. }
  destruct (String.eqb (probe_type self) "double"); [|done].
  destruct (hash_func self key (size self)) as [h|e]; [|done].
  destruct (py_mod key (size self - 1)) as [r|e]; [|done]. intros _.
  destruct (Hmod (h + i' * (1 + r))) as (j & s & -> & ? & ?). eauto.
Qed.

Lemma oa_search_loop_total key n : ∀ self i,
  (∀ i', ∃ j s, probe_slot self key i' = Some j ∧ table self !! j = Some s) →
  ∃ v self', search_loop n self key i = (Ok v, self').
Proof.
  induction n as [|n IH]; intros self i Hall; simpl; [eauto|].
  destruct (Hall i) as (j & s & Hp & Hj).
  destruct (oa_probe_slot_body _ _ _ _ Hp)
    as (index & entry & Hprobe & Hidx & Hget & Hj').
  unfold search_body. rewrite Hprobe. simpl. rewrite Hget.
  assert (Hnext : ∃ v self', search_loop n (shift 1 1 self) key (i + 1)
                             = (Ok v, self')).
  { rewrite oa_search_loop_shift.
    destruct (IH self (i + 1) Hall) as (v & s1 & ->). simpl. eauto. }
  destruct entry as [| |k v]; [eauto|exact Hnext|].
  destruct (k =? key); [eauto|exact Hnext].
Qed.

(** After its tuple is gone a key that was stored is searched for without
    an error, and not found. *)
Lemma oa_search_gone self self' key v :
  settled self → holds self key v →
  size self' = size self → hash_func self' = hash_func self →
  probe_type self' = probe_type self →
  length (table self') = length (table self) →
  ¬ has_key self' key →
  ∃ self'', search self' key = (Ok PyNone, self'').
Proof.
  intros Hs [j Hj]%oa_holds_lookup Hsize Hh Hp Hlen Hgone.
  destruct (settled_path _ Hs _ _ _ Hj) as (m & Hm & Hpm & _).
  destruct (oa_probe_slot_body _ _ _ _ Hpm) as (index & _ & Hprobe & _).
  assert (Hprobe' : _probe self' key (Z.of_nat m) = Ok index).
  { rewrite <- Hprobe.
    unfold _probe, _linear_probe, _quadratic_probe, _double_hash.
    by rewrite Hsize, Hh, Hp. }
  assert (Hpos : 0 < size self') by lia.
  assert (Hlen' : length (table self') = Z.to_nat (size self')).
  { rewrite Hlen, Hsize. apply Hs. }
  destruct (oa_search_loop_total key (Z.to_nat (size self')) self' 0
              (oa_probe_any _ _ _ _ Hpos Hlen' Hprobe')) as (w & self'' & Hw).
  exists self''. unfold search. rewrite Hw.
  destruct (oa_search_loop_sound _ _ _ _ _ _ Hw) as [Hh'| ->]; [|done].
  destruct Hgone. by exists w.
Qed.

(** A run of [delete] calls on a table that has seen inserts only. *)
Lemma oa_delete_all_settled ks : ∀ self,
  settled self →
  settled (delete_all self ks)
  ∧ size (delete_all self ks) = size self
  ∧ hash_func (delete_all self ks) = hash_func self
  ∧ probe_type (delete_all self ks) = probe_type self
  ∧ length (table (delete_all self ks)) = length (table self)
  ∧ (∀ k v, holds (delete_all self ks) k v ↔ holds self k v ∧ k ∉ ks).
Proof.
  induction ks as [|k0 ks IH]; intros self Hs; simpl.
  { repeat (split; [done|]). intros k v. split; [|by intros [? _]].
    intros H. split; [done|apply not_elem_of_nil]. }
  destruct (delete self k0) as [r s1] eqn:E. simpl.
  assert (Hs1 : settled s1 ∧ size s1 = size self
            ∧ hash_func s1 = hash_func self ∧ probe_type s1 = probe_type self
            ∧ length (table s1) = length (table self)
            ∧ (∀ k v, holds s1 k v ↔ holds self k v ∧ k ≠ k0)).
  { assert (r = Ok true ∨ r ≠ Ok true) as [->|Hr]
      by (destruct r as [[|]|e]; [by left|by right..]).
    - apply oa_delete_loop_true in E as (j & v & Hj & ->).
      destruct (oa_settled_tombstone self j k0 v (count self - 1) Hs Hj)
        as [Hs' Hholds].
      split; [exact Hs'|]. split; [done|]. split; [done|]. split; [done|].
      split; [simpl; by rewrite length_insert|exact Hholds].
    - destruct (oa_delete_spec _ _ _ _ E) as [Hsame _].
      rewrite (Hsame Hr) in *.
      repeat (split; [done|]). intros k v. split; [|by intros [? _]].
      intros Hk. split; [done|]. intros ->.
      destruct (oa_delete_settled self k0 v Hs Hk) as [s2 Hs2]. congruence. }
  destruct Hs1 as (Hs1 & Hsize & Hh & Hp & Hlen & Hholds).
  destruct (IH s1 Hs1) as (Hs' & Hsize' & Hh' & Hp' & Hlen' & Hholds').
  split; [done|]. split; [congruence|]. split; [congruence|].
  split; [congruence|]. split; [congruence|].
  intros k v. rewrite Hholds', Hholds, not_elem_of_cons. tauto.
Qed.

End open_addressing_deletes.

(** X25. A [delete] on an open-addressing table that returns [True] has
    turned one slot that held a tuple of the key into a tombstone and
    taken one off [count], and has changed nothing else: no slot is ever
    emptied.  A [delete] that does not return [True] leaves the table as
    it was. *)
Theorem open_addressing_delete_effect self key r self' :
  HashTableOpenAddressing.delete self key = (r, self') →
  (r = Ok true →
     ∃ j v,
       HashTableOpenAddressing.table self !! j
       = Some (HashTableOpenAddressing.Entry key v)
       ∧ self' = HashTableOpenAddressing.set_count
                   (HashTableOpenAddressing.set_table self
                      (<[j:=HashTableOpenAddressing.DELETED]>
                         (HashTableOpenAddressing.table self)))
                   (HashTableOpenAddressing.count self - 1))
  ∧ (r ≠ Ok true → self' = self).
Proof.
  intros Hdel. split.
  - intros ->. by eapply oa_delete_loop_true.
  - by destruct (HashTableOpenAddressingSpec.oa_delete_spec _ _ _ _ Hdel).
Qed.

Lemma open_addressing_delete_effect_witness :
  let t0 := HashTableOpenAddressing.init 10 None "linear" (3 # 4) in
  let t := (HashTableOpenAddressing.insert_all t0
              [(0, PyStr "a"); (10, PyStr "b")]).2 in
  let t' := (HashTableOpenAddressing.delete t 10).2 in
  HashTableOpenAddressing.delete t 10 = (Ok true, t')
  ∧ ∃ j v,
      HashTableOpenAddressing.table t !! j
      = Some (HashTableOpenAddressing.Entry 10 v)
      ∧ t' = HashTableOpenAddressing.set_count
               (HashTableOpenAddressing.set_table t
                  (<[j:=HashTableOpenAddressing.DELETED]>
                     (HashTableOpenAddressing.table t)))
               (HashTableOpenAddressing.count t - 1).
Proof.
  intros t0 t t'.
  assert (H : HashTableOpenAddressing.delete t 10 = (Ok true, t'))
    by (vm_compute; reflexivity).
  split; [exact H|].
  exact (proj1 (open_addressing_delete_effect t 10 (Ok true) t' H) eq_refl).
Defined.

(** X26. An open-addressing table that sees all its inserts before its
    deletes works as a map, whatever its probe type: after a list of
    pairs has been inserted with every call returning normally and any
    list of keys has then been deleted, [search(k)] returns the value of
    the last pair of [k] for every inserted key that was not deleted, and
    [None] for every inserted key that was deleted. *)
Theorem open_addressing_deletes_after_inserts n hf pt thr kvs ks self :
  HashTableOpenAddressing.insert_all
    (HashTableOpenAddressing.init n hf pt thr) kvs = (Ok tt, self) →
  (∀ l1 k v l2, kvs = l1 ++ (k, v) :: l2 → k ∉ l2.*1 → k ∉ ks →
     ∃ self', HashTableOpenAddressing.search
                (HashTableOpenAddressing.delete_all self ks) k = (Ok v, self'))
  ∧ (∀ k, k ∈ kvs.*1 → k ∈ ks →
       ∃ self', HashTableOpenAddressing.search
                  (HashTableOpenAddressing.delete_all self ks) k
                = (Ok PyNone, self')).
Proof.
  intros Hrun.
  destruct (oa_insert_all_last kvs _ _
              (HashTableOpenAddressingSpec.oa_init_tidy n hf pt thr) Hrun)
    as (Ht & Hlast & _).
  pose proof (oa_tidy_settled _ Ht) as Hs.
  destruct (oa_delete_all_settled ks self Hs)
    as (Hs' & Hsize & Hh & Hp & Hlen & Hholds).
  split.
  - intros l1 k v l2 Heq Hl2 Hk.
    apply oa_search_settled; [done|].
    apply Hholds. split; [by eapply Hlast|done].
  - intros k Hin Hk.
    destruct (last_binding kvs k Hin) as (l1 & v & l2 & Heq & Hl2).
    apply (oa_search_gone self _ k v); try done; [by eapply Hlast|].
    intros [w Hw]. apply Hholds in Hw as [_ Hw]. done.
Qed.

Lemma open_addressing_deletes_after_inserts_witness :
  let kvs := [(0, PyStr "a"); (10, PyStr "b"); (20, PyStr "c")] in
  let t0 := HashTableOpenAddressing.init 10 None "linear" (3 # 4) in
  let t := (HashTableOpenAddressing.insert_all t0 kvs).2 in
  (HashTableOpenAddressing.insert_all t0 kvs = (Ok tt, t)
   ∧ kvs = [(0, PyStr "a"); (10, PyStr "b")] ++ (20, PyStr "c") :: []
   ∧ (20 ∉ ([] : list (Z * Any)).*1) ∧ (20 ∉ [0; 10]))
  ∧ ∃ self', HashTableOpenAddressing.search
               (HashTableOpenAddressing.delete_all t [0; 10]) 20
             = (Ok (PyStr "c"), self').
Proof.
  intros kvs t0 t.
  assert (H1 : HashTableOpenAddressing.insert_all t0 kvs = (Ok tt, t))
    by (vm_compute; reflexivity).
  assert (H2 : kvs = [(0, PyStr "a"); (10, PyStr "b")] ++ (20, PyStr "c") :: [])
    by reflexivity.
  assert (H3 : 20 ∉ ([] : list (Z * Any)).*1) by apply not_elem_of_nil.
  assert (H4 : 20 ∉ [0; 10]).
  { intros H. apply list_elem_of_In in H. vm_compute in H.
    destruct H as [H|[H|[]]]; discriminate H. }
  split; [exact (conj H1 (conj H2 (conj H3 H4)))|].
  exact (proj1 (open_addressing_deletes_after_inserts 10 None "linear" (3 # 4)
                  kvs [0; 10] t H1) _ 20 (PyStr "c") _ H2 H3 H4).
Defined.

(** X27. [search] changes nothing but the counters, on both hash tables
    and whatever it returns: after [reset_counts()] the table is the one
    that [reset_counts()] gives without the [search]. *)
Theorem search_changes_counters_only :
  (∀ self key,
     HashTableOpenAddressing.reset_counts
       (HashTableOpenAddressing.search self key).2
     = HashTableOpenAddressing.reset_counts self)
  ∧ (∀ self key,
       HashTableSeparateChaining.reset_counts
         (HashTableSeparateChaining.search self key).2
       = HashTableSeparateChaining.reset_counts self).
Proof.
  split.
  - intros self key.
    apply (HashTableOpenAddressingSpec.oa_search_counts self key
             (HashTableOpenAddressing.search self key).1).
    apply surjective_pairing.
  - apply sc_search_reset.
Qed.

(** ** Benchmarks *)

Section benchmark_loops.

Lemma elem_of_zip_keys (keys : list Z) (k : Z) (v : Any) :
  (k, v) ∈ zip keys (PyInt <$> keys) → v = PyInt k ∧ k ∈ keys.
Proof.
  induction keys as [|k0 keys IH]; simpl; [by intros ?%elem_of_nil|].
  intros [[= -> ->]|Hin]%elem_of_cons.
  - split; [done|apply list_elem_of_here].
  - destruct (IH Hin). split; [done|by apply list_elem_of_further].
Qed.

Lemma fst_zip_keys (keys : list Z) : (zip keys (PyInt <$> keys)).*1 = keys.
Proof. apply fst_zip. by rewrite length_fmap. Qed.

Lemma zip_keys_last (keys : list Z) (k : Z) :
  k ∈ keys →
  ∃ l1 l2, zip keys (PyInt <$> keys) = l1 ++ (k, PyInt k) :: l2 ∧ k ∉ l2.*1.
Proof.
  intros Hk. rewrite <- fst_zip_keys in Hk.
  destruct (last_binding _ _ Hk) as (l1 & v & l2 & Heq & Hl2).
  assert (v = PyInt k) as ->.
  { apply (elem_of_zip_keys keys k v). rewrite Heq.
    apply elem_of_app. right. apply list_elem_of_here. }
  eauto.
Qed.

(** *** Open addressing *)

Lemma oa_benchmark_insert_loop self pairs :
  benchmark_insert_loop self pairs = HashTableOpenAddressing.insert_all self pairs.
Proof.
  revert self. induction pairs as [|[k v] pairs IH]; intros self; [done|].
  simpl. destruct (HashTableOpenAddressing.insert self k v) as [[u|e] s1]; [|done].
  apply IH.
Qed.

Lemma oa_tidy_counts_only self self' :
  HashTableOpenAddressing.counts_only self self' →
  HashTableOpenAddressing.tidy self → HashTableOpenAddressing.tidy self'.
Proof.
  intros (Hs & Hc & Ht & Hh & Hp & Hthr)%HashTableOpenAddressingSpec.oa_counts_only_fields.
  rewrite (HashTableOpenAddressingSpec.oa_shift_eq
             (HashTableOpenAddressing._probe_count self'
              - HashTableOpenAddressing._probe_count self)
             (HashTableOpenAddressing._comparison_count self'
              - HashTableOpenAddressing._comparison_count self) self self')
    by (try done; lia).
  apply HashTableOpenAddressingSpec.oa_tidy_shift.
Qed.

Lemma oa_benchmark_search_loop keys : ∀ self found,
  HashTableOpenAddressing.tidy self →
  (∀ k, k ∈ keys → ∃ v, HashTableOpenAddressing.holds self k v ∧ v ≠ PyNone) →
  ∃ self', benchmark_search_loop self keys found
           = (Ok (found + Z.of_nat (length keys)), self').
Proof.
  induction keys as [|k keys IH]; intros self found Ht Hall; simpl.
  - rewrite Z.add_0_r. eauto.
  - destruct (Hall k) as (v & Hv & Hne); [apply list_elem_of_here|].
    destruct (HashTableOpenAddressingSpec.oa_search_tidy self k v Ht Hv)
      as [s1 Hs1].
    rewrite Hs1.
    pose proof (HashTableOpenAddressingSpec.oa_search_counts _ _ _ _ Hs1) as Hc.
    assert (is_not_None v = true) as -> by (by destruct v).
    destruct (IH s1 (found + 1)) as [self' Hself'].
    + by eapply oa_tidy_counts_only.
    + intros k' Hk'. destruct (Hall k') as (v' & Hv' & Hne');
        [by apply list_elem_of_further|].
      exists v'. split; [|done]. unfold HashTableOpenAddressing.holds in *.
      apply HashTableOpenAddressingSpec.oa_counts_only_fields in Hc
        as (_ & _ & -> & _).
      done.
    + rewrite Hself'. exists self'. do 2 f_equal. lia.
Qed.

Lemma oa_benchmark_delete_loop keys : ∀ self deleted deleted' self',
  benchmark_delete_loop self keys deleted = (Ok deleted', self') →
  HashTableOpenAddressing.count self'
  = HashTableOpenAddressing.count self - (deleted' - deleted)
  ∧ deleted ≤ deleted' ≤ deleted + Z.of_nat (length keys).
Proof.
  induction keys as [|k keys IH]; intros self deleted deleted' self'; simpl.
  - intros [= <- <-]. lia.
  - destruct (HashTableOpenAddressing.delete self k) as [[[|]|e] s1] eqn:E;
      [| |done]; intros Hrest; apply IH in Hrest as [Hc Hd].
    + apply oa_delete_loop_true in E as (j & v & _ & ->). simpl in Hc. lia.
    + destruct (HashTableOpenAddressingSpec.oa_delete_spec _ _ _ _ E)
        as [Hsame _].
      rewrite Hsame in Hc by done. lia.
Qed.

(** *** Separate chaining *)

Lemma sc_benchmark_insert_loop self pairs :
  benchmark_insert_loop self pairs
  = HashTableSeparateChaining.insert_all self pairs.
Proof.
  revert self. induction pairs as [|[k v] pairs IH]; intros self; [done|].
  simpl. destruct (HashTableSeparateChaining.insert self k v) as [[u|e] s1];
    [|done].
  apply IH.
Qed.

Lemma sc_insert_all_last kvs : ∀ self self',
  HashTableSeparateChaining.wf self →
  HashTableSeparateChaining.insert_all self kvs = (Ok tt, self') →
  HashTableSeparateChaining.wf self'
  ∧ (∀ l1 k v l2, kvs = l1 ++ (k, v) :: l2 → k ∉ l2.*1 →
       (k, v) ∈ HashTableSeparateChaining.nodes self')
  ∧ (∀ n, n.1 ∉ kvs.*1 →
       (n ∈ HashTableSeparateChaining.nodes self'
        ↔ n ∈ HashTableSeparateChaining.nodes self)).
Proof.
  induction kvs as [|[k0 v0] kvs IH]; intros self self' Hwf; simpl.
  - intros [= <-]. split; [done|]. split; [|done].
    intros l1 k v l2 H. by destruct l1.
  - destruct (HashTableSeparateChaining.insert self k0 v0) as [[[]|e] s1] eqn:E;
      [|done].
    intros Hrest.
    destruct (HashTableSeparateChainingSpec.sc_insert_spec _ _ _ _ _ Hwf E)
      as (Hwf1 & _ & _ & Hcontent).
    destruct (Hcontent eq_refl) as [Hkv1 Hothers1].
    destruct (IH _ _ Hwf1 Hrest) as (Hwf' & Hlast & Hout).
    split; [done|]. split.
    + intros [|x l1] k v l2 Heq Hk.
      * assert (k = k0 ∧ v = v0 ∧ l2 = kvs) as (-> & -> & ->)
          by (simpl in Heq; by simplify_eq).
        by apply (Hout (k0, v0)).
      * assert (kvs = l1 ++ (k, v) :: l2) as Hkvs
          by (simpl in Heq; by simplify_eq).
        by eapply Hlast.
    + intros n [Hne Hk]%not_elem_of_cons. rewrite (Hout n Hk).
      by apply Hothers1.
Qed.

Lemma sc_benchmark_search_loop keys : ∀ self found,
  HashTableSeparateChaining.wf self →
  (∀ k, k ∈ keys →
     ∃ v, (k, v) ∈ HashTableSeparateChaining.nodes self ∧ v ≠ PyNone) →
  ∃ self', benchmark_search_loop self keys found
           = (Ok (found + Z.of_nat (length keys)), self').
Proof.
  induction keys as [|k keys IH]; intros self found Hwf Hall; simpl.
  - rewrite Z.add_0_r. eauto.
  - destruct (Hall k) as (v & Hv & Hne); [apply list_elem_of_here|].
    destruct (HashTableSeparateChainingSpec.sc_search_found self k v Hwf Hv)
      as [c Hc].
    rewrite Hc.
    assert (is_not_None v = true) as -> by (by destruct v).
    destruct (IH (HashTableSeparateChaining.set_comparison_count self c)
                (found + 1)) as [self' Hself'].
    + by apply HashTableSeparateChainingSpec.sc_wf_set_comparison_count.
    + intros k' Hk'. apply Hall. by apply list_elem_of_further.
    + rewrite Hself'. exists self'. do 2 f_equal. lia.
Qed.

Lemma sc_delete_count self key r self' :
  HashTableSeparateChaining.delete self key = (r, self') →
  (r = Ok true →
     HashTableSeparateChaining.count self'
     = HashTableSeparateChaining.count self - 1)
  ∧ (r ≠ Ok true → self' = self).
Proof.
  unfold HashTableSeparateChaining.delete.
  destruct (HashTableSeparateChaining.hash_func self key _) as [index|e];
    [|by intros [= <- <-]].
  destruct (py_getitem (HashTableSeparateChaining.buckets self) index)
    as [[|[k v] next]|e]; [by intros [= <- <-]| |by intros [= <- <-]].
  destruct (k =? key).
  - destruct (py_setitem _ index next); by intros [= <- <-].
  - destruct (HashTableSeparateChaining.delete_walk next key) as [next'|];
      [|by intros [= <- <-]].
    destruct (py_setitem _ index ((k, v) :: next')); by intros [= <- <-].
Qed.

Lemma sc_benchmark_delete_loop keys : ∀ self deleted deleted' self',
  benchmark_delete_loop self keys deleted = (Ok deleted', self') →
  HashTableSeparateChaining.count self'
  = HashTableSeparateChaining.count self - (deleted' - deleted)
  ∧ deleted ≤ deleted' ≤ deleted + Z.of_nat (length keys).
Proof.
  induction keys as [|k keys IH]; intros self deleted deleted' self'; simpl.
  - intros [= <- <-]. lia.
  - destruct (HashTableSeparateChaining.delete self k) as [[[|]|e] s1] eqn:E;
      [| |done]; intros Hrest; apply IH in Hrest as [Hc Hd];
      destruct (sc_delete_count _ _ _ _ E) as [Ht Hf].
    + rewrite Ht in Hc by done. lia.
    + rewrite Hf in Hc by done. lia.
Qed.

End benchmark_loops.

(** X28. What [benchmark_insert] has put into a fresh hash table
    [benchmark_search] finds: when [benchmark_insert(ht, keys)] returns
    normally on a fresh open-addressing table of any probe type or on a
    fresh separate-chaining table, [benchmark_search(ht, ks)] returns
    normally for every list [ks] of keys taken from [keys], repeated or
    not, with [found = len(ks)]. *)
Theorem benchmark_search_finds_inserted {clock float : Type}
    (perf_counter : clock → float * clock)
    (float_sub : float → float → float) (keys ks : list Z) (c0 : clock) :
  ks ⊆ keys →
  (∀ n hf pt thr t1 oa c1,
     benchmark_insert perf_counter float_sub
       (HashTableOpenAddressing.init n hf pt thr) keys None c0
     = (Ok t1, oa, c1) →
     ∃ t2 oa' c2,
       benchmark_search perf_counter float_sub oa ks c1
       = (Ok (t2, Z.of_nat (length ks)), oa', c2))
  ∧ (∀ n hf thr t1 sc c1,
       benchmark_insert perf_counter float_sub
         (HashTableSeparateChaining.init n hf thr) keys None c0
       = (Ok t1, sc, c1) →
       ∃ t2 sc' c2,
         benchmark_search perf_counter float_sub sc ks c1
         = (Ok (t2, Z.of_nat (length ks)), sc', c2)).
Proof.
  intros Hsub. split.
  - intros n hf pt thr t1 oa c1. unfold benchmark_insert, benchmark_search.
    simpl. destruct (perf_counter c0) as [start c]. simpl.
    rewrite oa_benchmark_insert_loop.
    destruct (HashTableOpenAddressing.insert_all _ _) as [[u|e] s1] eqn:E.
    2:{ intros [=]. }
    destruct u. destruct (perf_counter c) as [end_ c'] eqn:Ec.
    intros [= _ <- <-].
    destruct (oa_insert_all_last _ _ _
                (HashTableOpenAddressingSpec.oa_init_tidy n hf pt thr) E)
      as (Ht & Hlast & _).
    destruct (oa_benchmark_search_loop ks s1 0 Ht) as [s2 Hs2].
    { intros k Hk. apply Hsub in Hk.
      destruct (zip_keys_last keys k Hk) as (l1 & l2 & Heq & Hl2).
      exists (PyInt k). split; [by eapply Hlast|done]. }
    destruct (perf_counter c') as [start2 c2]. rewrite Hs2. simpl.
    destruct (perf_counter c2) as [end2 c3]. eauto.
  - intros n hf thr t1 sc c1. unfold benchmark_insert, benchmark_search.
    simpl. destruct (perf_counter c0) as [start c]. simpl.
    rewrite sc_benchmark_insert_loop.
    destruct (HashTableSeparateChaining.insert_all _ _) as [[u|e] s1] eqn:E.
    2:{ intros [=]. }
    destruct u. destruct (perf_counter c) as [end_ c'] eqn:Ec.
    intros [= _ <- <-].
    destruct (sc_insert_all_last _ _ _
                (HashTableSeparateChainingSpec.sc_init_wf n hf thr) E)
      as (Hwf & Hlast & _).
    destruct (sc_benchmark_search_loop ks s1 0 Hwf) as [s2 Hs2].
    { intros k Hk. apply Hsub in Hk.
      destruct (zip_keys_last keys k Hk) as (l1 & l2 & Heq & Hl2).
      exists (PyInt k). split; [by eapply Hlast|done]. }
    destruct (perf_counter c') as [start2 c2]. rewrite Hs2. simpl.
    destruct (perf_counter c2) as [end2 c3]. eauto.
Qed.

Lemma benchmark_search_finds_inserted_witness :
  let perf_counter := λ c : nat, (Z.of_nat c, S c) in
  let keys := [3; 13; 3; 7; 23] in
  let sc0 := HashTableSeparateChaining.init 2 None 1 in
  let run := benchmark_insert perf_counter Z.sub sc0 keys None 0%nat in
  ([13; 3; 13] ⊆ keys ∧ run = (Ok 1, run.1.2, 2%nat))
  ∧ ∃ t2 sc' c2,
      benchmark_search perf_counter Z.sub run.1.2 [13; 3; 13] 2%nat
      = (Ok (t2, 3), sc', c2).
Proof.
  intros perf_counter keys sc0 run.
  assert (H1 : [13; 3; 13] ⊆ keys).
  { intros x Hx. apply list_elem_of_In in Hx. apply list_elem_of_In.
    vm_compute in Hx. vm_compute. tauto. }
  assert (H2 : run = (Ok 1, run.1.2, 2%nat)) by (vm_compute; reflexivity).
  split; [exact (conj H1 H2)|].
  exact (proj2 (benchmark_search_finds_inserted perf_counter Z.sub keys
                  [13; 3; 13] 0%nat H1) 2 None 1%Q 1 run.1.2 2%nat H2).
Defined.

(** X29. The number that [benchmark_delete] returns is the number of
    entries it removed: when [benchmark_delete(ht, keys)] returns normally
    on an open-addressing or a separate-chaining table in any state,
    [count] has gone down by exactly [deleted], and [deleted] is at most
    [len(keys)]. *)
Theorem benchmark_delete_counts {clock float : Type}
    (perf_counter : clock → float * clock)
    (float_sub : float → float → float) (keys : list Z) (c : clock) :
  (∀ oa t deleted oa' c',
     benchmark_delete perf_counter float_sub oa keys c
     = (Ok (t, deleted), oa', c') →
     HashTableOpenAddressing.count oa'
     = HashTableOpenAddressing.count oa - deleted
     ∧ 0 ≤ deleted ≤ Z.of_nat (length keys))
  ∧ (∀ sc t deleted sc' c',
       benchmark_delete perf_counter float_sub sc keys c
       = (Ok (t, deleted), sc', c') →
       HashTableSeparateChaining.count sc'
       = HashTableSeparateChaining.count sc - deleted
       ∧ 0 ≤ deleted ≤ Z.of_nat (length keys)).
Proof.
  split.
  - intros oa t deleted oa' c'. unfold benchmark_delete.
    destruct (perf_counter c) as [start c1].
    destruct (benchmark_delete_loop oa keys 0) as [[d|e] s1] eqn:E.
    2:{ intros [=]. }
    destruct (perf_counter c1) as [end_ c2]. intros [= _ <- <- _].
    apply oa_benchmark_delete_loop in E as [Hc Hd]. split; lia.
  - intros sc t deleted sc' c'. unfold benchmark_delete.
    destruct (perf_counter c) as [start c1].
    destruct (benchmark_delete_loop sc keys 0) as [[d|e] s1] eqn:E.
    2:{ intros [=]. }
    destruct (perf_counter c1) as [end_ c2]. intros [= _ <- <- _].
    apply sc_benchmark_delete_loop in E as [Hc Hd]. split; lia.
Qed.

Lemma benchmark_delete_counts_witness :
  let perf_counter := λ c : nat, (Z.of_nat c, S c) in
  let oa := (HashTableOpenAddressing.insert_all
               (HashTableOpenAddressing.init 10 None "linear" (3 # 4))
               [(3, PyInt 3); (13, PyInt 13); (7, PyInt 7)]).2 in
  let run := benchmark_delete perf_counter Z.sub oa [13; 5; 13; 3] 0%nat in
  run = (Ok (1, 2), run.1.2, 2%nat)
  ∧ HashTableOpenAddressing.count run.1.2
    = HashTableOpenAddressing.count oa - 2.
Proof.
  intros perf_counter oa run.
  assert (H : run = (Ok (1, 2), run.1.2, 2%nat)) by (vm_compute; reflexivity).
  split; [exact H|].
  exact (proj1 (proj1 (benchmark_delete_counts perf_counter Z.sub [13; 5; 13; 3]
                         0%nat) oa 1 2 run.1.2 2%nat H)).
Defined.
